(** * Spybot: a shallow embedding of the wallet-activity monitor

    The development follows the layering of the TypeScript sources:
    JavaScript number, string and object primitives, the address
    utilities of the [viem] dependency (EIP-55 checksums over
    Keccak-256), the address extractor, the multi-node RPC client, the
    block reader, the token resolver, the Telegram delivery queue, the
    message builder, the transaction processor, the address utilities
    of the bot and the selector resolver.  Definitions come first; the
    properties of each component follow in the second half of the
    file. *)

From Stdlib Require Import ZArith String Ascii List Bool Lia.
From stdpp Require Import base option list gmap strings pretty.

Import ListNotations.
Local Open Scope string_scope.
Local Open Scope Z_scope.
Local Open Scope list_scope.

(** ** JavaScript numbers

    A finite non-negative number is an IEEE 754 double: an integer
    [m] below [2^53] scaled by a power of two between [2^-1074] and
    [2^971].  It is held as the exact fraction [num / den] it stands
    for, [den] a power of two; an operation computes the exact result
    and rounds it, as the standard prescribes. *)

Module Double.

Record Value : Type := mk { num : Z; den : Z }.

(** The integer [l] with [2^l <= n / d < 2^(l+1)], for positive [n]
    and [d]. *)
Definition ilog2 (n d : Z) : Z :=
  let l := Z.log2 n - Z.log2 d in
  if n * 2 ^ Z.max 0 (- l) <? d * 2 ^ Z.max 0 l then l - 1 else l.

(** The double nearest to the fraction [n / d] ([0 <= n], [0 < d]),
    the one of even significand on a tie; [None] is [Infinity].  An
    integer below [2^53] is a double as it stands; any other value is
    cut to 53 significant bits at the exponent [e] of its last place,
    which is never below [-1074]. *)
Definition round (n d : Z) : option Value :=
  if (n mod d =? 0) && (n / d <? 2 ^ 53) then Some (mk (n / d) 1)
  else
    let e := Z.max (ilog2 n d - 52) (- 1074) in
    let scaled := n * 2 ^ Z.max 0 (- e) in
    let place := d * 2 ^ Z.max 0 e in
    let q := scaled / place in
    let r := scaled mod place in
    let m := if (place <? 2 * r) || ((place =? 2 * r) && Z.odd q)
             then q + 1 else q in
    if (0 <=? e) && (2 ^ 1024 <=? m * 2 ^ e) then None
    else Some (mk (m * 2 ^ Z.max 0 e) (2 ^ Z.max 0 (- e))).

(** [Number(n)] for a non-negative BigInt, and the value of a decimal
    literal. *)
Definition ofZ (n : Z) : option Value := round n 1.

(** The same as an integer, which a double of [2^53] or more is. *)
Definition ofInteger (n : Z) : option Z :=
  match ofZ n with
  | Some x => Some (num x / den x)
  | None => None
  end.

(** [a + b] and [a / b]. *)
Definition add (a b : Value) : option Value :=
  round (num a * den b + num b * den a) (den a * den b).

Definition div (a b : Value) : option Value :=
  round (num a * den b) (den a * num b).

(** [10 ** k] for an integer [k], taken as the double nearest to the
    power (which is the power itself from [10 ** 0] to [10 ** 22]). *)
Definition pow10 (k : Z) : option Value :=
  if 0 <=? k then round (10 ^ k) 1 else round 1 (10 ^ (- k)).

(** [BigInt(x)]: a [RangeError] ([None]) unless [x] is an integer. *)
Definition toBigInt (x : Value) : option Z :=
  if num x mod den x =? 0 then Some (num x / den x) else None.

(** Whether the decimal [v] is read as the double [x]. *)
Definition reads (v x : Z) : bool :=
  match ofInteger v with
  | Some y => y =? x
  | None => false
  end.

(** The decimal of fewest significant digits that is read as the
    integer-valued double [x] of [digits] digits: with [k] digits the
    candidates are the multiples of [10^(digits - k)] on either side of
    [x]; the nearer one is taken, the even one on a tie. *)
Fixpoint shortest (fuel : nat) (k x digits : Z) : Z :=
  match fuel with
  | O => x
  | S fuel =>
      let scale := 10 ^ (digits - k) in
      let below := x / scale * scale in
      let above := below + scale in
      if reads below x && reads above x
      then if above - x <? x - below then above
           else if (above - x =? x - below) && Z.odd (below / scale) then above
           else below
      else if reads below x then below
      else if reads above x then above
      else shortest fuel (k + 1) x digits
  end.

(** Decimal digits without their trailing zeros. *)
Fixpoint significant (digits : string) : string :=
  match digits with
  | EmptyString => EmptyString
  | String c r =>
      match significant r with
      | EmptyString => if Ascii.eqb c "0" then EmptyString else String c EmptyString
      | r' => String c r'
      end
  end.

(** [String(x)] for an integer-valued double [x] of [1e21] or more:
    the digits of [shortest], a point after the first one, and the
    decimal exponent. *)
Definition toExponent (x : Z) : string :=
  let v := shortest 17 1 x (Z.of_nat (String.length (pretty x))) in
  let digits := pretty v in
  let exponent := pretty (Z.of_nat (String.length digits) - 1) in
  match significant digits with
  | EmptyString => EmptyString
  | String c EmptyString => String c EmptyString +:+ "e+" +:+ exponent
  | String c r => String c EmptyString +:+ "." +:+ r +:+ "e+" +:+ exponent
  end.

End Double.

(** ** JavaScript string primitives

    A string holds the UTF-8 encoding of the JavaScript string, one
    [ascii] per byte, which is also how a string literal is read.  On
    ASCII text (calldata, addresses, selectors, subscriber keys,
    decimal numbers) a byte is a UTF-16 code unit, so [slice],
    [startsWith] and [String.length] are the source's there; [length]
    counts the UTF-16 code units of any text, and [trim] knows the
    white space beyond ASCII by its encoding. *)

Module Js.

(** [s.length]: the number of UTF-16 code units.  A character below
    U+10000 is one unit and is encoded with one lead byte, below [0x80]
    or from [0xC0] to [0xEF]; a character from U+10000 on is a
    surrogate pair, two units, and its lead byte is [0xF0] or more;
    the continuation bytes, [0x80] to [0xBF], add nothing. *)
Fixpoint length (s : string) : nat :=
  match s with
  | EmptyString => 0%nat
  | String c r =>
      let n := nat_of_ascii c in
      ((if (n <? 128) || ((192 <=? n) && (n <? 240)) then 1
        else if 240 <=? n then 2 else 0) + length r)%nat
  end.

(** [s.slice(a, b)] for non-negative in-range-or-beyond indices. *)
Definition slice (a b : nat) (s : string) : string :=
  String.substring a (b - a) s.

(** [s.slice(a)]. *)
Definition sliceFrom (a : nat) (s : string) : string :=
  String.substring a (String.length s - a) s.

(** [s.startsWith(p)]. *)
Definition startsWith (p s : string) : bool := String.prefix p s.

Definition isUpperAlpha (c : ascii) : bool :=
  let n := nat_of_ascii c in ((65 <=? n) && (n <=? 90))%nat.

Definition isLowerAlpha (c : ascii) : bool :=
  let n := nat_of_ascii c in ((97 <=? n) && (n <=? 122))%nat.

Definition lowerChar (c : ascii) : ascii :=
  if isUpperAlpha c then ascii_of_nat (nat_of_ascii c + 32) else c.

Definition upperChar (c : ascii) : ascii :=
  if isLowerAlpha c then ascii_of_nat (nat_of_ascii c - 32) else c.

(** [s.toLowerCase()] on the ASCII range. *)
Fixpoint toLowerCase (s : string) : string :=
  match s with
  | EmptyString => EmptyString
  | String c r => String (lowerChar c) (toLowerCase r)
  end.

(** White space removed by [String.prototype.trim], ASCII range:
    TAB, LF, VT, FF, CR and SPACE. *)
Definition isSpace (c : ascii) : bool :=
  let n := nat_of_ascii c in
  ((n =? 32) || ((9 <=? n) && (n <=? 13)))%nat.

(** The white space of two bytes: U+00A0, encoded [C2 A0]. *)
Definition isSpace2 (b0 b1 : ascii) : bool :=
  ((nat_of_ascii b0 =? 194) && (nat_of_ascii b1 =? 160))%nat.

(** The white space of three bytes: U+1680 [E1 9A 80], U+2000 to
    U+200A [E2 80 80] to [E2 80 8A], the line terminators U+2028 and
    U+2029 [E2 80 A8], [E2 80 A9], U+202F [E2 80 AF], U+205F
    [E2 81 9F], U+3000 [E3 80 80] and the byte order mark U+FEFF
    [EF BB BF]. *)
Definition isSpace3 (b0 b1 b2 : ascii) : bool :=
  let n0 := nat_of_ascii b0 in
  let n1 := nat_of_ascii b1 in
  let n2 := nat_of_ascii b2 in
  (((n0 =? 225) && (n1 =? 154) && (n2 =? 128))
   || ((n0 =? 226) && (n1 =? 128)
       && (((128 <=? n2) && (n2 <=? 138))
           || (n2 =? 168) || (n2 =? 169) || (n2 =? 175)))
   || ((n0 =? 226) && (n1 =? 129) && (n2 =? 159))
   || ((n0 =? 227) && (n1 =? 128) && (n2 =? 128))
   || ((n0 =? 239) && (n1 =? 187) && (n2 =? 191)))%nat.

(** [s.trimStart()]: leading white-space characters are dropped, of
    one, two or three bytes. *)
Fixpoint trimStart (s : string) : string :=
  match s with
  | EmptyString => EmptyString
  | String b0 r0 =>
      if isSpace b0 then trimStart r0 else
      match r0 with
      | EmptyString => s
      | String b1 r1 =>
          if isSpace2 b0 b1 then trimStart r1 else
          match r1 with
          | EmptyString => s
          | String b2 r2 => if isSpace3 b0 b1 b2 then trimStart r2 else s
          end
      end
  end.

(** A string of white space only. *)
Definition blank (s : string) : bool :=
  match trimStart s with
  | EmptyString => true
  | _ => false
  end.

(** [s.trimEnd()]: the text is cut where only white space follows. *)
Fixpoint trimEnd (s : string) : string :=
  match s with
  | EmptyString => EmptyString
  | String c r => if blank s then EmptyString else String c (trimEnd r)
  end.

(** [s.trim()]. *)
Definition trim (s : string) : string := trimEnd (trimStart s).

(** Truthiness of a string: only the empty string is falsy. *)
Definition truthy (s : string) : bool :=
  match s with EmptyString => false | _ => true end.

(** [s.split(sep)[0]] and [s.split(sep)[1]] for a one-character
    separator; the second component is [None] when the separator does
    not occur ([undefined] in the source). *)
Fixpoint splitFirst (sep : ascii) (s : string) : string * option string :=
  match s with
  | EmptyString => (EmptyString, None)
  | String c r =>
      if Ascii.eqb c sep then (EmptyString, Some r)
      else let '(h, t) := splitFirst sep r in (String c h, t)
  end.

Definition split2 (sep : ascii) (s : string) : string * option string :=
  let '(h, t) := splitFirst sep s in
  (h, match t with
      | None => None
      | Some r => Some (fst (splitFirst sep r))
      end).

(** [hay.includes(needle)]. *)
Fixpoint includes (needle hay : string) : bool :=
  String.prefix needle hay
  || match hay with
     | EmptyString => false
     | String _ r => includes needle r
     end.

(** The text that [String.prototype.replace] puts in place of a
    match of a string pattern: in the replacement, [$$] stands for a
    dollar sign, [$&] for the matched text, [$`] for the text before
    the match and [$'] for the text after it; a string pattern has no
    captures, so any other dollar sign stands for itself. *)
Fixpoint substitute (matched before after replacement : string) : string :=
  match replacement with
  | EmptyString => EmptyString
  | String "$" (String d r as rest) =>
      if Ascii.eqb d "$" then String "$" (substitute matched before after r)
      else if Ascii.eqb d "&" then matched +:+ substitute matched before after r
      else if Ascii.eqb d "`" then before +:+ substitute matched before after r
      else if Ascii.eqb d "'" then after +:+ substitute matched before after r
      else String "$" (substitute matched before after rest)
  | String c r => String c (substitute matched before after r)
  end.

(** The search for the first occurrence, [before] being the text
    already passed. *)
Fixpoint replaceAt (pattern replacement before text : string) : string :=
  if String.prefix pattern text
  then
    let after := sliceFrom (String.length pattern) text in
    before +:+ substitute pattern before after replacement +:+ after
  else match text with
       | EmptyString => before
       | String c r =>
           replaceAt pattern replacement (before +:+ String c EmptyString) r
       end.

(** [text.replace(pattern, replacement)] for a string pattern and a
    string replacement: the first occurrence only; a text without the
    pattern is returned as it is. *)
Definition replaceFirst (pattern replacement text : string) : string :=
  replaceAt pattern replacement EmptyString text.

Fixpoint digitsValue (acc : Z) (s : string) : option Z :=
  match s with
  | EmptyString => Some acc
  | String c r =>
      let n := nat_of_ascii c in
      if ((48 <=? n) && (n <=? 57))%nat
      then digitsValue (10 * acc + (Z.of_nat n - 48)) r
      else None
  end.

(** [Number(s)] on integer literals: the empty string is [0], an
    optional sign followed by decimal digits is that integer, and
    anything else is taken as [NaN] ([None]). *)
Definition toNumber (s : string) : option Z :=
  match s with
  | EmptyString => Some 0
  | String "-" (String c r) => Z.opp <$> digitsValue 0 (String c r)
  | String "+" (String c r) => digitsValue 0 (String c r)
  | String "-" EmptyString | String "+" EmptyString => None
  | _ => digitsValue 0 s
  end.

(** [s.indexOf(c)] for a one-character needle; [None] is [-1]. *)
Fixpoint indexOf (c : ascii) (s : string) : option nat :=
  match s with
  | EmptyString => None
  | String d r => if Ascii.eqb d c then Some 0%nat else S <$> indexOf c r
  end.

Definition isDigit (c : ascii) : bool :=
  let n := nat_of_ascii c in ((48 <=? n) && (n <=? 57))%nat.

(** The value of the longest prefix of decimal digits. *)
Fixpoint digitsPrefix (acc : Z) (s : string) : Z :=
  match s with
  | EmptyString => acc
  | String c r =>
      if isDigit c
      then digitsPrefix (10 * acc + (Z.of_nat (nat_of_ascii c) - 48)) r
      else acc
  end.

Definition startsWithDigit (s : string) : bool :=
  match s with
  | EmptyString => false
  | String c _ => isDigit c
  end.

(** A number as [parseInt] gives it: [NaN], an integer-valued double
    or an infinity. *)
Inductive Number : Type :=
| NaN
| Finite (value : Z)
| Infinity.

(** The digits read by [parseInt], as a number: the double nearest to
    their value. *)
Definition ofDigits (negative : bool) (digits : string) : Number :=
  if startsWithDigit digits
  then match Double.ofInteger (digitsPrefix 0 digits) with
       | Some value => Finite (if negative then - value else value)
       | None => Infinity
       end
  else NaN.

(** [parseInt(s, 10)]: leading white space is skipped, a sign is
    optional, parsing stops at the first character that is not a digit,
    and [NaN] is the answer when no digit was read.  The result is a
    double: the integer read when it is below [2^53], the nearest
    double above that, [Infinity] for [2^1024] or more. *)
Definition parseInt (s : string) : Number :=
  match trimStart s with
  | String "-" r => ofDigits true r
  | String "+" r => ofDigits false r
  | t => ofDigits false t
  end.

End Js.

(** ** Hexadecimal strings *)

Module Hex.

Definition digitVal (c : ascii) : option Z :=
  let n := nat_of_ascii c in
  if ((48 <=? n) && (n <=? 57))%nat then Some (Z.of_nat n - 48)
  else if ((97 <=? n) && (n <=? 102))%nat then Some (Z.of_nat n - 87)
  else if ((65 <=? n) && (n <=? 70))%nat then Some (Z.of_nat n - 55)
  else None.

Definition isHexDigit (c : ascii) : bool :=
  match digitVal c with Some _ => true | None => false end.

Fixpoint allHex (s : string) : bool :=
  match s with
  | EmptyString => true
  | String c r => isHexDigit c && allHex r
  end.

(** Big-endian value of a string of hex digits. *)
Fixpoint toZ_acc (acc : Z) (s : string) : option Z :=
  match s with
  | EmptyString => Some acc
  | String c r =>
      match digitVal c with
      | Some d => toZ_acc (16 * acc + d) r
      | None => None
      end
  end.

Definition toZ (s : string) : option Z := toZ_acc 0 s.

Definition digitChar (d : Z) : ascii :=
  if d <? 10 then ascii_of_nat (Z.to_nat d + 48)
  else ascii_of_nat (Z.to_nat d + 87).

(** Lower-case hex rendering of one byte and of a byte string. *)
Definition ofByte (b : Z) : string :=
  String (digitChar (b / 16)) (String (digitChar (b mod 16)) EmptyString).

Fixpoint ofBytes (bs : list Z) : string :=
  match bs with
  | [] => EmptyString
  | b :: r => ofByte b +:+ ofBytes r
  end.

(** A 256-bit word as 64 lower-case hex digits. *)
Fixpoint ofZ_digits (n : nat) (v : Z) (acc : string) : string :=
  match n with
  | O => acc
  | S n' => ofZ_digits n' (v / 16) (String (digitChar (v mod 16)) acc)
  end.

Definition word256 (v : Z) : string := ofZ_digits 64 v EmptyString.

End Hex.

(** ** Keccak-256, as used by the EIP-55 address checksum

    The permutation works on 25 lanes of 64 bits, lane [(x, y)] stored at
    index [x + 5 * y]; every lane is a [Z] kept below [2^64]. *)

Module Keccak.

Definition mask64 : Z := 2 ^ 64 - 1.

Definition rotl64 (v : Z) (n : Z) : Z :=
  Z.land (Z.lor (Z.shiftl v n) (Z.shiftr v (64 - n))) mask64.

Definition not64 (v : Z) : Z := Z.lxor v mask64.

Definition lane (st : list Z) (x y : nat) : Z :=
  nth ((x mod 5) + 5 * (y mod 5))%nat st 0.

Definition roundConstants : list Z :=
  [ 0x0000000000000001; 0x0000000000008082; 0x800000000000808A;
    0x8000000080008000; 0x000000000000808B; 0x0000000080000001;
    0x8000000080008081; 0x8000000000008009; 0x000000000000008A;
    0x0000000000000088; 0x0000000080008009; 0x000000008000000A;
    0x000000008000808B; 0x800000000000008B; 0x8000000000008089;
    0x8000000000008003; 0x8000000000008002; 0x8000000000000080;
    0x000000000000800A; 0x800000008000000A; 0x8000000080008081;
    0x8000000000008080; 0x0000000080000001; 0x8000000080008008 ].

(** Rotation offsets, indexed like the lanes. *)
Definition rotationOffsets : list Z :=
  [  0;  1; 62; 28; 27;
    36; 44;  6; 55; 20;
     3; 10; 43; 25; 39;
    41; 45; 15; 21;  8;
    18;  2; 61; 56; 14 ].

Definition coords : list (nat * nat) :=
  flat_map (fun y => List.map (fun x => (x, y)) (seq 0 5)) (seq 0 5).

Definition theta (st : list Z) : list Z :=
  let c := fun x =>
    Z.lxor (lane st x 0) (Z.lxor (lane st x 1) (Z.lxor (lane st x 2)
      (Z.lxor (lane st x 3) (lane st x 4)))) in
  let d := fun x => Z.lxor (c (x + 4)%nat) (rotl64 (c (x + 1)%nat) 1) in
  List.map (fun '(x, y) => Z.lxor (lane st x y) (d x)) coords.

(** rho and pi together: [B[x][y] = rot(A[x + 3y][x], r[x + 3y][x])]. *)
Definition rhoPi (st : list Z) : list Z :=
  List.map (fun '(x, y) =>
    let sx := ((x + 3 * y) mod 5)%nat in
    rotl64 (lane st sx x) (nth (sx + 5 * x)%nat rotationOffsets 0)) coords.

Definition chi (st : list Z) : list Z :=
  List.map (fun '(x, y) =>
    Z.lxor (lane st x y)
      (Z.land (not64 (lane st (x + 1) y)) (lane st (x + 2) y))) coords.

Definition iota (rc : Z) (st : list Z) : list Z :=
  match st with
  | [] => []
  | a :: r => Z.lxor a rc :: r
  end.

Definition round (st : list Z) (rc : Z) : list Z :=
  iota rc (chi (rhoPi (theta st))).

Definition keccakF (st : list Z) : list Z :=
  fold_left round roundConstants st.

(** Little-endian conversion between bytes and lanes. *)
Fixpoint laneOfBytes (bs : list Z) : Z :=
  match bs with
  | [] => 0
  | b :: r => b + 256 * laneOfBytes r
  end.

Fixpoint bytesOfLane (n : nat) (v : Z) : list Z :=
  match n with
  | O => []
  | S n' => (v mod 256) :: bytesOfLane n' (v / 256)
  end.

Fixpoint chunks (fuel : nat) (k : nat) (bs : list Z) : list (list Z) :=
  match fuel with
  | O => []
  | S f =>
      match bs with
      | [] => []
      | _ => firstn k bs :: chunks f k (skipn k bs)
      end
  end.

(** Rate of Keccak-256 in bytes. *)
Definition rate : nat := 136.

(** Multi-rate padding with the original Keccak domain byte [0x01]. *)
Definition pad (msg : list Z) : list Z :=
  let r := (rate - (List.length msg mod rate))%nat in
  if (r =? 1)%nat then msg ++ [0x81]
  else msg ++ [0x01] ++ repeat 0 (r - 2) ++ [0x80].

Definition absorbBlock (st : list Z) (block : list Z) : list Z :=
  let lanes := List.map laneOfBytes (chunks 25 8 block) in
  let lanes := lanes ++ repeat 0 (25 - List.length lanes) in
  keccakF (List.map (fun '(a, b) => Z.lxor a b) (combine st lanes)).

Definition keccak256 (msg : list Z) : list Z :=
  let padded := pad msg in
  let blocks := chunks (S (List.length padded)) rate padded in
  let st := fold_left absorbBlock blocks (repeat 0 25) in
  firstn 32 (flat_map (bytesOfLane 8) st).

Definition bytesOfString (s : string) : list Z :=
  List.map (fun c => Z.of_nat (nat_of_ascii c)) (list_ascii_of_string s).

End Keccak.

(** ** Address utilities of the [viem] dependency *)

Module Viem.

Definition hashNibble (hash : list Z) (i : nat) : Z :=
  let b := nth (i / 2)%nat hash 0 in
  if Nat.even i then Z.shiftr b 4 else Z.land b 15.

Fixpoint checksumChars (hash : list Z) (i : nat) (s : string) : string :=
  match s with
  | EmptyString => EmptyString
  | String c r =>
      String (if (i <? 40)%nat && (8 <=? hashNibble hash i)
              then Js.upperChar c else c)
             (checksumChars hash (S i) r)
  end.

(** [checksumAddress(address)] without chain id (EIP-55): the hex part
    is lower-cased, hashed as ASCII text, and every digit whose hash
    nibble is at least 8 is upper-cased. *)
Definition checksumAddress (address : string) : string :=
  let hexAddress := Js.toLowerCase (Js.sliceFrom 2 address) in
  let hash := Keccak.keccak256 (Keccak.bytesOfString hexAddress) in
  "0x" +:+ checksumChars hash 0 hexAddress.

(** The regular expression [/^0x[a-fA-F0-9]{40}$/]. *)
Definition addressRegex (address : string) : bool :=
  Js.startsWith "0x" address
  && (String.length address =? 42)%nat
  && Hex.allHex (Js.sliceFrom 2 address).

(** [isAddress(address, { strict })]. *)
Definition isAddressWith (strict : bool) (address : string) : bool :=
  if negb (addressRegex address) then false
  else if String.eqb (Js.toLowerCase address) address then true
  else if strict then String.eqb (checksumAddress address) address
  else true.

(** [isAddress(address)]: strict by default. *)
Definition isAddress (address : string) : bool := isAddressWith true address.

(** [getAddress(address)]; [None] stands for the thrown
    [InvalidAddressError]. *)
Definition getAddress (address : string) : option string :=
  if isAddressWith false address then Some (checksumAddress address)
  else None.

(** [formatEther(v) < 0.01] after [Number(...)]: the decimal rendering
    of [v / 10^18] is compared with the double nearest to one
    hundredth, which separates the wei amounts exactly at [10^16]. *)
Definition etherBelowOneHundredth (wei : Z) : bool := wei <? 10 ^ 16.

End Viem.

(** ** Insertion-ordered collections

    A JavaScript [Set] and the string-keyed part of an object keep their
    entries in insertion order.  The keys used by the program (addresses
    prefixed by [0x], subscriber ids containing [@], dedup keys containing
    [:]) are never array indices, so insertion order is the enumeration
    order. *)

Module Ordered.

(** [[...new Set(l)]]: first occurrences, in order. *)
Fixpoint uniq (l : list string) : list string :=
  match l with
  | [] => []
  | x :: r => x :: List.filter (fun y => negb (String.eqb x y)) (uniq r)
  end.

Definition has (x : string) (l : list string) : bool :=
  existsb (String.eqb x) l.

Section Record.
Context {V : Type}.

(** An object used as a map: association list without repeated keys. *)
Definition record := list (string * V).

Fixpoint get (k : string) (r : record) : option V :=
  match r with
  | [] => None
  | (k', v) :: r' => if String.eqb k k' then Some v else get k r'
  end.

(** [r[k] = v]: overwrite in place, or append a new key. *)
Fixpoint set (k : string) (v : V) (r : record) : record :=
  match r with
  | [] => [(k, v)]
  | (k', v') :: r' =>
      if String.eqb k k' then (k, v) :: r' else (k', v') :: set k v r'
  end.

Definition keys (r : record) : list string := List.map fst r.

(** [k in r]. *)
Definition mem (k : string) (r : record) : bool :=
  match get k r with Some _ => true | None => false end.

End Record.

Arguments record : clear implicits.

End Ordered.

(** ** Address extractor ([tracer/address-extractor]) *)

Module AddressExtractor.

Definition zeros24 : string := "000000000000000000000000".

(** The inner loop [for (i = 0; i < data.length; i += 64)]: the chunks
    [data.substring(i, i + 64)]. *)
Fixpoint chunks64 (fuel : nat) (data : string) : list string :=
  match fuel with
  | O => []
  | S f =>
      match data with
      | EmptyString => []
      | _ => Js.slice 0 64 data :: chunks64 f (Js.sliceFrom 64 data)
      end
  end.

Definition chunkAddress (chunk : string) : option string :=
  if String.eqb (Js.slice 0 24 chunk) zeros24 then
    let addressHex := "0x" +:+ Js.slice 24 64 chunk in
    if Viem.isAddress addressHex then
      match Viem.getAddress addressHex with
      | Some address => Some (Js.toLowerCase address)
      | None => None
      end
    else None
  else None.

Definition scanOffset (offset : nat) (_data : string) : list string :=
  let data := Js.sliceFrom offset _data in
  omap chunkAddress (chunks64 (String.length data) data).

Definition extractAddressesFromCalldata (_data : string) : list string :=
  if negb (Js.truthy _data) || (String.length _data <? 76)%nat then []
  else Ordered.uniq (scanOffset 2 _data ++ scanOffset 10 _data).

Definition extractAddressesFromLogs (logs : list string) : list string :=
  Ordered.uniq
    (omap (fun address =>
             if Viem.isAddress address then
               match Viem.getAddress address with
               | Some a => Some (Js.toLowerCase a)
               | None => None
               end
             else None) logs).

(** [transfer(address,uint256)] selector. *)
Definition transferSelector : string := "0xa9059cbb".

Definition extractTransferRecipient (data : string) : option string :=
  if Js.startsWith transferSelector data && (74 <=? String.length data)%nat
  then
    let addressHex := "0x" +:+ Js.slice 34 74 data in
    if Viem.isAddress addressHex then Viem.getAddress addressHex
    else None
  else None.

End AddressExtractor.

(** ** Multi-node RPC client ([transport/multinode-client]) *)

Module Multinode.

(** The values an RPC method can resolve to, as far as the consensus
    code tells them apart. *)
Inductive JsValue : Type :=
| JNull
| JUndefined
| JBigint (n : Z)
| JArray (items : list string)
| JObject (repr : string).

(** What one endpoint does with a request: the awaited method returns
    a value, or raises (transport error, time-out of the HTTP
    transport, or the method is not a function). *)
Inductive Outcome : Type :=
| Returned (v : JsValue)
| Raised (error : string).

Inductive ConsensusStrategy : Type :=
| firstSuccess
| mostLogs
| highestBlock.

(** Result of a client call: a value, or a thrown [Error] with its
    message. *)
Inductive Call (A : Type) : Type :=
| Ok (v : A)
| Throw (message : string).
Arguments Ok {A} v.
Arguments Throw {A} message.

(** The per-node wrapper of [executeParallel]: it never rejects. *)
Record NodeResult : Type := mkNodeResult {
  success : bool;
  result : JsValue;
  error : option string
}.

Definition runNode (o : Outcome) : NodeResult :=
  match o with
  | Returned v => mkNodeResult true v None
  | Raised e => mkNodeResult false JNull (Some e)
  end.

Definition isNull (v : JsValue) : bool :=
  match v with JNull => true | _ => false end.

Definition arrayLength (v : JsValue) : option nat :=
  match v with JArray items => Some (List.length items) | _ => None end.

Definition bigintOf (v : JsValue) : option Z :=
  match v with JBigint n => Some n | _ => None end.

(** [results.reduce(f)] without initial value, on a non-empty array. *)
Definition reduce1 {A} (f : A -> A -> A) (first : A) (rest : list A) : A :=
  fold_left f rest first.

Definition moreLogs (prev current : JsValue) : JsValue :=
  match arrayLength current with
  | Some n =>
      if (default 0%nat (arrayLength prev) <? n)%nat then current else prev
  | None => prev
  end.

Definition higherBlock (prev current : JsValue) : JsValue :=
  match bigintOf current with
  | Some n => if default 0 (bigintOf prev) <? n then current else prev
  | None => prev
  end.

(** [applyConsensusStrategy]; [results[0]] of an empty array is
    [undefined]. *)
Definition applyConsensusStrategy
    (results : list JsValue) (strategy : ConsensusStrategy) : JsValue :=
  match results with
  | [] => JUndefined
  | firstResult :: rest =>
      match strategy with
      | firstSuccess => firstResult
      | mostLogs =>
          match firstResult with
          | JArray _ => reduce1 moreLogs firstResult rest
          | _ => firstResult
          end
      | highestBlock =>
          match firstResult with
          | JBigint _ => reduce1 higherBlock firstResult rest
          | _ => firstResult
          end
      end
  end.

Definition allNodesFailed (method : string) : string :=
  "[RPC FAIL] All nodes failed for method: " +:+ method.

(** [executeParallel(method, args, strategy)], given what each node
    does with the request, in node order. *)
Definition executeParallel
    (method : string) (nodes : list Outcome) (strategy : ConsensusStrategy)
    : Call JsValue :=
  let results := List.map runNode nodes in
  let successful :=
    List.filter (fun r => success r && negb (isNull (result r))) results in
  match successful with
  | [] => Throw (allNodesFailed method)
  | _ => Ok (applyConsensusStrategy (List.map result successful) strategy)
  end.

(** One endpoint answering [getBlockNumber]. *)
Inductive HeadOutcome : Type :=
| Head (blockNumber : Z)
| HeadRaised (error : string).

Definition headTask (o : HeadOutcome) : option Z :=
  match o with
  | Head n => if 0 <=? n then Some n else None
  | HeadRaised _ => None
  end.

(** [getBlockNumber()]: the highest head among the nodes that answered. *)
Definition getBlockNumber (nodes : list HeadOutcome) : Call Z :=
  match omap headTask nodes with
  | [] => Throw "[RPC FAIL] All nodes failed to get block number"
  | first :: rest =>
      Ok (reduce1 (fun prev current => if prev <? current then current else prev)
            first rest)
  end.

(** [getLogs(args)]: the answer with the most entries. *)
Definition getLogs (nodes : list Outcome) : Call JsValue :=
  executeParallel "getLogs" nodes mostLogs.

End Multinode.

(** ** Block reader ([transport/block-reader]) *)

Module BlockReader.

Definition BLOCK_WINDOW : Z := 200.
Definition TX_WINDOW : nat := 10000.

(** A transaction of a fetched block: the full object, or only its
    hash when the node did not include the transactions. *)
Inductive BlockTx : Type :=
| TxObject (hash : string)
| TxHashOnly (hash : string).

Record Block : Type := mkBlock {
  number : option Z;
  hash : option string;
  transactions : list BlockTx
}.

Inductive Event : Type :=
| new_transaction (hash : string)
| new_block (number : Z) (txns : nat).

(** The mutable fields of the reader that deduplication uses. *)
Record State : Type := mkState {
  processedBlocks : gset Z;
  processedTransactions : list string
}.

Definition initial : State := mkState ∅ [].

(** [processTransaction(txData)] on the transaction set; returns the
    new set and the events emitted. *)
Definition processTransaction
    (seen : list string) (txHash : string) : list string * list Event :=
  if Ordered.has txHash seen then (seen, [])
  else
    let seen := seen ++ [txHash] in
    let seen :=
      if (TX_WINDOW <? List.length seen)%nat
      then skipn (TX_WINDOW / 2)%nat seen
      else seen in
    (seen, [new_transaction txHash]).

Fixpoint processTransactions
    (seen : list string) (txs : list BlockTx) : list string * list Event :=
  match txs with
  | [] => (seen, [])
  | TxHashOnly _ :: rest => processTransactions seen rest
  | TxObject h :: rest =>
      let '(seen1, ev1) := processTransaction seen h in
      let '(seen2, ev2) := processTransactions seen1 rest in
      (seen2, ev1 ++ ev2)
  end.

Definition countObjects (txs : list BlockTx) : nat :=
  List.length (List.filter (fun t => match t with TxObject _ => true | _ => false end) txs).

(** [processBlock(block)]. *)
Definition processBlock (st : State) (block : Block) : State * list Event :=
  match number block, hash block with
  | Some blockNumber, Some _ =>
      if decide (blockNumber ∈ processedBlocks st) then (st, [])
      else
        let blocks := {[ blockNumber ]} ∪ processedBlocks st in
        let '(seen, events) :=
          processTransactions (processedTransactions st) (transactions block) in
        let blocks :=
          if BLOCK_WINDOW <? blockNumber
          then blocks ∖ {[ blockNumber - BLOCK_WINDOW ]}
          else blocks in
        (mkState blocks seen,
         events ++ [new_block blockNumber (countObjects (transactions block))])
  | _, _ => (st, [])
  end.

(** The blocks handed to [processBlock] one after the other. *)
Fixpoint processBlocks (st : State) (blocks : list Block) : State * list Event :=
  match blocks with
  | [] => (st, [])
  | b :: rest =>
      let '(st1, ev1) := processBlock st b in
      let '(st2, ev2) := processBlocks st1 rest in
      (st2, ev1 ++ ev2)
  end.

(** The transaction hashes among the emitted events, in order. *)
Definition emittedHashes (events : list Event) : list string :=
  omap (fun e => match e with new_transaction h => Some h | _ => None end) events.

Definition maxAttempts : nat := 3.
Definition rereadBlocks : Z := 10.
Definition maxParallelBlocks : Z := 5.
Definition saveInterval : Z := 10.

(** What one call of [client.getBlock] does: a block, a falsy answer,
    or an exception. *)
Inductive GetBlock : Type :=
| GotBlock (block : Block)
| GotNothing
| GetBlockRaised.

(** The outcome of [tryGetBlock] on the answers received so far: it
    returned (a block or [null]), or it is still asking. *)
Inductive Fetch : Type :=
| Fetched (block : option Block)
| Pending.

Definition hasHash (block : Block) : bool :=
  match hash block with
  | Some h => Js.truthy h
  | None => false
  end.

Definition backoff (attempts : nat) : Z :=
  Z.min (1000 * Z.of_nat attempts) 5000.

(** [tryGetBlock(blockNumber, maxAttempts)] from the loop test on,
    with [attempts] errors counted so far; the second component lists
    the pauses in milliseconds. *)
Fixpoint tryGetBlock (answers : list GetBlock) (attempts maxAttempts : nat)
    : Fetch * list Z :=
  if (attempts <? maxAttempts)%nat then
    match answers with
    | [] => (Pending, [])
    | GotBlock block :: rest =>
        if hasHash block then (Fetched (Some block), [])
        else tryGetBlock rest attempts maxAttempts
    | GotNothing :: rest => tryGetBlock rest attempts maxAttempts
    | GetBlockRaised :: rest =>
        let attempts := S attempts in
        let '(outcome, sleeps) := tryGetBlock rest attempts maxAttempts in
        if (attempts <? maxAttempts)%nat
        then (outcome, backoff attempts :: sleeps)
        else (outcome, sleeps)
    end
  else (Fetched None, []).

(** [saveLastProcessedBlock(blockNumber)]: the text written to
    [block.txt]. *)
Definition saveLastProcessedBlock (blockNumber : Z) : string :=
  pretty blockNumber.

(** [loadLastProcessedBlock()], given the content of [block.txt]
    ([None] when it cannot be read) and the answer of
    [getBlockNumber]: the block to resume after, the text written to
    the file if any, and the errors emitted.  [BigInt] raises on
    [Infinity], which [parseInt] returns for a file of more digits than
    a double can take; the outer [catch] then treats the file as one
    that cannot be read. *)
Definition loadLastProcessedBlock (file : option string) (head : Multinode.Call Z)
    : Z * option string * list string :=
  let unreadable :=
    match head with
    | Multinode.Ok currentBlock =>
        let newStartBlock := currentBlock - rereadBlocks in
        if 0 <? newStartBlock
        then (newStartBlock, Some (saveLastProcessedBlock newStartBlock), [])
        else (currentBlock, None, [])
    | Multinode.Throw message => (0, None, [message])
    end in
  let resume (lastProcessedBlock : Z) :=
    match head with
    | Multinode.Ok currentBlock =>
        if (rereadBlocks <? currentBlock - lastProcessedBlock)
           || (lastProcessedBlock =? 0)
        then
          let newStartBlock := currentBlock - rereadBlocks in
          if 0 <? newStartBlock
          then (newStartBlock, Some (saveLastProcessedBlock newStartBlock), [])
          else (lastProcessedBlock, None, [])
        else (lastProcessedBlock, None, [])
    | Multinode.Throw message => (lastProcessedBlock, None, [message])
    end in
  match file with
  | Some data =>
      match Js.parseInt (Js.trim data) with
      | Js.Finite lastProcessedBlock => resume lastProcessedBlock
      | Js.NaN => resume 0
      | Js.Infinity => unreadable
      end
  | None => unreadable
  end.

(** The first block [start()] asks for. *)
Definition startBlock (file : option string) (head : Multinode.Call Z) : Z :=
  fst (fst (loadLastProcessedBlock file head)) + 1.

(** The state of one run of [readBlocksLoop]: the dedup state, the
    next block expected, the events emitted and the block numbers
    saved to disk, in order. *)
Record Progress : Type := mkProgress {
  reader : State;
  expectedBlockNumber : Z;
  emitted : list Event;
  saved : list Z
}.

(** The parallel fetch of a batch: [fetchedBlocks] holds the blocks
    that [tryGetBlock] delivered. *)
Definition fetchBatch (fetch : Z -> option Block) (expected : Z)
    (blocksToFetch : nat) : gmap Z Block :=
  fold_left (fun fetchedBlocks i =>
               let blockNumber := expected + Z.of_nat i in
               match fetch blockNumber with
               | Some block => <[ blockNumber := block ]> fetchedBlocks
               | None => fetchedBlocks
               end)
            (seq 0 blocksToFetch) ∅.

(** The second [for] loop: the fetched blocks are processed in order,
    up to the first missing one. *)
Fixpoint processFetched (i : nat) (fetchedBlocks : gmap Z Block) (p : Progress)
    : Progress :=
  match i with
  | O => p
  | S i' =>
      match fetchedBlocks !! expectedBlockNumber p with
      | Some block =>
          let '(st, events) := processBlock (reader p) block in
          let expected := expectedBlockNumber p + 1 in
          let saved :=
            if expected mod saveInterval =? 0
            then saved p ++ [expected] else saved p in
          processFetched i' fetchedBlocks
            (mkProgress st expected (emitted p ++ events) saved)
      | None => p
      end
  end.

(** The [while (expectedBlockNumber <= head)] loop; [fetch round]
    tells what [tryGetBlock] delivers in that round.  The flag tells
    whether the loop was left within [fuel] rounds. *)
Fixpoint whileBehind (fuel round : nat) (fetch : nat -> Z -> option Block)
    (head : Z) (p : Progress) : Progress * bool :=
  if expectedBlockNumber p <=? head then
    match fuel with
    | O => (p, false)
    | S fuel' =>
        let blocksToFetch :=
          Z.to_nat (Z.min maxParallelBlocks (head - expectedBlockNumber p + 1)) in
        let fetchedBlocks :=
          fetchBatch (fetch round) (expectedBlockNumber p) blocksToFetch in
        let p := processFetched blocksToFetch fetchedBlocks p in
        if decide (size fetchedBlocks = 0%nat) then (p, true)
        else whileBehind fuel' (S round) fetch head p
    end
  else (p, true).

(** One run of [readBlocksLoop()], up to the timer that schedules the
    next one; a failure of [getBlockNumber] is emitted as an error. *)
Definition readBlocksLoop (fuel : nat) (head : Multinode.Call Z)
    (fetch : nat -> Z -> option Block) (st : State) (expected : Z)
    : Progress * bool * list string :=
  match head with
  | Multinode.Throw message => (mkProgress st expected [] [], true, [message])
  | Multinode.Ok head =>
      let expected := if head <? expected then head else expected in
      let '(p, finished) :=
        whileBehind fuel 0 fetch head (mkProgress st expected [] []) in
      (p, finished, [])
  end.

End BlockReader.

(** ** Multicall bundler ([multicall/multicall-viem]) *)

Module Multicall.

Record MulticallData : Type := mkCall {
  target : string;
  callData : string
}.

Record SubResult : Type := mkSub {
  success : bool;
  returnData : string
}.

(** The chain as seen through the aggregator contract and the ABI
    decoder of [viem]: [tryAggregate] answers a non-empty batch with the
    decoded list of sub-results, or the call raises ([None]); each
    decoder returns [None] when [decodeAbiParameters] raises. *)
Record Chain : Type := mkChain {
  tryAggregate : list MulticallData -> option (list SubResult);
  decodeString : string -> option string;
  decodeUint8 : string -> option Z;
  decodeAddress : string -> option string
}.

(** [multicall(client, multicallAddress, calldata)]: an empty batch is
    answered without any request. *)
Definition multicall (chain : Chain) (calldata : list MulticallData)
    : option (list SubResult) :=
  match calldata with
  | [] => Some []
  | _ => tryAggregate chain calldata
  end.

End Multicall.

(** ** Token cache and token resolver ([tracer/token-cache],
       [tracer/token-resolver]) *)

Module TokenResolver.
Import Multicall.

Record TokenMetadata : Type := mkToken {
  symbol : string;
  decimals : Z
}.

(** The [tokens] table: primary key [address], lower-cased. *)
Definition getToken (cache : gmap string TokenMetadata) (address : string)
    : option TokenMetadata :=
  cache !! Js.toLowerCase address.

(** [getTokens(addresses)]: an object keyed by lower-cased address. *)
Definition getTokens (cache : gmap string TokenMetadata) (addresses : list string)
    : Ordered.record TokenMetadata :=
  fold_left (fun result address =>
               match getToken cache address with
               | Some token => Ordered.set (Js.toLowerCase address) token result
               | None => result
               end)
            addresses [].

(** [INSERT OR IGNORE INTO tokens]. *)
Definition addToken (cache : gmap string TokenMetadata)
    (address sym : string) (dec : Z) : gmap string TokenMetadata :=
  match cache !! Js.toLowerCase address with
  | Some _ => cache
  | None => <[ Js.toLowerCase address := mkToken sym dec ]> cache
  end.

Definition symbolSelector : string := "0x95d89b41".
Definition decimalsSelector : string := "0x313ce567".

(** One iteration of the result loop of [fetchTokensFromNetwork]. *)
Definition decodeToken (chain : Chain)
    (symbolResult decimalsResult : option SubResult) : option TokenMetadata :=
  match symbolResult with
  | Some sr =>
      if negb (success sr) then None else
      match decimalsResult with
      | Some dr =>
          if negb (success dr) then None else
          match decodeString chain (returnData sr) with
          | Some sym =>
              match decodeUint8 chain (returnData dr) with
              | Some decimalsValue =>
                  let symbolTrimmed := Js.trim sym in
                  if Js.truthy symbolTrimmed
                     && (0 <? String.length symbolTrimmed)%nat
                     && (0 <? decimalsValue)
                  then Some (mkToken symbolTrimmed decimalsValue)
                  else None
              | None => None
              end
          | None => None
          end
      | None => None
      end
  | None => None
  end.

Fixpoint fetchLoop (chain : Chain) (i : nat) (addresses : list string)
    (symbolResults decimalsResults : list SubResult)
    (result : Ordered.record TokenMetadata) : Ordered.record TokenMetadata :=
  match addresses with
  | [] => result
  | address :: rest =>
      let result :=
        match decodeToken chain (symbolResults !! i) (decimalsResults !! i) with
        | Some token => Ordered.set address token result
        | None => result
        end in
      fetchLoop chain (S i) rest symbolResults decimalsResults result
  end.

(** [fetchTokensFromNetwork(addresses)]: a failed batch yields the empty
    object. *)
Definition fetchTokensFromNetwork (chain : Chain) (addresses : list string)
    : Ordered.record TokenMetadata :=
  match addresses with
  | [] => []
  | _ =>
      match multicall chain (List.map (fun a => mkCall a symbolSelector) addresses),
            multicall chain (List.map (fun a => mkCall a decimalsSelector) addresses) with
      | Some symbolResults, Some decimalsResults =>
          fetchLoop chain 0 addresses symbolResults decimalsResults []
      | _, _ => []
      end
  end.

(** The two loops of [resolveWithNetwork] store in [result] a view of
    the metadata record: the source keeps the symbol; keeping the whole
    record gives the instrumented variant used to speak about the
    decimals of a returned entry. *)
Section Loops.
Context {V : Type} (view : TokenMetadata -> V).

(** First loop: cache hits go to [result], misses to [toFetch]. *)
Fixpoint splitCached (cachedTokens : Ordered.record TokenMetadata)
    (addresses : list string)
    (result : Ordered.record V) (toFetch : list string)
    : Ordered.record V * list string :=
  match addresses with
  | [] => (result, toFetch)
  | address :: rest =>
      let lowerAddress := Js.toLowerCase address in
      match Ordered.get lowerAddress cachedTokens with
      | Some token =>
          splitCached cachedTokens rest
            (Ordered.set lowerAddress (view token) result) toFetch
      | None =>
          splitCached cachedTokens rest result (toFetch ++ [address])
      end
  end.

(** Second loop: accepted tokens are added to [result] and to the
    cache. *)
Fixpoint addFetched (fetched : Ordered.record TokenMetadata)
    (toFetch : list string)
    (cache : gmap string TokenMetadata) (result : Ordered.record V)
    : gmap string TokenMetadata * Ordered.record V :=
  match toFetch with
  | [] => (cache, result)
  | address :: rest =>
      match Ordered.get address fetched with
      | Some tokenData =>
          if Js.truthy (symbol tokenData) && (0 <? decimals tokenData)
          then addFetched fetched rest
                 (addToken cache address (symbol tokenData) (decimals tokenData))
                 (Ordered.set (Js.toLowerCase address) (view tokenData) result)
          else addFetched fetched rest cache result
      | None => addFetched fetched rest cache result
      end
  end.

End Loops.

Section BaseTokens.
(** The configured base-token symbols ([system/base-tokens]). *)
Variable baseTokens : list string.

(** [baseTokens.includes(symbol)]. *)
Definition isBase (sym : string) : bool := Ordered.has sym baseTokens.

Section Sorting.
Context {V : Type} (symOf : V -> string).

Definition sortPass (keep : string -> bool)
    (tokens sorted : Ordered.record V) : Ordered.record V :=
  fold_left (fun sorted kv =>
               if keep (symOf (snd kv))
               then Ordered.set (fst kv) (snd kv) sorted else sorted)
            tokens sorted.

(** [sortTokens(tokens)]: two passes over [Object.keys(tokens)],
    first the tokens outside the base set, then the base tokens. *)
Definition sortBy (tokens : Ordered.record V) : Ordered.record V :=
  sortPass isBase tokens (sortPass (fun s => negb (isBase s)) tokens []).

Context (view : TokenMetadata -> V).

Definition resolveWith (chain : Chain)
    (cache : gmap string TokenMetadata) (addresses : list string)
    : gmap string TokenMetadata * Ordered.record V :=
  match addresses with
  | [] => (cache, [])
  | _ =>
      let cachedTokens := getTokens cache addresses in
      let '(result, toFetch) := splitCached view cachedTokens addresses [] [] in
      let '(cache, result) :=
        match toFetch with
        | [] => (cache, result)
        | _ =>
            addFetched view (fetchTokensFromNetwork chain toFetch)
              toFetch cache result
        end in
      (cache, sortBy result)
  end.

End Sorting.

(** [sortTokens] on the [address => symbol] map. *)
Definition sortTokens : Ordered.record string -> Ordered.record string :=
  sortBy (fun sym => sym).

(** [resolveWithNetwork(addresses)]: the cache after the call and the
    returned [address => symbol] map. *)
Definition resolveWithNetwork
    : Chain -> gmap string TokenMetadata -> list string ->
      gmap string TokenMetadata * Ordered.record string :=
  resolveWith (fun sym => sym) symbol.

(** The same run, each entry carrying the record it was resolved
    from. *)
Definition resolveDetailed
    : Chain -> gmap string TokenMetadata -> list string ->
      gmap string TokenMetadata * Ordered.record TokenMetadata :=
  resolveWith symbol (fun token => token).

End BaseTokens.

Definition twoDigits (n : Z) : string :=
  if n <? 10 then "0" +:+ pretty n else pretty n.

(** The decimal notation of [toFixed(2)] for the non-negative fraction
    [num / den]: the nearest hundredth, the larger one on a tie. *)
Definition toFixed2 (num den : Z) : string :=
  let n := (200 * num + den) / (2 * den) in
  pretty (n / 100) +:+ "." +:+ twoDigits (n mod 100).

(** [x.toFixed(2)]: the decimal notation below [1e21], [String(x)]
    from there on. *)
Definition toFixed (x : Double.Value) : string :=
  if 10 ^ 21 * Double.den x <=? Double.num x
  then Double.toExponent (Double.num x / Double.den x)
  else toFixed2 (Double.num x) (Double.den x).

(** [Number(integerPart) + Number(fractionalPart) / 10 ** decimals],
    each step rounded to a double. *)
Definition scaled (integerPart fractionalPart : Z) (power : Double.Value)
    : option Double.Value :=
  a ← Double.ofZ integerPart;
  b ← Double.ofZ fractionalPart;
  c ← Double.div b power;
  Double.add a c.

(** [_decodeTransferAmount(data, decimals)].  Whatever is raised inside
    is caught and gives [null]: calldata that is not hexadecimal, a
    power of ten that [BigInt] refuses because it is a fraction or
    [Infinity], a division by [0n]. *)
Definition _decodeTransferAmount (data : string) (dec : Z) : option string :=
  if Js.startsWith AddressExtractor.transferSelector data
     && (138 <=? String.length data)%nat
  then
    match Hex.toZ (Js.slice 74 138 data) with
    | Some value =>
        power ← Double.pow10 dec;
        divisor ← Double.toBigInt power;
        if divisor =? 0 then None else
        let integerPart := value / divisor in
        let fractionalPart := value mod divisor in
        toFixed <$> scaled integerPart fractionalPart power
    | None => None
    end
  else None.

Definition decodeTransferAmount (cache : gmap string TokenMetadata)
    (data tokenAddress : string) : option string :=
  match getToken cache tokenAddress with
  | Some tokenData => _decodeTransferAmount data (decimals tokenData)
  | None => None
  end.

Definition token0Selector : string := "0x0dfe1681".
Definition token1Selector : string := "0xd21220a7".

(** [extractAddressesFromPairs(addresses)]. *)
Definition extractAddressesFromPairs (chain : Chain) (addresses : list string)
    : list string :=
  match addresses with
  | [] => []
  | _ =>
      let calldata :=
        flat_map (fun a => [mkCall a token0Selector; mkCall a token1Selector])
                 addresses in
      match multicall chain calldata with
      | Some results =>
          fold_left (fun tokens r =>
                       if success r then
                         match decodeAddress chain (returnData r) with
                         | Some tokenAddress =>
                             let normalizedAddress := Js.toLowerCase tokenAddress in
                             if Ordered.has normalizedAddress tokens then tokens
                             else tokens ++ [normalizedAddress]
                         | None => tokens
                         end
                       else tokens)
                    results []
      | None => []
      end
  end.

End TokenResolver.

(** ** Trace decoder ([tracer/types], [tracer/optimized-tracer]) *)

Module Tracer.
Import TokenResolver.

Record BalanceData : Type := mkBalance {
  balanceText : string;
  changeMark : string
}.

Record TransactionData : Type := mkTx {
  hash : string;
  blockNumber : option Z;
  to : option string;
  from : string;
  data : string;
  value : Z
}.

Record TracerResult : Type := mkTrace {
  status : option bool;
  interact : Ordered.record string;
  logs : option nat;
  traceBlock : option Z;          (* [None] is the literal ['mempool'] *)
  contractAddress : option string;
  pnl : string;
  bal : string;
  chn : string;
  amount : option string
}.

Section Decoder.
Variable baseTokens : list string.
Variable chain : Multicall.Chain.
(** [getCurrentBalance]: the balance line for an address, as
    formatted from the node's answer. *)
Variable getCurrentBalance : string -> BalanceData.

(** [decodeFast(tx, watchAddress)] on a given token cache.  Every
    helper it calls catches its own errors, so the fallback of the outer
    [catch] is not reached. *)
Definition decodeFast (cache : gmap string TokenMetadata)
    (tx : TransactionData) (watchAddress : string)
    : gmap string TokenMetadata * TracerResult :=
  let extracted := AddressExtractor.extractAddressesFromCalldata (data tx) in
  let addresses :=
    match to tx with
    | Some t =>
        if Js.truthy t && Viem.isAddress t then
          match Viem.getAddress t with
          | Some a => extracted ++ [Js.toLowerCase a]
          | None => extracted
          end
        else extracted
    | None => extracted
    end in
  let tokensFromPairs := extractAddressesFromPairs chain addresses in
  let uniqueAddresses := Ordered.uniq (addresses ++ tokensFromPairs) in
  let balanceData := getCurrentBalance watchAddress in
  let '(cache, tokens) := resolveWithNetwork baseTokens chain cache uniqueAddresses in
  let amount :=
    match Ordered.keys tokens with
    | [tokenAddress] =>
        if Js.startsWith AddressExtractor.transferSelector (data tx)
        then decodeTransferAmount cache (data tx) tokenAddress
        else None
    | _ => None
    end in
  (cache,
   mkTrace None tokens None
     (match blockNumber tx with
      | Some n => if n =? 0 then None else Some n
      | None => None
      end)
     None "0.0" (balanceText balanceData) (changeMark balanceData) amount).

End Decoder.

End Tracer.

(** ** Message builder ([message/message-builder]) *)

Module MessageBuilder.
Import Tracer.

(** The direction part of the icon; the glyphs themselves are
    presentation. *)
Inductive Direction : Type :=
| ArrowIn          (* watched address is [tx.to] *)
| ArrowOut
| TransferOut      (* single-token transfer sent by the watched address *)
| TransferIn
| Sell
| Buy.

(** [checkStatus(status)]. *)
Inductive StatusGlyph : Type :=
| NoGlyph
| CheckMark
| CrossMark.

Definition checkStatus (st : option bool) : StatusGlyph :=
  match st with
  | None => NoGlyph
  | Some true => CheckMark
  | Some false => CrossMark
  end.

Record MessageParams : Type := mkParams {
  icon : StatusGlyph * Direction;
  paramFrom : string;
  paramTo : string;
  tokenForButton : option string;
  isContractAddress : bool
}.

Section Builder.
Variable baseTokens : list string.

(** The loop over the first ten interacted tokens, as far as it
    chooses the token of the inline buttons. *)
Definition buttonToken (interact : Ordered.record string) : option string :=
  fold_left (fun acc kv =>
               if negb (TokenResolver.isBase baseTokens (snd kv))
               then Some (fst kv) else acc)
            (firstn 10 interact) None.

(** [prepareMessageParams(address, tx, decoded, selector)]; the HTML
    of the interaction line is left out. *)
Definition prepareMessageParams (address : string) (tx : TransactionData)
    (decoded : TracerResult) (selector : string) : MessageParams :=
  let tokens := Ordered.keys (interact decoded) in
  let icon0 :=
    if decide (Some address = to tx) then ArrowIn else ArrowOut in
  let from_ := from tx in
  let to_ := default address (to tx) in
  let icon1 :=
    if (List.length tokens =? 1)%nat
       && String.eqb selector AddressExtractor.transferSelector
    then (if String.eqb address from_ then TransferOut else TransferIn)
    else icon0 in
  let icon2 :=
    if (1 <? List.length tokens)%nat then
      let byValue := if value tx =? 0 then Sell else Buy in
      match status decoded with
      | Some false => Buy
      | _ => byValue
      end
    else icon1 in
  let isContract :=
    match contractAddress decoded with
    | Some c => Js.truthy c && String.eqb to_ c
    | None => false
    end in
  mkParams (checkStatus (status decoded), icon2) from_ to_
    (buttonToken (interact decoded)) isContract.

End Builder.

End MessageBuilder.

(** ** Delivery queue ([telegram/telegram-queue]) *)

Module TelegramQueue.

(** A chat id is a number or, when the raw id is not numeric, the raw
    string. *)
Inductive ChatId : Type :=
| ChatNumber (n : Z)
| ChatName (s : string).

(** What [api.sendMessage] / [api.editMessageText] can raise. *)
Inductive ApiError : Type :=
| GrammyError (error_code : Z) (description : string) (retry_after : option Z)
| OtherError (message : string).

Record ErrorAction : Type := mkAction {
  removeMessage : bool;
  removeUser : bool;
  retrySending : bool;
  retryAfter : Z
}.

(** [handleError(error, chatId)]; logging left out. *)
Definition handleError (error : ApiError) : ErrorAction :=
  match error with
  | OtherError _ => mkAction true false false 1
  | GrammyError errorCode description retry_after =>
      if errorCode =? 429 then
        (* [error.parameters?.retry_after || 1] *)
        let after :=
          match retry_after with
          | Some k => if k =? 0 then 1 else k
          | None => 1
          end in
        mkAction false false true after
      else if Js.includes "bot was blocked by the user" description
              || Js.includes "chat not found" description
              || Js.includes "bot was kicked" description
              || Js.includes "user is deactivated" description
      then mkAction true true false 1
      else if Js.includes "message text is invalid" description
              || Js.includes "message to edit not found" description
      then mkAction true false false 1
      else mkAction true false false 1
  end.

Record SendQueueItem : Type := mkSendItem {
  chatId : ChatId;
  text : string;
  buttons : option string;
  messageId : string            (* internal id of the pending promise *)
}.

(** Answer of the remote service to one [api.sendMessage]. *)
Inductive ApiReply : Type :=
| Delivered (message_id : Z)
| Failed (error : ApiError).

(** What the worker and the enqueue path do, in order. *)
Inductive Effect : Type :=
| CallSendMessage (item : SendQueueItem)
| Resolve (item : SendQueueItem) (message_id : Z)
| Reject (item : SendQueueItem) (error : ApiError)
| Sleep (ms : Z).

(** The send side of the queue.  While [isProcessingSendQueue] holds
    and the queue is not empty, the worker is waiting for the answer to
    the request it made for the head item. *)
Record State : Type := mkState {
  sendQueue : list SendQueueItem;
  isProcessingSendQueue : bool;
  pendingSendMessages : list string
}.

Definition initial : State := mkState [] false [].

Inductive Input : Type :=
| Submit (item : SendQueueItem)        (* [enqueueSendMessage], text within limits *)
| Answer (reply : ApiReply).          (* the awaited [api.sendMessage] settles *)

Definition removePending (id : string) (pending : list string) : list string :=
  List.filter (fun p => negb (String.eqb id p)) pending.

(** The worker comes back to the loop test [sendQueue.length > 0]:
    it requests the new head, or leaves the loop. *)
Definition continueLoop (queue : list SendQueueItem) (pending : list string)
    : State * list Effect :=
  match queue with
  | [] => (mkState [] false pending, [])
  | next :: _ => (mkState queue true pending, [CallSendMessage next])
  end.

(** One transition of the send queue, taken up to the next request of
    the worker: the pause that follows an answer ([sleep(200)] after a
    delivery, [sleep(retryAfter * 1000)] after a rate limit) is part of
    the transition, so that the states of [step] are those in which the
    worker waits for an answer or has left the loop.  The machine
    [advance] below takes the same worker one [await] at a time. *)
Definition step (st : State) (input : Input) : State * list Effect :=
  match input with
  | Submit item =>
      let queue := sendQueue st ++ [item] in
      let pending := pendingSendMessages st ++ [messageId item] in
      if isProcessingSendQueue st
      then (mkState queue true pending, [])
      else continueLoop queue pending
  | Answer reply =>
      match isProcessingSendQueue st, sendQueue st with
      | true, item :: rest =>
          match reply with
          | Delivered message_id =>
              let '(st', effects) :=
                continueLoop rest (removePending (messageId item) (pendingSendMessages st)) in
              (st', [Resolve item message_id; Sleep 200] ++ effects)
          | Failed err =>
              let action := handleError err in
              if retrySending action then
                let '(st', effects) :=
                  continueLoop (sendQueue st) (pendingSendMessages st) in
                (st', [Sleep (retryAfter action * 1000)] ++ effects)
              else if removeMessage action then
                let '(st', effects) :=
                  continueLoop rest (removePending (messageId item) (pendingSendMessages st)) in
                (st', [Reject item err] ++ effects)
              else continueLoop (sendQueue st) (pendingSendMessages st)
          end
      | _, _ => (st, [])       (* no request is in flight *)
      end
  end.

Fixpoint run (st : State) (inputs : list Input) : State * list Effect :=
  match inputs with
  | [] => (st, [])
  | i :: rest =>
      let '(st1, e1) := step st i in
      let '(st2, e2) := run st1 rest in
      (st2, e1 ++ e2)
  end.

(** *** The worker, one [await] at a time *)

(** Where [processSendQueue] stands: not running, at
    [await this.api.sendMessage(...)], or at [await sleep(...)]. *)
Inductive Worker : Type :=
| Stopped
| AwaitingApi
| Sleeping.

Record Detailed : Type := mkDetailed {
  queued : list SendQueueItem;          (* [sendQueue] *)
  processing : bool;                    (* [isProcessingSendQueue] *)
  pendingIds : list string;             (* keys of [pendingSendMessages] *)
  worker : Worker
}.

Definition start : Detailed := mkDetailed [] false [] Stopped.

Inductive Event : Type :=
| Enqueue (item : SendQueueItem)       (* [enqueueSendMessage], text within limits *)
| Settle (reply : ApiReply)            (* the awaited [api.sendMessage] settles *)
| Wake.                                (* the awaited [sleep] is over *)

(** The loop test [this.sendQueue.length > 0]: the worker requests the
    head item, or leaves the loop and clears the flag. *)
Definition loopTest (queue : list SendQueueItem) (pending : list string)
    : Detailed * list Effect :=
  match queue with
  | [] => (mkDetailed [] false pending Stopped, [])
  | next :: _ => (mkDetailed queue true pending AwaitingApi, [CallSendMessage next])
  end.

(** [enqueueSendMessage] and the three continuations of
    [processSendQueue]. *)
Definition advance (st : Detailed) (event : Event) : Detailed * list Effect :=
  match event with
  | Enqueue item =>
      let queue := queued st ++ [item] in
      let pending := pendingIds st ++ [messageId item] in
      if processing st
      then (mkDetailed queue true pending (worker st), [])
      else loopTest queue pending
  | Settle reply =>
      match worker st, queued st with
      | AwaitingApi, item :: rest =>
          match reply with
          | Delivered message_id =>
              (mkDetailed rest (processing st)
                 (removePending (messageId item) (pendingIds st)) Sleeping,
               [Resolve item message_id; Sleep 200])
          | Failed err =>
              let action := handleError err in
              if retrySending action then
                (mkDetailed (queued st) (processing st) (pendingIds st) Sleeping,
                 [Sleep (retryAfter action * 1000)])
              else if removeMessage action then
                let '(st', effects) :=
                  loopTest rest (removePending (messageId item) (pendingIds st)) in
                (st', [Reject item err] ++ effects)
              else loopTest (queued st) (pendingIds st)
          end
      | _, _ => (st, [])       (* no request is in flight *)
      end
  | Wake =>
      match worker st with
      | Sleeping => loopTest (queued st) (pendingIds st)
      | _ => (st, [])          (* no pause is running *)
      end
  end.

Fixpoint advanceAll (st : Detailed) (events : list Event) : Detailed * list Effect :=
  match events with
  | [] => (st, [])
  | event :: rest =>
      let '(st1, e1) := advance st event in
      let '(st2, e2) := advanceAll st1 rest in
      (st2, e1 ++ e2)
  end.

(** Pre-flight check of [enqueueSendMessage]. *)
Definition tooLong (text : string) : bool := (4096 <? Js.length text)%nat.

End TelegramQueue.

(** ** Watchlist store ([database/sql-client]) *)

Module Sql.

Record WatchlistEntry : Type := mkEntry {
  name : string;
  tx_in : bool;
  tx_out : bool
}.

(** A row of [SELECT address, name, chat_id, bot_id FROM watchlist
    WHERE blocked = 0]. *)
Record WatchlistRow : Type := mkRow {
  row_address : string;
  row_name : string;
  row_chat_id : Z;
  row_bot_id : string
}.

Definition userKey (chat_id : Z) (bot_id : string) : string :=
  pretty chat_id +:+ "@" +:+ bot_id.

(** [updateWatchlist()]: the map that replaces [this.watchlist]. *)
Definition updateWatchlist (rows : list WatchlistRow)
    : gmap string (Ordered.record WatchlistEntry) :=
  fold_left (fun newWatchlist row =>
               let address := Js.toLowerCase (row_address row) in
               let users := default [] (newWatchlist !! address) in
               let userId := userKey (row_chat_id row) (row_bot_id row) in
               <[ address :=
                    Ordered.set userId (mkEntry (row_name row) false true) users ]>
                 newWatchlist)
            rows ∅.

End Sql.

(** ** Transaction processor ([services/transaction-processor]) *)

Module TransactionProcessor.
Import Tracer Sql.
Export Multinode(Call, Ok, Throw).

Definition SENT_LIMIT : nat := 10000.

Record Message : Type := mkMessage {
  msgText : string;
  msgButtons : option string
}.

(** How a queue settles the promise of [sendMessage] / [editMessage]. *)
Inductive Settled (A : Type) : Type :=
| Fulfilled (v : A)
| Rejected (reason : string).
Arguments Fulfilled {A} v.
Arguments Rejected {A} reason.

(** The collaborators handed to the constructor, and the services they
    reach.  The queues answer the [n]-th request made through them. *)
Record Collaborators : Type := mkCollaborators {
  watchlist : gmap string (Ordered.record WatchlistEntry);   (* [sql.watchlist] *)
  bots : gset string;
  resolveSelector : string -> Call string;
  decodeFast : TransactionData -> string -> TracerResult;
  decodeFull : TransactionData -> string -> TracerResult;
  build : string -> TransactionData -> TracerResult -> string -> Call Message;
  sendAnswer : nat -> Settled Z;
  editAnswer : nat -> Settled bool
}.

(** Requests made to the delivery queues. *)
Inductive Effect : Type :=
| SendMessage (watcherId botId : string) (chat : TelegramQueue.ChatId)
              (text : string) (buttons : option string)
| EditMessage (watcherId botId : string) (chat : TelegramQueue.ChatId)
              (msgId : Z) (text : string) (buttons : option string).

(** The mutable part: the dedup set, and how many requests each queue
    class has received. *)
Record State : Type := mkState {
  sent : list string;
  sendCount : nat;
  editCount : nat
}.

Definition initial : State := mkState [] 0 0.

Definition dedupKey (address txHash : string) : string :=
  address +:+ ":" +:+ txHash.

(** [alreadySent(address, hash)]: the answer and the set afterwards. *)
Definition alreadySent (sentSet : list string) (address txHash : string)
    : bool * list string :=
  let key := dedupKey address txHash in
  if Ordered.has key sentSet then (true, sentSet)
  else
    let sentSet := sentSet ++ [key] in
    if (SENT_LIMIT <? List.length sentSet)%nat then
      match sentSet with
      | first :: rest => (false, if Js.truthy first then rest else sentSet)
      | [] => (false, sentSet)
      end
    else (false, sentSet).

(** [id.split("@")]: raw chat id and bot id; [botId in this.bots]
    turns a missing bot id into the key ["undefined"]. *)
Definition splitId (id : string) : string * string :=
  let '(chatIdRaw, botId) := Js.split2 "@" id in
  (chatIdRaw, default "undefined" botId).

Definition chatIdOf (chatIdRaw : string) : TelegramQueue.ChatId :=
  match Js.toNumber chatIdRaw with
  | Some n => TelegramQueue.ChatNumber n
  | None => TelegramQueue.ChatName chatIdRaw
  end.

Section Processor.
Variable c : Collaborators.

(** [getWatchers(address)]. *)
Definition getWatchers (address : string) : Ordered.record WatchlistEntry :=
  let watchers := default [] (watchlist c !! address) in
  fold_left (fun result kv =>
               if decide (snd (splitId (fst kv)) ∈ bots c)
               then Ordered.set (fst kv) (snd kv) result else result)
            watchers [].

(** Direction gate and bot check shared by both loops. *)
Definition passesGate (txOutgoing : bool) (watcher : WatchlistEntry) (botId : string)
    : bool :=
  if negb txOutgoing && negb (tx_in watcher) then false
  else if txOutgoing && negb (tx_out watcher) then false
  else bool_decide (botId ∈ bots c).

(** The loop of [massSend] over [for (const id in watchers)]. *)
Fixpoint massSendLoop (ids : list string)
    (watchers : Ordered.record WatchlistEntry)
    (msg : Message) (txOutgoing : bool)
    (sentMap : Ordered.record Z) (n : nat)
    : nat * list Effect * Call (Ordered.record Z) :=
  match ids with
  | [] => (n, [], Ok sentMap)
  | id :: rest =>
      let '(chatIdRaw, botId) := splitId id in
      match Ordered.get id watchers with
      | None => (n, [], Throw "TypeError: watcher is undefined")
      | Some watcher =>
          if negb (passesGate txOutgoing watcher botId)
          then massSendLoop rest watchers msg txOutgoing sentMap n
          else
            let text := Js.replaceFirst "$$NAME$$" (name watcher) (msgText msg) in
            if TelegramQueue.tooLong text then (n, [], Throw "Message too long")
            else
              let request :=
                SendMessage id botId (chatIdOf chatIdRaw) text (msgButtons msg) in
              match sendAnswer c n with
              | Rejected reason => (S n, [request], Throw reason)
              | Fulfilled messageId =>
                  let sentMap :=
                    if messageId =? 0 then sentMap
                    else Ordered.set id messageId sentMap in
                  let '(n', effects, r) :=
                    massSendLoop rest watchers msg txOutgoing sentMap (S n) in
                  (n', request :: effects, r)
              end
      end
  end.

(** [massSend(watchers, msg, txOutgoing)]. *)
Definition massSend (watchers : Ordered.record WatchlistEntry)
    (msg : Message) (txOutgoing : bool) (n : nat)
    : nat * list Effect * Call (Ordered.record Z) :=
  massSendLoop (Ordered.keys watchers) watchers msg txOutgoing [] n.

(** The loop of [massUpdate] over [for (const id in sentMap)]. *)
Fixpoint massUpdateLoop (ids : list string)
    (watchers : Ordered.record WatchlistEntry)
    (msg : Message) (sentMap : Ordered.record Z) (txOutgoing : bool) (n : nat)
    : nat * list Effect * Call unit :=
  match ids with
  | [] => (n, [], Ok tt)
  | id :: rest =>
      let '(chatIdRaw, botId) := splitId id in
      match Ordered.get id watchers with
      | None => (n, [], Throw "TypeError: watcher is undefined")
      | Some watcher =>
          if negb (passesGate txOutgoing watcher botId)
          then massUpdateLoop rest watchers msg sentMap txOutgoing n
          else
            let text := Js.replaceFirst "$$NAME$$" (name watcher) (msgText msg) in
            if TelegramQueue.tooLong text then (n, [], Throw "Message too long")
            else
              (* [sentMap[id]]; a missing entry would be [undefined] *)
              let request :=
                EditMessage id botId (chatIdOf chatIdRaw)
                  (default 0 (Ordered.get id sentMap)) text (msgButtons msg) in
              match editAnswer c n with
              | Rejected reason => (S n, [request], Throw reason)
              | Fulfilled _ =>
                  let '(n', effects, r) :=
                    massUpdateLoop rest watchers msg sentMap txOutgoing (S n) in
                  (n', request :: effects, r)
              end
      end
  end.

(** [massUpdate(watchers, msg, sentMap, txOutgoing)]. *)
Definition massUpdate (watchers : Ordered.record WatchlistEntry)
    (msg : Message) (sentMap : Ordered.record Z) (txOutgoing : bool) (n : nat)
    : nat * list Effect * Call unit :=
  massUpdateLoop (Ordered.keys sentMap) watchers msg sentMap txOutgoing n.

(** [process(address, tx)]: every exception ends the processing of
    this address, the requests already made stay made. *)
Definition process (st : State) (address : string) (tx : TransactionData)
    : State * list Effect :=
  let '(dup, sentSet) := alreadySent (sent st) address (hash tx) in
  if dup then (st, [])
  else
    let st := mkState sentSet (sendCount st) (editCount st) in
    let watchers := getWatchers address in
    match watchers with
    | [] => (st, [])
    | _ =>
        let selector := Js.slice 0 10 (data tx) in
        match resolveSelector c selector with
        | Throw _ => (st, [])
        | Ok signature =>
            if String.eqb selector "0x" && Viem.etherBelowOneHundredth (value tx)
            then (st, [])
            else
              let fast := decodeFast c tx address in
              let txOutgoing := String.eqb address (from tx) in
              match build c address tx fast signature with
              | Throw _ => (st, [])
              | Ok fastMsg =>
                  let '(n, sends, r) :=
                    massSend watchers fastMsg txOutgoing (sendCount st) in
                  let full := decodeFull c tx address in
                  let st := mkState sentSet n (editCount st) in
                  match r with
                  | Throw _ => (st, sends)
                  | Ok sentMap =>
                      match build c address tx full signature with
                      | Throw _ => (st, sends)
                      | Ok fullMsg =>
                          let '(m, edits, _) :=
                            massUpdate watchers fullMsg sentMap txOutgoing
                              (editCount st) in
                          (mkState sentSet n m, sends ++ edits)
                      end
                  end
              end
        end
    end.

Definition inWatchlist (address : string) : bool :=
  bool_decide (is_Some (watchlist c !! address)).

Definition processIfWatched (acc : State * list Effect)
    (address : string) (tx : TransactionData) : State * list Effect :=
  if inWatchlist address then
    let '(st, effects) := process (fst acc) address tx in
    (st, snd acc ++ effects)
  else acc.

(** [handle(tx)]: the four routing rules, in order. *)
Definition handle (st : State) (tx : TransactionData) : State * list Effect :=
  let acc := processIfWatched (st, []) (from tx) tx in
  let acc :=
    match to tx with
    | Some t => if Js.truthy t then processIfWatched acc t tx else acc
    | None => acc
    end in
  let acc :=
    match AddressExtractor.extractTransferRecipient (data tx) with
    | Some transferTo =>
        if Js.truthy transferTo then processIfWatched acc transferTo tx else acc
    | None => acc
    end in
  fold_left (fun acc address => processIfWatched acc address tx)
            (AddressExtractor.extractAddressesFromCalldata (data tx)) acc.

End Processor.

End TransactionProcessor.

(** ** Address utilities ([telegram/address-utils]) *)

Module AddressUtils.

(** [isValidAddress(address)]: the non-strict test. *)
Definition isValidAddress (address : string) : bool :=
  Viem.isAddressWith false address.

(** [getChecksumAddress(address)]; [None] when [getAddress] throws. *)
Definition getChecksumAddress (address : string) : option string :=
  Viem.getAddress address.

End AddressUtils.

(** ** Selector resolver ([selectors/signature-resolver]) *)

Module SignatureResolver.

(** [resolveSelector(selector)] on the [selectors] table, given what
    the two lookup services answer (each answers the selector itself
    when it knows nothing or fails): the table afterwards and the
    value returned. *)
Definition resolveSelector (table : gmap string string)
    (openchainResult fourByteResult : string) (selector : string)
    : gmap string string * string :=
  match table !! selector with
  | Some cached => (table, cached)
  | None =>
      let signature :=
        if negb (String.eqb openchainResult selector) then Some openchainResult
        else if negb (String.eqb fourByteResult selector) then Some fourByteResult
        else None in
      match signature with
      | Some sig =>
          if Js.truthy sig then
            (* [INSERT OR IGNORE] *)
            (match table !! selector with
             | Some _ => table
             | None => <[ selector := sig ]> table
             end, sig)
          else (table, selector)
      | None => (table, selector)
      end
  end.

(** [shortSignature(signature)]. *)
Definition shortSignature (signature : string) : string :=
  match Js.indexOf "(" signature with
  | None => signature
  | Some parenIndex => Js.slice 0 parenIndex signature +:+ "()"
  end.

End SignatureResolver.

(** * Vocabulary of the properties *)

Module Spec.

(** *** Multi-node client *)

(** An endpoint counts when it returned something other than [null]. *)
Definition answered (o : Multinode.Outcome) : bool :=
  match o with
  | Multinode.Returned v => negb (Multinode.isNull v)
  | Multinode.Raised _ => false
  end.

(** The values of the endpoints that count, in node order. *)
Definition answers (nodes : list Multinode.Outcome) : list Multinode.JsValue :=
  omap (fun o => match o with
                 | Multinode.Returned v =>
                     if Multinode.isNull v then None else Some v
                 | Multinode.Raised _ => None
                 end) nodes.

(** An endpoint that neither raised nor timed out. *)
Definition returned (o : Multinode.Outcome) : bool :=
  match o with
  | Multinode.Returned _ => true
  | Multinode.Raised _ => false
  end.

Definition failed {A} (r : Multinode.Call A) : bool :=
  match r with
  | Multinode.Throw _ => true
  | Multinode.Ok _ => false
  end.

(** *** Address extractor *)

(** Number of whole bytes that follow the [0x] prefix and the 4-byte
    selector in a hex-encoded calldata string. *)
Definition bytesAfterSelector (data : string) : nat :=
  ((String.length data - 10) / 2)%nat.

Definition isByte (b : Z) : Prop := 0 <= b < 256.

(** *** Deduplication *)

(** No value occurs twice in [hs] at positions less than or equal to
    [w] apart. *)
Definition noRepeatWithin (w : nat) (hs : list string) : Prop :=
  forall (i j : nat) (h : string),
    (i < j)%nat -> hs !! i = Some h -> hs !! j = Some h -> (w < j - i)%nat.

(** What the reader keeps true between two transactions: the set is
    the tail of what was emitted, within its cap, and long enough to
    cover the guaranteed part of the window. *)
Definition readerInv (seen out : list string) : Prop :=
  (exists pre, out = pre ++ seen)
  /\ (List.length seen <= BlockReader.TX_WINDOW)%nat
  /\ (Nat.min (List.length out) (BlockReader.TX_WINDOW / 2 + 1) <= List.length seen)%nat
  /\ noRepeatWithin (BlockReader.TX_WINDOW / 2) out.

(** *** Transaction processor *)

(** [process] called for one (watched address, transaction) pair after
    the other. *)
Fixpoint processAll (c : TransactionProcessor.Collaborators)
    (st : TransactionProcessor.State)
    (items : list (string * Tracer.TransactionData))
    : TransactionProcessor.State * list TransactionProcessor.Effect :=
  match items with
  | [] => (st, [])
  | (address, tx) :: rest =>
      let '(st1, e1) := TransactionProcessor.process c st address tx in
      let '(st2, e2) := processAll c st1 rest in
      (st2, e1 ++ e2)
  end.

Definition isSend (e : TransactionProcessor.Effect) : bool :=
  match e with
  | TransactionProcessor.SendMessage _ _ _ _ _ => true
  | TransactionProcessor.EditMessage _ _ _ _ _ _ => false
  end.

(** The subscriber (watcher id [chat@bot]) a request is made for. *)
Definition subscriber (e : TransactionProcessor.Effect) : string :=
  match e with
  | TransactionProcessor.SendMessage id _ _ _ _ => id
  | TransactionProcessor.EditMessage id _ _ _ _ _ => id
  end.

(** The subscriber and the message id a request names; a send names
    no message yet. *)
Definition target (e : TransactionProcessor.Effect) : string * Z :=
  match e with
  | TransactionProcessor.SendMessage id _ _ _ _ => (id, 0)
  | TransactionProcessor.EditMessage id _ _ msgId _ _ => (id, msgId)
  end.

(** The map a batch of sends leaves, the first of them being request
    [n] of the send queue: each subscriber whose send was fulfilled
    with a message id other than [0], with that id, in the order of
    the sends. *)
Fixpoint acknowledged (c : TransactionProcessor.Collaborators) (n : nat)
    (sends : list TransactionProcessor.Effect) : list (string * Z) :=
  match sends with
  | [] => []
  | e :: rest =>
      match TransactionProcessor.sendAnswer c n with
      | TransactionProcessor.Fulfilled messageId =>
          if messageId =? 0 then acknowledged c (S n) rest
          else (subscriber e, messageId) :: acknowledged c (S n) rest
      | TransactionProcessor.Rejected _ => acknowledged c (S n) rest
      end
  end.

(** The queue fulfils the [count] requests made from request [n] on. *)
Definition allFulfilled {A} (answer : nat -> TransactionProcessor.Settled A)
    (n count : nat) : Prop :=
  forall k, (k < count)%nat ->
    exists v, answer (n + k)%nat = TransactionProcessor.Fulfilled v.

(** The messages built for the transaction, from the fast and from the
    full decode, are within the limit of the queue with the name of
    any subscriber of the address. *)
Definition fits (c : TransactionProcessor.Collaborators)
    (address : string) (tx : Tracer.TransactionData) : Prop :=
  forall signature msg id watcher,
    TransactionProcessor.resolveSelector c (Js.slice 0 10 (Tracer.data tx))
    = Multinode.Ok signature ->
    TransactionProcessor.build c address tx
      (TransactionProcessor.decodeFast c tx address) signature = Multinode.Ok msg
    \/ TransactionProcessor.build c address tx
         (TransactionProcessor.decodeFull c tx address) signature = Multinode.Ok msg ->
    Ordered.get id (TransactionProcessor.getWatchers c address) = Some watcher ->
    TelegramQueue.tooLong
      (Js.replaceFirst "$$NAME$$" (Sql.name watcher)
         (TransactionProcessor.msgText msg)) = false.

(** The message of the full decode can be built. *)
Definition fullBuilds (c : TransactionProcessor.Collaborators)
    (address : string) (tx : Tracer.TransactionData) : Prop :=
  forall signature,
    TransactionProcessor.resolveSelector c (Js.slice 0 10 (Tracer.data tx))
    = Multinode.Ok signature ->
    exists msg,
      TransactionProcessor.build c address tx
        (TransactionProcessor.decodeFull c tx address) signature
      = Multinode.Ok msg.

(** A watchlist entry as [updateWatchlist] creates it. *)
Definition silentEntry (kv : string * Sql.WatchlistEntry) : Prop :=
  Sql.tx_in (snd kv) = false /\ Sql.tx_out (snd kv) = true.

(** What the processor keeps true of its dedup set. *)
Definition sentInv (sentSet : list string) : Prop :=
  (List.length sentSet <= TransactionProcessor.SENT_LIMIT)%nat
  /\ Forall (fun k => Js.truthy k = true) sentSet.

(** *** Strings *)

(** A text that begins with a white-space character, of one, two or
    three bytes: what [trimStart] removes first. *)
Definition startsBlank (s : string) : bool :=
  match s with
  | EmptyString => false
  | String b0 r0 =>
      Js.isSpace b0
      || match r0 with
         | EmptyString => false
         | String b1 r1 =>
             Js.isSpace2 b0 b1
             || match r1 with
                | EmptyString => false
                | String b2 _ => Js.isSpace3 b0 b1 b2
                end
         end
  end.

(** *** Token resolver *)

(** A resolved token worth returning: its symbol is not empty, is
    already trimmed, and its decimals are positive. *)
Definition validToken (t : TokenResolver.TokenMetadata) : bool :=
  Js.truthy (TokenResolver.symbol t)
  && String.eqb (Js.trim (TokenResolver.symbol t)) (TokenResolver.symbol t)
  && (0 <? TokenResolver.decimals t).

(** The token table holds valid tokens only. *)
Definition cacheValid (cache : gmap string TokenResolver.TokenMetadata) : Prop :=
  map_Forall (fun _ t => validToken t = true) cache.

Definition validEntry (kv : string * TokenResolver.TokenMetadata) : Prop :=
  validToken (snd kv) = true.

(** The [address => symbol] view of entries that carry the metadata. *)
Definition symbolsOf (r : Ordered.record TokenResolver.TokenMetadata)
    : Ordered.record string :=
  List.map (fun kv => (fst kv, TokenResolver.symbol (snd kv))) r.

(** The token table after a history of lookups, each against the chain
    as it answered then. *)
Fixpoint cacheAfter (baseTokens : list string)
    (cache : gmap string TokenResolver.TokenMetadata)
    (lookups : list (Multicall.Chain * list string))
    : gmap string TokenResolver.TokenMetadata :=
  match lookups with
  | [] => cache
  | (chain, addresses) :: rest =>
      cacheAfter baseTokens
        (fst (TokenResolver.resolveWithNetwork baseTokens chain cache addresses)) rest
  end.

(** All entries whose symbol is outside the base set come first. *)
Definition baseLast (baseTokens : list string) (tokens : Ordered.record string) : Prop :=
  exists others bases,
    tokens = others ++ bases
    /\ Forall (fun kv => TokenResolver.isBase baseTokens (snd kv) = false) others
    /\ Forall (fun kv => TokenResolver.isBase baseTokens (snd kv) = true) bases.

(** The form in which the address scans report an address: 42
    characters, lower case, accepted by the strict [isAddress]. *)
Definition scanned (address : string) : Prop :=
  String.length address = 42%nat
  /\ Js.toLowerCase address = address
  /\ Viem.isAddress address = true.

(** The bot, the chat and the text of a request to a delivery queue. *)
Definition botOf (e : TransactionProcessor.Effect) : string :=
  match e with
  | TransactionProcessor.SendMessage _ botId _ _ _ => botId
  | TransactionProcessor.EditMessage _ botId _ _ _ _ => botId
  end.

Definition chatOf (e : TransactionProcessor.Effect) : TelegramQueue.ChatId :=
  match e with
  | TransactionProcessor.SendMessage _ _ chat _ _ => chat
  | TransactionProcessor.EditMessage _ _ chat _ _ _ => chat
  end.

Definition textOf (e : TransactionProcessor.Effect) : string :=
  match e with
  | TransactionProcessor.SendMessage _ _ _ text _ => text
  | TransactionProcessor.EditMessage _ _ _ _ text _ => text
  end.

(** A request is well addressed when it goes through a configured
    bot, bot and chat are the two parts of the subscriber key, and the
    text is within the limit of the queue, 4096 UTF-16 code units. *)
Definition wellAddressed (bots : gset string) (e : TransactionProcessor.Effect)
    : Prop :=
  botOf e ∈ bots
  /\ botOf e = snd (TransactionProcessor.splitId (subscriber e))
  /\ chatOf e
     = TransactionProcessor.chatIdOf (fst (TransactionProcessor.splitId (subscriber e)))
  /\ (Js.length (textOf e) <= 4096)%nat.

(** *** Block reader: blocks *)

(** The block numbers announced by [new_block] events, in order. *)
Definition emittedBlocks (events : list BlockReader.Event) : list Z :=
  omap (fun e => match e with
                 | BlockReader.new_block n _ => Some n
                 | _ => None
                 end) events.

(** The numbers of the blocks handed to the reader. *)
Definition blockNumbers (blocks : list BlockReader.Block) : list Z :=
  omap BlockReader.number blocks.

(** How many of the answers to [getBlock] were exceptions. *)
Definition raisedCount (answers : list BlockReader.GetBlock) : nat :=
  List.length (List.filter (fun a => match a with
                                     | BlockReader.GetBlockRaised => true
                                     | _ => false
                                     end) answers).

(** *** Delivery queue *)

(** The items whose promise was settled (resolved or rejected), in
    order. *)
Definition settled (effects : list TelegramQueue.Effect)
    : list TelegramQueue.SendQueueItem :=
  omap (fun e => match e with
                 | TelegramQueue.Resolve item _ => Some item
                 | TelegramQueue.Reject item _ => Some item
                 | _ => None
                 end) effects.

(** The items handed to [sendMessage], in order. *)
Definition submitted (inputs : list TelegramQueue.Input)
    : list TelegramQueue.SendQueueItem :=
  omap (fun i => match i with
                 | TelegramQueue.Submit item => Some item
                 | TelegramQueue.Answer _ => None
                 end) inputs.

(** The items handed to [sendMessage], in order, in a run of the
    worker taken one [await] at a time. *)
Definition enqueued (events : list TelegramQueue.Event)
    : list TelegramQueue.SendQueueItem :=
  omap (fun e => match e with
                 | TelegramQueue.Enqueue item => Some item
                 | _ => None
                 end) events.

(** The fields of the queue, without the place of the worker. *)
Definition observe (d : TelegramQueue.Detailed) : TelegramQueue.State :=
  TelegramQueue.mkState (TelegramQueue.queued d) (TelegramQueue.processing d)
    (TelegramQueue.pendingIds d).

(** A state in which the worker is not pausing: it waits for an answer
    when the flag is set and has stopped otherwise. *)
Definition detail (st : TelegramQueue.State) : TelegramQueue.Detailed :=
  TelegramQueue.mkDetailed (TelegramQueue.sendQueue st)
    (TelegramQueue.isProcessingSendQueue st)
    (TelegramQueue.pendingSendMessages st)
    (if TelegramQueue.isProcessingSendQueue st
     then TelegramQueue.AwaitingApi else TelegramQueue.Stopped).

(** An input of [step] as events of [advance]: an answer is followed by
    the end of the pause it may have started. *)
Definition expand (input : TelegramQueue.Input) : list TelegramQueue.Event :=
  match input with
  | TelegramQueue.Submit item => [TelegramQueue.Enqueue item]
  | TelegramQueue.Answer reply => [TelegramQueue.Settle reply; TelegramQueue.Wake]
  end.

(** The worker flag is set exactly while the worker runs, the worker
    stops on an empty queue only, and it awaits an answer for the head
    of a queue that is not empty. *)
Definition workerInv (d : TelegramQueue.Detailed) : Prop :=
  (TelegramQueue.processing d = true <-> TelegramQueue.worker d <> TelegramQueue.Stopped)
  /\ (TelegramQueue.worker d = TelegramQueue.Stopped -> TelegramQueue.queued d = [])
  /\ (TelegramQueue.worker d = TelegramQueue.AwaitingApi -> TelegramQueue.queued d <> []).

(** A rate-limit error of the Bot API. *)
Definition rateLimited (error : TelegramQueue.ApiError) : bool :=
  match error with
  | TelegramQueue.GrammyError code _ _ => code =? 429
  | TelegramQueue.OtherError _ => false
  end.

End Spec.

(** * A concrete deployment, used to run the scenarios *)

Module Scenario.
Import Multicall TokenResolver Tracer Sql TransactionProcessor.

(** The watched address W, the token contract and the sender. *)
Definition watched : string := "0x5aaeb6053f3e94c9b9a09f33669435e7ef1beaed".
Definition token : string := "0xdac17f958d2ee523a2206206994597c13d831ec7".
Definition sender : string := "0xfb6916095ca1df60bb79ce92ce3ea74c37c5d359".

(** [transfer(W, 100 * 10^18)]. *)
Definition transferData : string :=
  "0xa9059cbb" +:+ "000000000000000000000000" +:+ Js.sliceFrom 2 watched
    +:+ Hex.word256 (100 * 10 ^ 18).

Definition txHash : string :=
  "0x06cef431a17feaec1edb00e1705fe93187851ce3fafc7ee01571ee79a8ce6d2f".

(** The transfer, sent by [sender] to the token contract. *)
Definition transferTx : TransactionData :=
  mkTx txHash (Some 19000000) (Some token) sender transferData 0.

(** The same call made by the watched address itself. *)
Definition outgoingTx : TransactionData :=
  mkTx txHash (Some 19000000) (Some token) watched transferData 0.

Definition baseTokens : list string := ["WETH"; "USDT"; "USDC"].

(** A chain on which only [token] is an ERC20 contract: symbol
    [" TKN "] (blanks included), 18 decimals; nothing is a pair. *)
Definition chain : Chain :=
  mkChain
    (fun calls =>
       Some (List.map (fun call =>
                         if String.eqb (target call) token then
                           if String.eqb (callData call) symbolSelector
                           then mkSub true "string: TKN "
                           else if String.eqb (callData call) decimalsSelector
                                then mkSub true "uint8:18"
                                else mkSub false "0x"
                         else mkSub true "0x")
                      calls))
    (fun r => if String.prefix "string:" r then Some (Js.sliceFrom 7 r) else None)
    (fun r => if String.eqb r "uint8:18" then Some 18 else None)
    (fun _ => None).

Definition balance (_ : string) : BalanceData := mkBalance "1.5" " ".

(** Two subscribers of W, one of another address. *)
Definition rows : list WatchlistRow :=
  [ mkRow "0x5aAeb6053F3E94C9b9A09f33669435E7Ef1BeAed" "whale" 1001 "eth_spybot";
    mkRow "0x5aAeb6053F3E94C9b9A09f33669435E7Ef1BeAed" "w1" 1002 "eth_spybot";
    mkRow "0x00000000219ab540356cbb839cbe05303d7705fa" "deposit" 1001 "eth_spybot" ].

Definition render (address : string) (tx : TransactionData)
    (trace : TracerResult) (signature : string) : Call Message :=
  Ok (mkMessage
        ("$$NAME$$ " +:+ signature +:+ " " +:+ default "" (amount trace))
        None).

(** Queues that accept every request; the [n]-th send gets message id
    [500 + n]. *)
Definition deployment : Collaborators :=
  mkCollaborators
    (updateWatchlist rows)
    {[ "eth_spybot" ]}
    (fun _ => Ok "transfer(address,uint256)")
    (fun tx address => snd (Tracer.decodeFast baseTokens chain balance ∅ tx address))
    (fun tx address => snd (Tracer.decodeFast baseTokens chain balance ∅ tx address))
    render
    (fun n => Fulfilled (500 + Z.of_nat n))
    (fun _ => Fulfilled true).

(** The same deployment when the queue rejects the second message. *)
Definition blockedDeployment : Collaborators :=
  mkCollaborators
    (updateWatchlist rows)
    {[ "eth_spybot" ]}
    (fun _ => Ok "transfer(address,uint256)")
    (fun tx address => snd (Tracer.decodeFast baseTokens chain balance ∅ tx address))
    (fun tx address => snd (Tracer.decodeFast baseTokens chain balance ∅ tx address))
    render
    (fun n => if (n =? 1)%nat
              then Rejected "Forbidden: bot was blocked by the user"
              else Fulfilled (500 + Z.of_nat n))
    (fun _ => Fulfilled true).

(** A plain transfer of 5 wei made by the watched address. *)
Definition dustTx : TransactionData :=
  mkTx txHash (Some 19000000) (Some sender) watched "0x" 5.

(** A node that delivers every block asked for, without transactions. *)
Definition emptyBlock (blockNumber : Z) : BlockReader.Block :=
  BlockReader.mkBlock (Some blockNumber) (Some "0xb10c") [].

(** A block of one transaction. *)
Definition replayBlock (blockNumber : Z) (txHash : string) : BlockReader.Block :=
  BlockReader.mkBlock (Some blockNumber) (Some "0xb10c") [BlockReader.TxObject txHash].

(** The hash of the transaction of block [i] in the replay below. *)
Definition replayHash (i : Z) : string := "0x" +:+ pretty i.

(** 10 001 blocks of one new transaction each, then a block that
    carries the transaction of block 5000 once more, as happens when a
    transaction is mined again after a reorganisation. *)
Definition replay : list BlockReader.Block :=
  List.map (fun i => replayBlock i (replayHash i)) (seqZ 1 10001)
  ++ [replayBlock 10002 (replayHash 5000)].

(** A chain that answers nothing. *)
Definition silentChain : Chain :=
  mkChain (fun _ => None) (fun _ => None) (fun _ => None) (fun _ => None).

(** Two messages waiting in a send queue whose worker is running. *)
Definition firstItem : TelegramQueue.SendQueueItem :=
  TelegramQueue.mkSendItem (TelegramQueue.ChatNumber 1001) "one" None "1001_1_0.1".

Definition secondItem : TelegramQueue.SendQueueItem :=
  TelegramQueue.mkSendItem (TelegramQueue.ChatNumber 1002) "two" None "1002_2_0.2".

Definition busyQueue : TelegramQueue.State :=
  TelegramQueue.mkState [firstItem; secondItem] true ["1001_1_0.1"; "1002_2_0.2"].

End Scenario.

(** * Properties *)

(** ** Multi-node client *)

Section MultinodeFacts.
Import Multinode Spec.

Lemma successful_results (nodes : list Outcome) :
  List.map result
    (List.filter (fun r => success r && negb (isNull (result r)))
                 (List.map runNode nodes))
  = answers nodes.
Proof.
  induction nodes as [|o nodes IH]; [reflexivity|].
  destruct o as [v|e]; cbn.
  - destruct v; cbn; rewrite ?IH; reflexivity.
  - exact IH.
Qed.

Lemma answers_nil_iff (nodes : list Outcome) :
  answers nodes = [] <-> forallb (fun o => negb (answered o)) nodes = true.
Proof.
  induction nodes as [|o nodes IH]; cbn; [tauto|].
  destruct o as [v|e]; cbn.
  - destruct v; cbn; try (split; discriminate).
    exact IH.
  - exact IH.
Qed.

Lemma executeParallel_answers method nodes strategy :
  executeParallel method nodes strategy =
    match answers nodes with
    | [] => Throw (allNodesFailed method)
    | vs => Ok (applyConsensusStrategy vs strategy)
    end.
Proof.
  unfold executeParallel. rewrite <- successful_results.
  destruct (List.filter _ _); reflexivity.
Qed.

Lemma answers_app (l1 l2 : list Outcome) :
  answers (l1 ++ l2) = answers l1 ++ answers l2.
Proof. unfold answers. apply omap_app. Qed.

(** C5, as stated, fails on the code: an endpoint that returns [null]
    did not error, yet the call throws; and the thrown error is the
    same whatever the endpoints raised, so it does not carry their
    errors. *)
Lemma fanout_fails_although_an_endpoint_returned :
  let nodes := [Returned JNull; Raised "timeout"] in
  existsb returned nodes = true
  /\ failed (executeParallel "getTransaction" nodes firstSuccess) = true
  /\ executeParallel "getTransaction" [Raised "connection refused"] firstSuccess
     = executeParallel "getTransaction" [Raised "timeout"] firstSuccess.
Proof. repeat split. Qed.

(** C5, amended: a call through [executeParallel] fails exactly when
    every endpoint raised (error or time-out) or returned [null]; the
    failure is one error whose message names the method only; as soon
    as one endpoint returns a non-null value the call succeeds with the
    value the strategy picks among the non-null answers. *)
Theorem fanout_fails_iff_no_endpoint_answers :
  forall method nodes strategy,
    (failed (executeParallel method nodes strategy) = true
     <-> forallb (fun o => negb (answered o)) nodes = true)
    /\ (failed (executeParallel method nodes strategy) = true
        <-> executeParallel method nodes strategy = Throw (allNodesFailed method))
    /\ (existsb answered nodes = true
        <-> executeParallel method nodes strategy
            = Ok (applyConsensusStrategy (answers nodes) strategy)).
Proof.
  intros method nodes strategy.
  rewrite executeParallel_answers.
  pose proof (answers_nil_iff nodes) as Hnil.
  assert (Hex : existsb answered nodes = negb (forallb (fun o => negb (answered o)) nodes)).
  { clear. induction nodes as [|o nodes IH]; cbn; [reflexivity|].
    rewrite IH. destruct (answered o); reflexivity. }
  rewrite Hex. clear Hex.
  destruct (forallb (fun o => negb (answered o)) nodes) eqn:Hf.
  - rewrite (proj2 Hnil eq_refl). cbn. repeat split; auto; discriminate.
  - destruct (answers nodes) as [|v vs] eqn:Ha.
    + pose proof (proj1 Hnil eq_refl). discriminate.
    + cbn. repeat split; auto; discriminate.
Qed.

(** C10: an endpoint that fulfils with [null] is counted like one that
    raised, whatever the method and strategy; when every endpoint
    returns [null], the call throws the all-nodes-failed error. *)
Theorem null_answer_counts_as_failure :
  forall method strategy,
    (forall before after e,
        executeParallel method (before ++ Returned JNull :: after) strategy
        = executeParallel method (before ++ Raised e :: after) strategy)
    /\ (forall n,
          executeParallel method (repeat (Returned JNull) n) strategy
          = Throw (allNodesFailed method)).
Proof.
  intros method strategy. split.
  - intros before after e.
    rewrite !executeParallel_answers, !answers_app. reflexivity.
  - intros n. rewrite executeParallel_answers.
    replace (answers (repeat (Returned JNull) n)) with (@nil JsValue); [reflexivity|].
    induction n as [|n IH]; [reflexivity|]. cbn. exact IH.
Qed.

End MultinodeFacts.

(** ** Strings and addresses *)

Section StringFacts.

Lemma lowerChar_idem (c : ascii) : Js.lowerChar (Js.lowerChar c) = Js.lowerChar c.
Proof. destruct c as [[] [] [] [] [] [] [] []]; reflexivity. Qed.

Lemma lowerChar_upperChar (c : ascii) : Js.lowerChar (Js.upperChar c) = Js.lowerChar c.
Proof. destruct c as [[] [] [] [] [] [] [] []]; reflexivity. Qed.

Lemma toLowerCase_idem (s : string) : Js.toLowerCase (Js.toLowerCase s) = Js.toLowerCase s.
Proof. induction s as [|c s IH]; cbn; [reflexivity|]. now rewrite lowerChar_idem, IH. Qed.

Lemma toLowerCase_app (s t : string) :
  Js.toLowerCase (s +:+ t) = Js.toLowerCase s +:+ Js.toLowerCase t.
Proof.
  induction s as [|c s IH]; [reflexivity|].
  change (String (Js.lowerChar c) (Js.toLowerCase (s +:+ t))
          = String (Js.lowerChar c) (Js.toLowerCase s +:+ Js.toLowerCase t)).
  now rewrite IH.
Qed.

Lemma toLowerCase_checksumChars hash i s :
  Js.toLowerCase (Viem.checksumChars hash i s) = Js.toLowerCase s.
Proof.
  revert i. induction s as [|c s IH]; intros i; cbn; [reflexivity|].
  rewrite IH. destruct (_ && _); [rewrite lowerChar_upperChar|]; reflexivity.
Qed.

(** The checksum only changes the case of the hex digits. *)
Lemma toLowerCase_checksumAddress (a : string) :
  Js.toLowerCase (Viem.checksumAddress a) = "0x" +:+ Js.toLowerCase (Js.sliceFrom 2 a).
Proof.
  unfold Viem.checksumAddress. rewrite toLowerCase_app, toLowerCase_checksumChars.
  now rewrite toLowerCase_idem.
Qed.

Lemma isAddress_nonstrict (a : string) :
  Viem.isAddress a = true -> Viem.isAddressWith false a = true.
Proof.
  unfold Viem.isAddress, Viem.isAddressWith.
  destruct (negb (Viem.addressRegex a)); [discriminate|].
  destruct (String.eqb _ a); auto.
Qed.

Lemma substring_all (s : string) : String.substring 0 (String.length s) s = s.
Proof. induction s as [|c s IH]; simpl; [reflexivity|]. now rewrite IH. Qed.

Lemma sliceFrom_0x (s : string) : Js.sliceFrom 2 ("0x" +:+ s) = s.
Proof.
  unfold Js.sliceFrom.
  change ("0x" +:+ s) with (String "0" (String "x" s)).
  simpl. rewrite Nat.sub_0_r. apply substring_all.
Qed.

End StringFacts.

(** ** Address extractor *)

Section ExtractorFacts.
Import AddressExtractor.

(** C8, as stated, fails on the code: a transfer call with exactly 32
    bytes after the selector (fewer than 36) yields a recipient. *)
Lemma transfer_recipient_with_32_bytes_after_selector :
  let data := "0xa9059cbb" +:+ zeros24 +:+ "5aaeb6053f3e94c9b9a09f33669435e7ef1beaed" in
  Spec.bytesAfterSelector data = 32%nat
  /\ (Spec.bytesAfterSelector data <? 36)%nat = true
  /\ extractTransferRecipient data = Some "0x5aAeb6053F3E94C9b9A09f33669435E7Ef1BeAed".
Proof. vm_compute. repeat split. Qed.

Lemma bytesAfterSelector_32 (data : string) :
  (74 <=? String.length data)%nat = (32 <=? Spec.bytesAfterSelector data)%nat.
Proof.
  unfold Spec.bytesAfterSelector.
  destruct (Nat.leb_spec 74 (String.length data)) as [H|H];
    destruct (Nat.leb_spec 32 ((String.length data - 10) / 2)) as [H'|H'];
    try reflexivity; exfalso.
  - assert ((64 / 2 <= (String.length data - 10) / 2)%nat)
      by (apply Nat.Div0.div_le_mono; lia).
    change (64 / 2)%nat with 32%nat in *. lia.
  - assert (((String.length data - 10) / 2 <= 63 / 2)%nat)
      by (apply Nat.Div0.div_le_mono; lia).
    change (63 / 2)%nat with 31%nat in *. lia.
Qed.

Lemma extractTransferRecipient_eq (data : string) :
  extractTransferRecipient data
  = if Js.startsWith transferSelector data
       && (32 <=? Spec.bytesAfterSelector data)%nat
       && Viem.isAddress ("0x" +:+ Js.slice 34 74 data)
    then Some (Viem.checksumAddress ("0x" +:+ Js.slice 34 74 data)) else None.
Proof.
  unfold extractTransferRecipient. rewrite bytesAfterSelector_32.
  destruct (Js.startsWith transferSelector data
            && (32 <=? Spec.bytesAfterSelector data)%nat); [|reflexivity].
  rewrite andb_true_l.
  destruct (Viem.isAddress ("0x" +:+ Js.slice 34 74 data)) eqn:Ha; [|reflexivity].
  unfold Viem.getAddress. now rewrite (isAddress_nonstrict _ Ha).
Qed.

(** C8, amended: [extractTransferRecipient] returns an address exactly
    when the calldata starts with [0xa9059cbb], has at least 32 bytes
    (64 hex digits) after the selector, and the 20 trailing bytes of
    the first 32-byte argument form an address accepted by [isAddress];
    the result is then those 20 bytes in checksum case, and [null] in
    every other case. *)
Theorem transfer_recipient_exactly_when :
  forall data : string,
    let argTail := "0x" +:+ Js.slice 34 74 data in
    let accepted :=
      Js.startsWith transferSelector data
      && (32 <=? Spec.bytesAfterSelector data)%nat
      && Viem.isAddress argTail in
    extractTransferRecipient data
      = (if accepted then Some (Viem.checksumAddress argTail) else None)
    /\ (extractTransferRecipient data <> None <-> accepted = true)
    /\ (forall a, extractTransferRecipient data = Some a ->
                  Js.toLowerCase a = "0x" +:+ Js.toLowerCase (Js.slice 34 74 data)).
Proof.
  intros data argTail accepted.
  assert (Heq : extractTransferRecipient data
                = (if accepted then Some (Viem.checksumAddress argTail) else None))
    by apply extractTransferRecipient_eq.
  split; [exact Heq|]. rewrite Heq. split.
  - destruct accepted; split; congruence.
  - intros a. destruct accepted; [|discriminate].
    intros [= <-]. rewrite toLowerCase_checksumAddress.
    unfold argTail. now rewrite sliceFrom_0x.
Qed.

(** *** The same at byte level *)

Lemma length_append (s t : string) :
  String.length (s +:+ t) = (String.length s + String.length t)%nat.
Proof. induction s as [|c s IH]; simpl; [reflexivity | now rewrite IH]. Qed.

Lemma append_assoc (s t u : string) : (s +:+ t) +:+ u = s +:+ (t +:+ u).
Proof.
  induction s as [|c s IH]; [reflexivity|].
  change (String c ((s +:+ t) +:+ u) = String c (s +:+ (t +:+ u))). now rewrite IH.
Qed.

Lemma length_ofBytes (bs : list Z) :
  String.length (Hex.ofBytes bs) = (2 * List.length bs)%nat.
Proof.
  induction bs as [|b bs IH]; [reflexivity|].
  cbn [Hex.ofBytes]. rewrite length_append, IH. cbn [List.length]. unfold Hex.ofByte.
  cbn [String.length]. lia.
Qed.

Lemma ofBytes_app (a b : list Z) :
  Hex.ofBytes (a ++ b) = Hex.ofBytes a +:+ Hex.ofBytes b.
Proof.
  induction a as [|x a IH]; [reflexivity|].
  cbn [Hex.ofBytes app]. rewrite IH. now rewrite append_assoc.
Qed.

Lemma substring_skip (p s : string) (n m : nat) :
  String.substring (String.length p + n) m (p +:+ s) = String.substring n m s.
Proof. induction p as [|c p IH]; simpl; [reflexivity | exact IH]. Qed.

Lemma substring_skip_all (p s : string) (n m : nat) :
  String.length p = n ->
  String.substring n m (p +:+ s) = String.substring 0 m s.
Proof. intros <-. rewrite <- (substring_skip p s 0 m). now rewrite Nat.add_0_r. Qed.

Lemma substring_whole (s : string) (m : nat) :
  String.length s = m -> String.substring 0 m s = s.
Proof. intros <-. apply substring_all. Qed.

Lemma prefix_append (p s : string) : String.prefix p (p +:+ s) = true.
Proof.
  induction p as [|c p IH].
  - destruct s; reflexivity.
  - change (String.prefix (String c p) (String c (p +:+ s)) = true).
    cbn [String.prefix]. destruct (ascii_dec c c); [exact IH | congruence].
Qed.

Lemma substring_take (s t : string) (m : nat) :
  (m <= String.length s)%nat ->
  String.substring 0 m (s +:+ t) = String.substring 0 m s.
Proof.
  revert m. induction s as [|c s IH]; intros m Hm; simpl in *.
  - assert (m = 0%nat) by lia. subst m. destruct t; reflexivity.
  - destruct m as [|m]; [reflexivity|]. rewrite IH by lia. reflexivity.
Qed.

Lemma digitChar_hex (d : Z) :
  0 <= d < 16 ->
  Hex.isHexDigit (Hex.digitChar d) = true
  /\ Js.lowerChar (Hex.digitChar d) = Hex.digitChar d.
Proof.
  intros Hd.
  assert (Hcases : d = 0 \/ d = 1 \/ d = 2 \/ d = 3 \/ d = 4 \/ d = 5 \/ d = 6 \/ d = 7
                   \/ d = 8 \/ d = 9 \/ d = 10 \/ d = 11 \/ d = 12 \/ d = 13 \/ d = 14
                   \/ d = 15) by lia.
  repeat (destruct Hcases as [->|Hcases]; [split; reflexivity|]).
  subst d. split; reflexivity.
Qed.

Lemma ofBytes_cons (b : Z) (bs : list Z) :
  Hex.ofBytes (b :: bs)
  = String (Hex.digitChar (b / 16)) (String (Hex.digitChar (b mod 16)) (Hex.ofBytes bs)).
Proof. reflexivity. Qed.

Lemma ofBytes_hex (bs : list Z) :
  Forall Spec.isByte bs ->
  Hex.allHex (Hex.ofBytes bs) = true
  /\ Js.toLowerCase (Hex.ofBytes bs) = Hex.ofBytes bs.
Proof.
  induction 1 as [|b bs Hb Hbs [IH1 IH2]]; [split; reflexivity|].
  unfold Spec.isByte in Hb.
  assert (H1 : 0 <= b / 16 < 16)
    by (split; [apply Z.div_pos; lia | apply Z.div_lt_upper_bound; lia]).
  assert (H2 : 0 <= b mod 16 < 16) by (apply Z.mod_pos_bound; lia).
  destruct (digitChar_hex _ H1) as [Ha1 Ha2], (digitChar_hex _ H2) as [Hb1 Hb2].
  rewrite ofBytes_cons. cbn [Hex.allHex Js.toLowerCase].
  rewrite Ha1, Hb1, IH1, Ha2, Hb2, IH2. split; reflexivity.
Qed.

(** The recipient of an ABI-encoded [transfer(address,uint256)] call is
    made of the last 20 of the 32 bytes of the first argument. *)
Lemma transfer_recipient_of_encoded_call (argument rest : list Z) :
  List.length argument = 32%nat ->
  Forall Spec.isByte argument ->
  extractTransferRecipient
    ("0x" +:+ Hex.ofBytes ([0xa9; 0x05; 0x9c; 0xbb] ++ argument ++ rest))
  = Some (Viem.checksumAddress ("0x" +:+ Hex.ofBytes (skipn 12 argument))).
Proof.
  intros Hlen Hbytes.
  set (data := "0x" +:+ Hex.ofBytes ([0xa9; 0x05; 0x9c; 0xbb] ++ argument ++ rest)).
  assert (Hdata : data = "0xa9059cbb" +:+ (Hex.ofBytes argument +:+ Hex.ofBytes rest)).
  { unfold data. rewrite ofBytes_app, ofBytes_app. reflexivity. }
  assert (Hsplit : argument = firstn 12 argument ++ skipn 12 argument)
    by now rewrite firstn_skipn.
  assert (Hl1 : List.length (firstn 12 argument) = 12%nat)
    by (rewrite length_firstn; lia).
  assert (Hl2 : List.length (skipn 12 argument) = 20%nat)
    by (rewrite length_skipn; lia).
  assert (Hslice : Js.slice 34 74 data = Hex.ofBytes (skipn 12 argument)).
  { assert (Hd2 : data = ("0xa9059cbb" +:+ Hex.ofBytes (firstn 12 argument))
                         +:+ (Hex.ofBytes (skipn 12 argument) +:+ Hex.ofBytes rest)).
    { rewrite Hdata. rewrite Hsplit at 1.
      rewrite ofBytes_app, (append_assoc (Hex.ofBytes (firstn 12 argument))).
      now rewrite <- (append_assoc "0xa9059cbb"). }
    unfold Js.slice. change (74 - 34)%nat with 40%nat. rewrite Hd2.
    rewrite substring_skip_all
      by (rewrite length_append, length_ofBytes, Hl1; reflexivity).
    rewrite substring_take by (rewrite length_ofBytes, Hl2; lia).
    apply substring_whole. rewrite length_ofBytes, Hl2. reflexivity. }
  destruct (ofBytes_hex (skipn 12 argument)) as [Hhex Hlower].
  { apply Forall_forall. intros b Hb. rewrite Forall_forall in Hbytes.
    apply Hbytes. rewrite Hsplit. apply elem_of_app. now right. }
  rewrite extractTransferRecipient_eq, Hslice.
  assert (Hstart : Js.startsWith transferSelector data = true)
    by (rewrite Hdata; apply prefix_append).
  assert (Hbytes32 : (32 <=? Spec.bytesAfterSelector data)%nat = true).
  { apply Nat.leb_le. unfold Spec.bytesAfterSelector.
    rewrite Hdata, !length_append, !length_ofBytes, Hlen. simpl String.length.
    replace (10 + (2 * 32 + 2 * List.length rest) - 10)%nat
      with ((32 + List.length rest) * 2)%nat by lia.
    rewrite Nat.div_mul by lia. lia. }
  assert (Haddr : Viem.isAddress ("0x" +:+ Hex.ofBytes (skipn 12 argument)) = true).
  { unfold Viem.isAddress, Viem.isAddressWith, Viem.addressRegex.
    rewrite sliceFrom_0x, Hhex. unfold Js.startsWith. rewrite prefix_append.
    rewrite length_append, length_ofBytes, Hl2.
    change ((String.length "0x" + 2 * 20 =? 42)%nat) with true.
    cbn [andb negb].
    rewrite toLowerCase_app, Hlower.
    change (Js.toLowerCase "0x") with "0x".
    now rewrite String.eqb_refl. }
  now rewrite Hstart, Hbytes32, Haddr.
Qed.

End ExtractorFacts.

(** ** Message builder *)

Section BuilderFacts.
Import Tracer MessageBuilder.

(** C7, as stated, fails on the code: with two interacted tokens and a
    failed transaction the label is buy, not sell; and with an unknown
    status and no value it is sell, not buy. *)
Lemma failed_swap_is_labelled_buy :
  let tx := mkTx "0x01" None (Some "0xrouter") "0xwatched" "0x38ed1739" 0 in
  let tokens := [("0xaaa", "AAA"); ("0xbbb", "WETH")] in
  let decoded st := mkTrace st tokens None None None "0.0" "0.0" "." None in
  (1 < List.length tokens)%nat
  /\ snd (icon (prepareMessageParams ["WETH"] "0xwatched" tx (decoded (Some false)) "0x38ed1739"))
     = Buy
  /\ snd (icon (prepareMessageParams ["WETH"] "0xwatched" tx (decoded None) "0x38ed1739"))
     = Sell.
Proof. cbn. repeat split. lia. Qed.

(** C7, amended: when more than one token was interacted with, the
    direction label is buy when the decoded status is false; otherwise
    (status true or unknown) it is sell when [tx.value] is 0 and buy
    when it is not. *)
Theorem multi_token_direction_label :
  forall baseTokens address tx decoded selector,
    (1 < List.length (Ordered.keys (interact decoded)))%nat ->
    snd (icon (prepareMessageParams baseTokens address tx decoded selector))
    = match status decoded with
      | Some false => Buy
      | _ => if value tx =? 0 then Sell else Buy
      end.
Proof.
  intros baseTokens address tx decoded selector Hmany.
  unfold prepareMessageParams. cbv zeta. cbn [icon snd].
  apply Nat.ltb_lt in Hmany. rewrite Hmany.
  destruct (status decoded) as [[|]|]; reflexivity.
Qed.

Lemma multi_token_direction_label_witness :
  (1 < List.length (Ordered.keys [("0xaaa", "AAA"); ("0xbbb", "WETH")]))%nat
  /\ snd (icon (prepareMessageParams ["WETH"] "0xwatched"
                  (mkTx "0x01" None (Some "0xrouter") "0xwatched" "0x38ed1739" 0)
                  (mkTrace (Some true) [("0xaaa", "AAA"); ("0xbbb", "WETH")]
                     None None None "0.0" "0.0" "." None)
                  "0x38ed1739"))
     = Sell.
Proof.
  split; [cbn; lia|].
  apply (multi_token_direction_label ["WETH"] "0xwatched"
           (mkTx "0x01" None (Some "0xrouter") "0xwatched" "0x38ed1739" 0)
           (mkTrace (Some true) [("0xaaa", "AAA"); ("0xbbb", "WETH")]
              None None None "0.0" "0.0" "." None)
           "0x38ed1739").
  cbn; lia.
Defined.

End BuilderFacts.

(** ** Delivery queue *)

Section QueueFacts.
Import TelegramQueue.

(** Submissions made while the worker is busy only lengthen the queue. *)
Lemma run_submit_while_busy (others : list SendQueueItem) :
  forall queue pending,
    run (mkState queue true pending) (List.map Submit others)
    = (mkState (queue ++ others) true (pending ++ List.map messageId others), []).
Proof.
  induction others as [|o others IH]; intros queue pending; simpl.
  - now rewrite !app_nil_r.
  - rewrite IH. now rewrite <- !app_assoc.
Qed.

Lemma run_app (st : State) (l1 l2 : list Input) :
  run st (l1 ++ l2)
  = let '(st1, e1) := run st l1 in
    let '(st2, e2) := run st1 l2 in (st2, e1 ++ e2).
Proof.
  revert st. induction l1 as [|i l1 IH]; intros st; simpl.
  - destruct (run st l2); reflexivity.
  - destruct (step st i) as [st1 e1]. rewrite IH.
    destruct (run st1 l1) as [st2 e2]. destruct (run st2 l2) as [st3 e3].
    now rewrite app_assoc.
Qed.

(** C6: on HTTP 429 with [retry_after = k] the item the worker was
    sending stays at the head of the queue, is not dequeued, its future
    is neither resolved nor rejected, and the worker sleeps at least [k]
    seconds before it asks again for the same item; whatever is
    submitted meanwhile, the next successful attempt resolves the
    future of that item with the returned message id and dequeues it. *)
Theorem rate_limited_item_is_retried_in_place :
  forall item rest pending description k others message_id,
    let st := mkState (item :: rest) true pending in
    let limited := Answer (Failed (GrammyError 429 description (Some k))) in
    let pause := (if k =? 0 then 1 else k) * 1000 in
    step st limited = (st, [Sleep pause; CallSendMessage item])
    /\ k * 1000 <= pause
    /\ run st (limited :: List.map Submit others ++ [Answer (Delivered message_id)])
       = (fst (continueLoop (rest ++ others)
                 (removePending (messageId item)
                    (pending ++ List.map messageId others))),
          [Sleep pause; CallSendMessage item; Resolve item message_id; Sleep 200]
            ++ match rest ++ others with
               | [] => []
               | next :: _ => [CallSendMessage next]
               end).
Proof.
  intros item rest pending description k others message_id st limited pause.
  assert (Hstep : step st limited = (st, [Sleep pause; CallSendMessage item])).
  { reflexivity. }
  split; [exact Hstep|]. split.
  { subst pause. destruct (Z.eqb_spec k 0); lia. }
  cbn [run]. rewrite Hstep. rewrite run_app.
  unfold st. rewrite run_submit_while_busy.
  cbn [run step isProcessingSendQueue sendQueue pendingSendMessages].
  rewrite <- app_comm_cons. unfold continueLoop.
  destruct (rest ++ others) as [|next more]; simpl; rewrite ?app_nil_r; reflexivity.
Qed.

End QueueFacts.

(** ** Insertion-ordered sets *)

Section OrderedFacts.

Lemma has_true_iff (x : string) (l : list string) :
  Ordered.has x l = true <-> x ∈ l.
Proof.
  unfold Ordered.has. rewrite existsb_exists. split.
  - intros (y & Hin & Heq). apply String.eqb_eq in Heq. subst y.
    now apply list_elem_of_In.
  - intros Hin. exists x. split; [now apply list_elem_of_In | apply String.eqb_refl].
Qed.

Lemma has_false_iff (x : string) (l : list string) :
  Ordered.has x l = false <-> x ∉ l.
Proof.
  rewrite <- has_true_iff. destruct (Ordered.has x l); split; congruence.
Qed.

End OrderedFacts.

(** ** Block reader *)

Section ReaderFacts.
Import BlockReader Spec.

Lemma TX_WINDOW_half_pos : (1 <= TX_WINDOW / 2)%nat.
Proof. apply Nat.leb_le. vm_compute. reflexivity. Qed.

Lemma TX_WINDOW_half_twice : (2 * (TX_WINDOW / 2) <= TX_WINDOW)%nat.
Proof. apply Nat.leb_le. vm_compute. reflexivity. Qed.

Lemma readerInv_initial : readerInv [] [].
Proof.
  repeat split.
  - exists []. reflexivity.
  - simpl. lia.
  - simpl. lia.
  - intros i j h _ Hi. rewrite lookup_nil in Hi. discriminate.
Qed.

Lemma processTransaction_seen (seen : list string) (h : string) :
  Ordered.has h seen = true -> processTransaction seen h = (seen, []).
Proof. intros H. unfold processTransaction. now rewrite H. Qed.

Lemma processTransaction_fresh (seen : list string) (h : string) :
  Ordered.has h seen = false ->
  processTransaction seen h
  = (if (TX_WINDOW <? List.length (seen ++ [h]))%nat
     then skipn (TX_WINDOW / 2)%nat (seen ++ [h]) else seen ++ [h],
     [new_transaction h]).
Proof. intros H. unfold processTransaction. now rewrite H. Qed.

Lemma readerInv_step (seen out : list string) (h : string) :
  readerInv seen out ->
  readerInv (fst (processTransaction seen h))
            (out ++ emittedHashes (snd (processTransaction seen h))).
Proof.
  intros (Hsuf & Hcap & Hmin & Hwin).
  destruct (Ordered.has h seen) eqn:Hhas.
  { rewrite processTransaction_seen by assumption. simpl. rewrite app_nil_r.
    repeat split; assumption. }
  rewrite processTransaction_fresh by assumption.
  cbn [fst snd emittedHashes omap list_omap].
  pose proof TX_WINDOW_half_pos as Hpos.
  pose proof TX_WINDOW_half_twice as Htwice.
  set (half := (TX_WINDOW / 2)%nat) in *.
  destruct Hsuf as [pre Hpre].
  assert (Hlen : List.length (seen ++ [h]) = S (List.length seen))
    by (rewrite length_app; simpl; lia).
  assert (Hout : List.length out = (List.length pre + List.length seen)%nat)
    by (rewrite Hpre, length_app; reflexivity).
  assert (Hwin' : Spec.noRepeatWithin half (out ++ [h])).
  { intros i j x Hij Hi Hj.
    assert (Hjlt : (j < List.length (out ++ [h]))%nat) by (eapply lookup_lt_Some; eauto).
    rewrite length_app in Hjlt. simpl in Hjlt.
    destruct (decide (j < List.length out)%nat) as [Hjo|Hjo].
    - rewrite lookup_app_l in Hi by lia. rewrite lookup_app_l in Hj by lia.
      eapply Hwin; eauto.
    - assert (j = List.length out) by lia. subst j.
      rewrite lookup_app_r in Hj by lia. rewrite Nat.sub_diag in Hj.
      simpl in Hj. injection Hj as <-.
      rewrite lookup_app_l in Hi by lia.
      apply has_false_iff in Hhas.
      destruct (decide (i < List.length pre)%nat) as [Hip|Hip].
      + lia.
      + exfalso. apply Hhas. rewrite Hpre in Hi.
        rewrite lookup_app_r in Hi by lia.
        eapply list_elem_of_lookup_2; eauto. }
  destruct (Nat.ltb_spec TX_WINDOW (List.length (seen ++ [h]))) as [Hover|Hfit].
  - repeat split.
    + exists (pre ++ firstn half (seen ++ [h])).
      rewrite <- app_assoc, firstn_skipn, Hpre, <- app_assoc. reflexivity.
    + rewrite length_skipn. lia.
    + rewrite length_skipn, !length_app. simpl List.length. lia.
    + exact Hwin'.
  - repeat split.
    + exists pre. rewrite Hpre, <- app_assoc. reflexivity.
    + lia.
    + rewrite !length_app. simpl List.length. lia.
    + exact Hwin'.
Qed.

Lemma emittedHashes_app (e1 e2 : list Event) :
  emittedHashes (e1 ++ e2) = emittedHashes e1 ++ emittedHashes e2.
Proof. unfold emittedHashes. apply omap_app. Qed.

Lemma readerInv_transactions (txs : list BlockTx) :
  forall seen out,
    readerInv seen out ->
    readerInv (fst (processTransactions seen txs))
              (out ++ emittedHashes (snd (processTransactions seen txs))).
Proof.
  induction txs as [|t txs IH]; intros seen out Hinv.
  - simpl. now rewrite app_nil_r.
  - destruct t as [h|h]; cbn [processTransactions].
    + pose proof (readerInv_step seen out h Hinv) as Hstep.
      destruct (processTransaction seen h) as [seen1 ev1].
      specialize (IH seen1 _ Hstep).
      destruct (processTransactions seen1 txs) as [seen2 ev2].
      cbn [fst snd] in *. rewrite emittedHashes_app, app_assoc. exact IH.
    + apply IH, Hinv.
Qed.

Lemma readerInv_block (st : State) (b : Block) (out : list string) :
  readerInv (processedTransactions st) out ->
  readerInv (processedTransactions (fst (processBlock st b)))
            (out ++ emittedHashes (snd (processBlock st b))).
Proof.
  intros Hinv. unfold processBlock.
  destruct (number b) as [n|]; [|simpl; now rewrite app_nil_r].
  destruct (hash b) as [bh|]; [|simpl; now rewrite app_nil_r].
  destruct (decide (n ∈ processedBlocks st)); [simpl; now rewrite app_nil_r|].
  pose proof (readerInv_transactions (transactions b) _ _ Hinv) as Htx.
  destruct (processTransactions (processedTransactions st) (transactions b))
    as [seen ev].
  cbn [fst snd processedTransactions] in *.
  rewrite emittedHashes_app. simpl. now rewrite app_nil_r.
Qed.

Lemma readerInv_blocks (blocks : list Block) :
  forall st out,
    readerInv (processedTransactions st) out ->
    readerInv (processedTransactions (fst (processBlocks st blocks)))
              (out ++ emittedHashes (snd (processBlocks st blocks))).
Proof.
  induction blocks as [|b blocks IH]; intros st out Hinv.
  - simpl. now rewrite app_nil_r.
  - cbn [processBlocks].
    pose proof (readerInv_block st b out Hinv) as Hb.
    destruct (processBlock st b) as [st1 ev1].
    specialize (IH st1 _ Hb).
    destruct (processBlocks st1 blocks) as [st2 ev2].
    cbn [fst snd] in *. rewrite emittedHashes_app, app_assoc. exact IH.
Qed.

(** *** A replay across an eviction *)

Lemma processBlocks_app (l1 l2 : list Block) :
  forall st,
    processBlocks st (l1 ++ l2)
    = (fst (processBlocks (fst (processBlocks st l1)) l2),
       snd (processBlocks st l1) ++ snd (processBlocks (fst (processBlocks st l1)) l2)).
Proof.
  induction l1 as [|b l1 IH]; intros st; cbn [app processBlocks].
  - cbn [fst snd app]. now destruct (processBlocks st l2).
  - destruct (processBlock st b) as [st1 e1]. rewrite IH.
    destruct (processBlocks st1 l1) as [st2 e2]. cbn [fst snd].
    now rewrite app_assoc.
Qed.

(** A block of one transaction, not processed before, hands its
    transaction to [processTransaction]. *)
Lemma replayBlock_step (st : State) (n : Z) (h : string) :
  (forall m, m ∈ processedBlocks st -> m < n) ->
  processedTransactions (fst (processBlock st (Scenario.replayBlock n h)))
  = fst (processTransaction (processedTransactions st) h)
  /\ emittedHashes (snd (processBlock st (Scenario.replayBlock n h)))
     = emittedHashes (snd (processTransaction (processedTransactions st) h))
  /\ (forall m, m ∈ processedBlocks (fst (processBlock st (Scenario.replayBlock n h)))
                -> m < n + 1).
Proof.
  intros Hbelow. unfold processBlock, Scenario.replayBlock.
  cbn [number hash transactions processTransactions].
  destruct (decide (n ∈ processedBlocks st)) as [Hin|_];
    [apply Hbelow in Hin; lia|].
  destruct (processTransaction (processedTransactions st) h) as [seen ev].
  cbn [fst snd processedTransactions processedBlocks].
  split; [reflexivity|]. split.
  - rewrite !emittedHashes_app. cbn. now rewrite !app_nil_r.
  - intros m Hm.
    assert (Hm' : m ∈ ({[ n ]} ∪ processedBlocks st : gset Z)).
    { destruct (BLOCK_WINDOW <? n); [|exact Hm].
      now apply elem_of_difference in Hm as [Hm _]. }
    apply elem_of_union in Hm' as [Hm'|Hm'].
    + apply elem_of_singleton in Hm'. lia.
    + apply Hbelow in Hm'. lia.
Qed.

Lemma replayHash_inj (i j : Z) : Scenario.replayHash i = Scenario.replayHash j -> i = j.
Proof.
  unfold Scenario.replayHash. intros H.
  change ("0x" +:+ pretty i) with (String "0" (String "x" (pretty i))) in H.
  change ("0x" +:+ pretty j) with (String "0" (String "x" (pretty j))) in H.
  injection H as H. now apply (inj pretty).
Qed.

Lemma replayHash_fresh (a n i : Z) :
  ~ (a <= i < a + n) ->
  Ordered.has (Scenario.replayHash i) (List.map Scenario.replayHash (seqZ a n)) = false.
Proof.
  intros Hout. apply has_false_iff. intros Hin.
  apply list_elem_of_fmap in Hin as (j & Heq & Hj).
  apply replayHash_inj in Heq. subst j. apply elem_of_seqZ in Hj. lia.
Qed.

Lemma TX_WINDOW_value : Z.of_nat TX_WINDOW = 10000.
Proof. reflexivity. Qed.

Lemma TX_WINDOW_half_value : Z.of_nat (TX_WINDOW / 2) = 5000.
Proof. vm_compute. reflexivity. Qed.

(** While the set is below its cap, the blocks of the replay add their
    transactions to it one by one and each is emitted. *)
Lemma replay_below_cap (n : nat) :
  forall (j : Z) (st : State),
    0 <= j ->
    processedTransactions st = List.map Scenario.replayHash (seqZ 1 j) ->
    (forall m, m ∈ processedBlocks st -> m < 1 + j) ->
    j + Z.of_nat n <= 10000 ->
    let r := processBlocks st
               (List.map (fun i => Scenario.replayBlock i (Scenario.replayHash i))
                         (seqZ (1 + j) (Z.of_nat n))) in
    processedTransactions (fst r)
    = List.map Scenario.replayHash (seqZ 1 (j + Z.of_nat n))
    /\ (forall m, m ∈ processedBlocks (fst r) -> m < 1 + j + Z.of_nat n)
    /\ emittedHashes (snd r)
       = List.map Scenario.replayHash (seqZ (1 + j) (Z.of_nat n)).
Proof.
  induction n as [|n IH]; intros j st Hj Hseen Hbelow Hcap r; subst r.
  - cbn [Z.of_nat seqZ]. change (seqZ (1 + j) 0) with (@nil Z).
    cbn [List.map processBlocks fst snd emittedHashes omap].
    rewrite Z.add_0_r. split; [exact Hseen|]. split; [|reflexivity].
    intros m Hm. apply Hbelow in Hm. lia.
  - rewrite (seqZ_cons (1 + j)) by lia.
    replace (Z.pred (Z.of_nat (S n))) with (Z.of_nat n) by lia.
    replace (Z.succ (1 + j)) with (1 + (j + 1)) by lia.
    cbn [List.map processBlocks].
    destruct (replayBlock_step st (1 + j) (Scenario.replayHash (1 + j)) Hbelow)
      as (Hseen1 & Hev1 & Hbelow1).
    assert (Hfresh : Ordered.has (Scenario.replayHash (1 + j))
                       (processedTransactions st) = false)
      by (rewrite Hseen; apply replayHash_fresh; lia).
    rewrite (processTransaction_fresh _ _ Hfresh) in Hseen1, Hev1.
    cbn [fst snd] in Hseen1, Hev1.
    assert (Hlen : List.length (processedTransactions st ++ [Scenario.replayHash (1 + j)])
                   = Z.to_nat (j + 1)).
    { rewrite length_app, Hseen, length_map, length_seqZ. simpl. lia. }
    pose proof TX_WINDOW_value as Hwin.
    rewrite (proj2 (Nat.ltb_ge _ _)) in Hseen1 by (rewrite Hlen; lia).
    assert (Hseen1' : processedTransactions
                        (fst (processBlock st
                                (Scenario.replayBlock (1 + j) (Scenario.replayHash (1 + j)))))
                      = List.map Scenario.replayHash (seqZ 1 (j + 1))).
    { rewrite Hseen1, Hseen.
      replace (j + 1) with (Z.of_nat (S (Z.to_nat j))) by lia.
      rewrite seqZ_S, map_app. cbn [List.map].
      replace (Z.of_nat (Z.to_nat j)) with j by lia. reflexivity. }
    destruct (processBlock st _) as [st1 e1]. cbn [fst snd] in *.
    destruct (IH (j + 1) st1 ltac:(lia) Hseen1'
                ltac:(intros m Hm; apply Hbelow1 in Hm; lia) ltac:(lia))
      as (Hseen2 & Hbelow2 & Hev2).
    destruct (processBlocks st1 _) as [st2 e2]. cbn [fst snd] in *.
    split; [|split].
    + rewrite Hseen2. f_equal. f_equal. lia.
    + intros m Hm. apply Hbelow2 in Hm. lia.
    + rewrite emittedHashes_app, Hev1, Hev2. reflexivity.
Qed.

(** C4, as stated, fails on the code: the window of the source is
    [TX_WINDOW = 10000], yet in the replay the transaction of block
    5000 is emitted a second time 5002 emissions after the first.  The
    10 001st hash takes the set over its cap and evicts the oldest 5000
    hashes, that of block 5000 among them, so the set no longer holds
    it when it comes again. *)
Lemma hash_is_emitted_again_within_the_window :
  let hashes := emittedHashes (snd (processBlocks initial Scenario.replay)) in
  hashes !! 4999%nat = Some (Scenario.replayHash 5000)
  /\ hashes !! 10001%nat = Some (Scenario.replayHash 5000)
  /\ (10001 - 4999 <= TX_WINDOW)%nat
  /\ ~ noRepeatWithin TX_WINDOW hashes.
Proof.
  cbv zeta.
  assert (Hhashes : emittedHashes (snd (processBlocks initial Scenario.replay))
                    = List.map Scenario.replayHash (seqZ 1 10001)
                      ++ [Scenario.replayHash 5000]).
  { unfold Scenario.replay.
    replace (seqZ 1 10001) with (seqZ 1 10000 ++ seqZ (1 + 10000) 1)
      by (symmetry; apply (seqZ_app 1 10000 1); lia).
    change (seqZ (1 + 10000) 1) with [10001].
    rewrite map_app, <- app_assoc.
    rewrite processBlocks_app. cbn [snd].
    pose proof (replay_below_cap (Z.to_nat 10000) 0 initial ltac:(lia) eq_refl
                  ltac:(intros m Hm; cbn in Hm; set_solver) ltac:(lia)) as Hrun.
    cbv zeta in Hrun.
    change (Z.of_nat (Z.to_nat 10000)) with 10000 in Hrun.
    change (1 + 0) with 1 in Hrun. change (0 + 10000) with 10000 in Hrun.
    destruct Hrun as (Hseen & Hbelow & Hev).
    destruct (processBlocks initial _) as [st e]. cbn [fst snd] in *.
    rewrite emittedHashes_app, Hev. cbn [List.map app processBlocks].
    (* block 10001: the insertion that overflows *)
    destruct (replayBlock_step st 10001 (Scenario.replayHash 10001)
                ltac:(intros m Hm; apply Hbelow in Hm; lia))
      as (Hseen1 & Hev1 & Hbelow1).
    assert (Hfresh : Ordered.has (Scenario.replayHash 10001) (processedTransactions st) = false)
      by (rewrite Hseen; apply replayHash_fresh; lia).
    rewrite (processTransaction_fresh _ _ Hfresh) in Hseen1, Hev1.
    cbn [fst snd] in Hseen1, Hev1.
    pose proof TX_WINDOW_value as Hwin.
    pose proof TX_WINDOW_half_value as Hhalf.
    assert (Hlen : List.length (processedTransactions st ++ [Scenario.replayHash 10001])
                   = S TX_WINDOW).
    { rewrite length_app, Hseen, length_map, length_seqZ. simpl. lia. }
    rewrite (proj2 (Nat.ltb_lt _ _)) in Hseen1 by (rewrite Hlen; lia).
    assert (Hseen1' : processedTransactions
                        (fst (processBlock st
                                (Scenario.replayBlock 10001 (Scenario.replayHash 10001))))
                      = List.map Scenario.replayHash (seqZ 5001 5001)).
    { rewrite Hseen1, Hseen.
      assert (Hall : List.map Scenario.replayHash (seqZ 1 10000)
                     ++ [Scenario.replayHash 10001]
                     = List.map Scenario.replayHash (seqZ 1 5000)
                       ++ List.map Scenario.replayHash (seqZ 5001 5001)).
      { replace (seqZ 1 10000) with (seqZ 1 5000 ++ seqZ (1 + 5000) 5000)
          by (symmetry; apply (seqZ_app 1 5000 5000); lia).
        replace (seqZ 5001 5001) with (seqZ 5001 5000 ++ seqZ (5001 + 5000) 1)
          by (symmetry; apply (seqZ_app 5001 5000 1); lia).
        rewrite !map_app, <- app_assoc. reflexivity. }
      rewrite Hall. apply drop_app_length'.
      rewrite length_map, length_seqZ. lia. }
    destruct (processBlock st _) as [st1 e1]. cbn [fst snd] in *.
    (* block 10002: the transaction of block 5000 again *)
    destruct (replayBlock_step st1 10002 (Scenario.replayHash 5000)
                ltac:(intros m Hm; apply Hbelow1 in Hm; lia))
      as (_ & Hev2 & _).
    assert (Hgone : Ordered.has (Scenario.replayHash 5000) (processedTransactions st1) = false)
      by (rewrite Hseen1'; apply replayHash_fresh; lia).
    rewrite (processTransaction_fresh _ _ Hgone) in Hev2. cbn [snd] in Hev2.
    destruct (processBlock st1 _) as [st2 e2]. cbn [fst snd] in *.
    rewrite !emittedHashes_app, Hev1, Hev2.
    replace (seqZ 1 10001) with (seqZ 1 10000 ++ seqZ (1 + 10000) 1)
      by (symmetry; apply (seqZ_app 1 10000 1); lia).
    rewrite map_app, <- app_assoc. reflexivity. }
  rewrite Hhashes.
  assert (Hfirst : (List.map Scenario.replayHash (seqZ 1 10001)
                    ++ [Scenario.replayHash 5000]) !! 4999%nat
                   = Some (Scenario.replayHash 5000)).
  { rewrite lookup_app_l
      by (rewrite length_map, length_seqZ; apply Nat.ltb_lt; vm_compute; reflexivity).
    rewrite list_lookup_fmap, lookup_seqZ_lt by (apply Z.ltb_lt; vm_compute; reflexivity).
    reflexivity. }
  assert (Hsecond : (List.map Scenario.replayHash (seqZ 1 10001)
                     ++ [Scenario.replayHash 5000]) !! 10001%nat
                    = Some (Scenario.replayHash 5000)).
  { rewrite lookup_app_r
      by (rewrite length_map, length_seqZ; apply Nat.leb_le; vm_compute; reflexivity).
    rewrite length_map, length_seqZ.
    replace (10001 - Z.to_nat 10001)%nat with 0%nat
      by (symmetry; apply Nat.eqb_eq; vm_compute; reflexivity).
    reflexivity. }
  assert (Hnear : (10001 - 4999 <= TX_WINDOW)%nat)
    by (apply Nat.leb_le; vm_compute; reflexivity).
  split; [exact Hfirst|]. split; [exact Hsecond|]. split; [exact Hnear|].
  intros Hno.
  assert (Hlt : (4999 < 10001)%nat) by (apply Nat.ltb_lt; vm_compute; reflexivity).
  pose proof (Hno 4999%nat 10001%nat _ Hlt Hfirst Hsecond) as Hfar.
  apply Nat.ltb_lt in Hfar. vm_compute in Hfar. discriminate.
Qed.

(** C4, amended: over any sequence of blocks handed to the reader, a
    transaction hash that is still in the processed set is not emitted
    again, and the guaranteed window is half the cap: two emissions of
    one hash are more than [TX_WINDOW / 2 = 5000] emissions apart.  The
    set never exceeds its cap of 10 000 entries, and the insertion that
    would take it over the cap drops the oldest [TX_WINDOW / 2]
    entries, in insertion order, which is the older half of the
    [10 001] entries. *)
Theorem reader_emits_no_duplicate_within_window :
  forall blocks : list Block,
    Spec.noRepeatWithin (TX_WINDOW / 2)
      (emittedHashes (snd (processBlocks initial blocks)))
    /\ (List.length (processedTransactions (fst (processBlocks initial blocks)))
        <= TX_WINDOW)%nat
    /\ (forall seen h,
           Ordered.has h seen = true -> processTransaction seen h = (seen, []))
    /\ (forall seen h,
           Ordered.has h seen = false -> (List.length seen < TX_WINDOW)%nat ->
           processTransaction seen h = (seen ++ [h], [new_transaction h]))
    /\ (forall seen h,
           Ordered.has h seen = false -> List.length seen = TX_WINDOW ->
           processTransaction seen h
           = (skipn (TX_WINDOW / 2) seen ++ [h], [new_transaction h])
           /\ seen = firstn (TX_WINDOW / 2) seen ++ skipn (TX_WINDOW / 2) seen
           /\ List.length (firstn (TX_WINDOW / 2) seen) = (List.length (seen ++ [h]) / 2)%nat)
    /\ (TX_WINDOW = 10000 /\ TX_WINDOW / 2 = 5000)%nat.
Proof.
  intros blocks.
  pose proof (readerInv_blocks blocks initial [] readerInv_initial) as (_ & Hcap & _ & Hwin).
  rewrite app_nil_l in Hwin.
  split; [exact Hwin|]. split; [exact Hcap|].
  split; [exact processTransaction_seen|]. split; [|split].
  - intros seen h Hfresh Hlen. rewrite processTransaction_fresh by assumption.
    destruct (Nat.ltb_spec TX_WINDOW (List.length (seen ++ [h]))) as [Hover|Hfit];
      [|reflexivity].
    rewrite length_app in Hover. simpl in Hover. lia.
  - intros seen h Hfresh Hlen. rewrite processTransaction_fresh by assumption.
    pose proof TX_WINDOW_half_twice as Htwice.
    destruct (Nat.ltb_spec TX_WINDOW (List.length (seen ++ [h]))) as [Hover|Hfit].
    + split; [|split].
      * rewrite skipn_app.
        replace (TX_WINDOW / 2 - List.length seen)%nat with 0%nat by lia.
        reflexivity.
      * now rewrite firstn_skipn.
      * rewrite length_firstn, length_app, Hlen.
        rewrite Nat.min_l by lia.
        apply Nat.eqb_eq. vm_compute. reflexivity.
    + rewrite length_app in Hfit. simpl in Hfit. lia.
  - split; apply Nat.eqb_eq; vm_compute; reflexivity.
Qed.

End ReaderFacts.

(** ** Transaction processor: deduplication *)

Section DedupFacts.
Import Tracer TransactionProcessor Spec.

Lemma SENT_LIMIT_pos : (1 <= SENT_LIMIT)%nat.
Proof. apply Nat.leb_le. vm_compute. reflexivity. Qed.

Lemma dedupKey_truthy (address txHash : string) :
  Js.truthy (dedupKey address txHash) = true.
Proof. unfold dedupKey. destruct address; reflexivity. Qed.

(** The three ways [alreadySent] can go. *)
Lemma alreadySent_cases (s : list string) (address txHash : string) :
  let key := dedupKey address txHash in
  (Ordered.has key s = true /\ alreadySent s address txHash = (true, s))
  \/ (Ordered.has key s = false
      /\ (List.length (s ++ [key]) <= SENT_LIMIT)%nat
      /\ alreadySent s address txHash = (false, s ++ [key]))
  \/ (Ordered.has key s = false
      /\ (SENT_LIMIT < List.length (s ++ [key]))%nat
      /\ exists first rest,
           s ++ [key] = first :: rest
           /\ alreadySent s address txHash
              = (false, if Js.truthy first then rest else s ++ [key])).
Proof.
  intros key. unfold alreadySent. fold key.
  destruct (Ordered.has key s) eqn:Hhas; [left; now split|].
  right.
  destruct (Nat.ltb_spec SENT_LIMIT (List.length (s ++ [key]))) as [Hover|Hfit].
  - right. split; [reflexivity|]. split; [assumption|].
    destruct (s ++ [key]) as [|first rest] eqn:E.
    + destruct s; discriminate.
    + exists first, rest. now split.
  - left. now repeat split.
Qed.

Lemma sentInv_alreadySent (s : list string) (address txHash : string) :
  sentInv s -> sentInv (snd (alreadySent s address txHash)).
Proof.
  intros [Hcap Htruthy].
  destruct (alreadySent_cases s address txHash)
    as [(_ & ->) | [(_ & Hfit & ->) | (_ & Hover & first & rest & E & ->)]];
    cbn [snd].
  - now split.
  - split; [assumption|].
    apply Forall_app. split; [assumption|].
    constructor; [apply dedupKey_truthy | constructor].
  - assert (Hall : Forall (fun k => Js.truthy k = true) (first :: rest)).
    { rewrite <- E. apply Forall_app. split; [assumption|].
      constructor; [apply dedupKey_truthy | constructor]. }
    inversion Hall as [|? ? Hfirst Hrest]; subst.
    rewrite Hfirst. split; [|assumption].
    assert (List.length (first :: rest) = S (List.length s))
      by (rewrite <- E, length_app; simpl; lia).
    simpl in *. lia.
Qed.

(** [process] touches the dedup set through [alreadySent] only. *)
Lemma process_sent (c : Collaborators) (st : State) (address : string)
    (tx : TransactionData) :
  sent (fst (process c st address tx))
  = snd (alreadySent (sent st) address (hash tx)).
Proof.
  unfold process.
  destruct (alreadySent (sent st) address (hash tx)) as [dup sentSet] eqn:E.
  destruct dup.
  - destruct (alreadySent_cases (sent st) address (hash tx))
      as [(_ & H) | [(_ & _ & H) | (_ & _ & ? & ? & _ & H)]];
      rewrite E in H; inversion H; reflexivity.
  - cbn [snd].
    destruct (getWatchers c address); [reflexivity|].
    destruct (resolveSelector c _); [|reflexivity].
    destruct (_ && _); [reflexivity|].
    destruct (build c address tx (decodeFast c tx address) v); [|reflexivity].
    destruct (massSend _ _ _ _ _) as [[n sends] outcome].
    destruct outcome; [|reflexivity].
    destruct (build c address tx (decodeFull c tx address) v); [|reflexivity].
    destruct (massUpdate _ _ _ _ _ _) as [[m edits] outcome']. reflexivity.
Qed.

Lemma process_seen (c : Collaborators) (st : State) (address : string)
    (tx : TransactionData) :
  Ordered.has (dedupKey address (hash tx)) (sent st) = true ->
  process c st address tx = (st, []).
Proof.
  intros Hhas. unfold process, alreadySent. now rewrite Hhas.
Qed.

Lemma sentInv_processAll (c : Collaborators) (items : list (string * TransactionData)) :
  forall st, sentInv (sent st) -> sentInv (sent (fst (processAll c st items))).
Proof.
  induction items as [|[a tx] items IH]; intros st Hinv; [exact Hinv|].
  cbn [processAll].
  pose proof (process_sent c st a tx) as Hs.
  destruct (process c st a tx) as [st1 e1]. cbn [fst] in Hs.
  specialize (IH st1).
  destruct (processAll c st1 items) as [st2 e2]. cbn [fst] in *.
  apply IH. rewrite Hs. now apply sentInv_alreadySent.
Qed.

(** A key with at most [SENT_LIMIT - 2] younger entries survives the
    next call. *)
Lemma alreadySent_keeps (s pre post : list string) (key address txHash : string) :
  s = pre ++ key :: post ->
  (List.length post + 2 <= SENT_LIMIT)%nat ->
  exists pre' post',
    snd (alreadySent s address txHash) = pre' ++ key :: post'
    /\ (List.length post' <= S (List.length post))%nat.
Proof.
  intros Hs Hpost.
  destruct (alreadySent_cases s address txHash)
    as [(_ & ->) | [(_ & Hfit & ->) | (_ & Hover & first & rest & E & ->)]];
    cbn [snd].
  - exists pre, post. split; [assumption | lia].
  - exists pre, (post ++ [dedupKey address txHash]).
    split; [rewrite Hs, <- app_assoc; reflexivity | rewrite length_app; simpl; lia].
  - destruct (Js.truthy first).
    + rewrite Hs, <- app_assoc in E. simpl in E.
      destruct pre as [|p pre'].
      * exfalso. rewrite Hs in Hover.
        rewrite !length_app in Hover. simpl in Hover. lia.
      * simpl in E. injection E as _ <-.
        exists pre', (post ++ [dedupKey address txHash]).
        split; [reflexivity | rewrite length_app; simpl; lia].
    + exists pre, (post ++ [dedupKey address txHash]).
      split; [rewrite Hs, <- app_assoc; reflexivity | rewrite length_app; simpl; lia].
Qed.

Lemma processAll_keeps (c : Collaborators) (key : string)
    (items : list (string * TransactionData)) :
  forall st pre post,
    sent st = pre ++ key :: post ->
    (List.length post + List.length items < SENT_LIMIT)%nat ->
    key ∈ sent (fst (processAll c st items)).
Proof.
  induction items as [|[a tx] items IH]; intros st pre post Hs Hlen.
  - simpl. rewrite Hs. apply elem_of_app. right. left.
  - cbn [processAll].
    pose proof (process_sent c st a tx) as Hp.
    destruct (process c st a tx) as [st1 e1]. cbn [fst] in Hp.
    destruct (alreadySent_keeps (sent st) pre post key a (hash tx) Hs)
      as (pre' & post' & Hs' & Hpost'); [simpl in Hlen; lia|].
    rewrite <- Hp in Hs'.
    specialize (IH st1 pre' post' Hs').
    destruct (processAll c st1 items) as [st2 e2]. cbn [fst] in *.
    apply IH. simpl in Hlen. lia.
Qed.

Lemma alreadySent_inserts (s : list string) (address txHash : string) :
  Ordered.has (dedupKey address txHash) s = false ->
  exists pre, snd (alreadySent s address txHash) = pre ++ [dedupKey address txHash].
Proof.
  intros Hfresh. pose proof SENT_LIMIT_pos as Hpos.
  destruct (alreadySent_cases s address txHash)
    as [(Hhas & _) | [(_ & Hfit & ->) | (_ & Hover & first & rest & E & ->)]];
    cbn [snd].
  - congruence.
  - now exists s.
  - destruct (Js.truthy first); [|now exists s].
    destruct s as [|x s'].
    + simpl in Hover. lia.
    + simpl in E. injection E as _ <-. now exists s'.
Qed.

(** C3: starting from the empty dedup set and after any history of
    processed pairs, once [process] has handled a (watched address,
    transaction hash) pair for the first time, handling the same pair
    again performs no send (and no other request) as long as the key is
    still in the set, which is guaranteed while fewer than 10 000 other
    calls lie in between; the set never holds more than 10 000 keys,
    the oldest one being evicted on overflow. *)
Theorem pair_is_sent_at_most_once_in_window :
  forall (c : Collaborators) (history between : list (string * TransactionData))
         (address : string) (tx : TransactionData),
    (List.length between < SENT_LIMIT)%nat ->
    let st := fst (processAll c initial history) in
    let key := dedupKey address (hash tx) in
    Ordered.has key (sent st) = false ->
    let st1 := fst (process c st address tx) in
    let st2 := fst (processAll c st1 between) in
    process c st2 address tx = (st2, [])
    /\ (forall st', Ordered.has key (sent st') = true ->
                    process c st' address tx = (st', []))
    /\ (List.length (sent st2) <= SENT_LIMIT)%nat
    /\ sent st1
       = (if (SENT_LIMIT <? List.length (sent st ++ [key]))%nat
          then tail (sent st ++ [key]) else sent st ++ [key])
    /\ SENT_LIMIT = 10000%nat.
Proof.
  intros c history between address tx Hbetween st key Hfresh st1 st2.
  assert (Hinv : sentInv (sent st)).
  { apply sentInv_processAll. split; [simpl; lia | constructor]. }
  assert (Hinv1 : sentInv (sent st1)).
  { unfold st1. rewrite process_sent. now apply sentInv_alreadySent. }
  assert (Hinv2 : sentInv (sent st2)) by now apply sentInv_processAll.
  assert (Hseen : forall st', Ordered.has key (sent st') = true ->
                              process c st' address tx = (st', []))
    by (intros st'; apply process_seen).
  split; [|split; [exact Hseen | split; [apply Hinv2 | split]]].
  - apply Hseen. apply has_true_iff.
    destruct (alreadySent_inserts (sent st) address (hash tx) Hfresh) as [pre Hpre].
    apply (processAll_keeps c key between st1 pre []).
    + unfold st1. rewrite process_sent. exact Hpre.
    + simpl. lia.
  - unfold st1. rewrite process_sent. unfold alreadySent. fold key. rewrite Hfresh.
    destruct (Nat.ltb_spec SENT_LIMIT (List.length (sent st ++ [key]))) as [Hover|Hfit];
      [|reflexivity].
    destruct (sent st ++ [key]) as [|first rest] eqn:E; [reflexivity|].
    cbn [snd tail].
    assert (Hall : Forall (fun k => Js.truthy k = true) (first :: rest)).
    { rewrite <- E. apply Forall_app. split; [apply Hinv|].
      constructor; [apply dedupKey_truthy | constructor]. }
    inversion Hall as [|? ? Hfirst _]; subst. now rewrite Hfirst.
  - apply Nat.eqb_eq. vm_compute. reflexivity.
Qed.

End DedupFacts.

(** ** Objects used as maps *)

Section RecordFacts.
Context {V : Type}.
Implicit Types (r : Ordered.record V) (k : string) (v : V).

Lemma get_set_eq r k v : Ordered.get k (Ordered.set k v r) = Some v.
Proof.
  induction r as [|[k' v'] r IH]; simpl.
  - now rewrite String.eqb_refl.
  - destruct (String.eqb k k') eqn:E; simpl; rewrite ?String.eqb_refl, ?E; auto.
Qed.

Lemma get_set_ne r k k' v : k <> k' -> Ordered.get k' (Ordered.set k v r) = Ordered.get k' r.
Proof.
  intros Hne. induction r as [|[k0 v0] r IH]; simpl.
  - destruct (String.eqb_spec k' k); [congruence | reflexivity].
  - destruct (String.eqb_spec k k0) as [->|Hk]; simpl.
    + destruct (String.eqb_spec k' k0); [congruence | reflexivity].
    + destruct (String.eqb_spec k' k0); [reflexivity | exact IH].
Qed.

Lemma get_Some_keys r k v : Ordered.get k r = Some v -> k ∈ Ordered.keys r.
Proof.
  induction r as [|[k' v'] r IH]; simpl; [discriminate|].
  destruct (String.eqb_spec k k') as [->|Hk]; intros H.
  - left.
  - right. now apply IH.
Qed.

Lemma keys_get_Some r k : k ∈ Ordered.keys r -> exists v, Ordered.get k r = Some v.
Proof.
  induction r as [|[k' v'] r IH]; simpl; intros Hin.
  - inversion Hin.
  - destruct (String.eqb_spec k k') as [->|Hk]; [eauto|].
    apply IH. inversion Hin; subst; [congruence | assumption].
Qed.

Lemma get_In r k v : Ordered.get k r = Some v -> (k, v) ∈ r.
Proof.
  induction r as [|[k' v'] r IH]; simpl; [discriminate|].
  destruct (String.eqb_spec k k') as [->|Hk]; intros H.
  - injection H as ->. left.
  - right. now apply IH.
Qed.

Lemma keys_set r k v :
  Ordered.keys (Ordered.set k v r)
  = if Ordered.mem k r then Ordered.keys r else Ordered.keys r ++ [k].
Proof.
  unfold Ordered.mem. induction r as [|[k' v'] r IH]; simpl; [reflexivity|].
  destruct (String.eqb_spec k k') as [->|Hk]; simpl; [reflexivity|].
  rewrite IH. destruct (Ordered.get k r); reflexivity.
Qed.

Lemma NoDup_keys_set r k v :
  NoDup (Ordered.keys r) -> NoDup (Ordered.keys (Ordered.set k v r)).
Proof.
  intros Hnd. rewrite keys_set. unfold Ordered.mem.
  destruct (Ordered.get k r) eqn:E; [assumption|].
  apply NoDup_app. split; [assumption|]. split.
  - intros x Hx Hk. apply list_elem_of_singleton in Hk. subst x.
    apply keys_get_Some in Hx. destruct Hx as [w Hw]. congruence.
  - apply NoDup_singleton.
Qed.

Lemma set_fresh r k v :
  k ∉ Ordered.keys r -> Ordered.set k v r = r ++ [(k, v)].
Proof.
  induction r as [|[k' v'] r IH]; simpl; intros Hk; [reflexivity|].
  destruct (String.eqb_spec k k') as [->|Hne].
  - exfalso. apply Hk. left.
  - rewrite IH; [reflexivity|]. intros Hin. apply Hk. now right.
Qed.

Lemma get_None_keys r k : Ordered.get k r = None -> k ∉ Ordered.keys r.
Proof.
  intros Hnone Hin. apply keys_get_Some in Hin as [v Hv]. congruence.
Qed.

(** A record is the list of its keys, each with its value. *)
Lemma record_of_keys (d : V) r :
  NoDup (Ordered.keys r) ->
  List.map (fun k => (k, default d (Ordered.get k r))) (Ordered.keys r) = r.
Proof.
  induction r as [|[k v] r IH]; intros Hnd; [reflexivity|].
  cbn [Ordered.keys List.map fst] in *. apply NoDup_cons in Hnd as [Hk Hnd].
  cbn [Ordered.get]. rewrite String.eqb_refl. cbn [default]. f_equal.
  rewrite <- (IH Hnd) at 2. apply map_ext_in. intros k' Hk'.
  apply list_elem_of_In in Hk'.
  destruct (String.eqb_spec k' k) as [->|_]; [contradiction | reflexivity].
Qed.

End RecordFacts.

(** ** Transaction processor: the send-then-edit protocol *)

Section TwoPhaseFacts.
Import Tracer Sql TransactionProcessor Spec.
Variable c : Collaborators.

Lemma massSendLoop_sends ids watchers msg out acc n :
  Forall (fun e => isSend e = true)
    (snd (fst (massSendLoop c ids watchers msg out acc n))).
Proof.
  revert acc n. induction ids as [|id ids IH]; intros acc n; simpl; [constructor|].
  destruct (splitId id) as [chatIdRaw botId].
  destruct (Ordered.get id watchers) as [watcher|]; [|constructor].
  destruct (negb (passesGate c out watcher botId)); [apply IH|].
  destruct (TelegramQueue.tooLong _); [constructor|].
  destruct (sendAnswer c n) as [M|reason].
  - specialize (IH (if M =? 0 then acc else Ordered.set id M acc) (S n)).
    destruct (massSendLoop c ids watchers msg out _ (S n)) as [[n' effects] r].
    simpl in *. constructor; [reflexivity | exact IH].
  - simpl. repeat constructor.
Qed.

(** Every entry of the map returned by [massSend] records the answer
    to a request made for that very subscriber. *)
Lemma massSendLoop_map ids watchers msg out :
  forall acc n n' sends final,
    massSendLoop c ids watchers msg out acc n = (n', sends, Ok final) ->
    forall id M,
      Ordered.get id final = Some M ->
      Ordered.get id acc = Some M
      \/ exists k text,
           sends !! k
           = Some (SendMessage id (snd (splitId id)) (chatIdOf (fst (splitId id)))
                     text (msgButtons msg))
           /\ sendAnswer c (n + k) = Fulfilled M
           /\ M <> 0.
Proof.
  induction ids as [|id0 ids IH]; intros acc n n' sends final Hrun id M Hget.
  - simpl in Hrun. injection Hrun as <- <- <-. now left.
  - simpl in Hrun.
    destruct (splitId id0) as [chatIdRaw botId] eqn:Hsplit.
    destruct (Ordered.get id0 watchers) as [watcher|]; [|discriminate].
    destruct (negb (passesGate c out watcher botId)); [eapply IH; eauto|].
    destruct (TelegramQueue.tooLong _); [discriminate|].
    destruct (sendAnswer c n) as [M0|reason] eqn:Hans; [|discriminate].
    destruct (massSendLoop c ids watchers msg out _ (S n)) as [[n1 effects] r] eqn:Hrec.
    injection Hrun as <- <- ->.
    destruct (IH _ _ _ _ _ Hrec id M Hget) as [Hacc | (k & text & Hk & Hanswer & Hnz)].
    + destruct (Z.eqb_spec M0 0) as [->|Hnz]; [now left|].
      destruct (String.eqb_spec id0 id) as [->|Hne].
      * rewrite get_set_eq in Hacc. injection Hacc as ->.
        right. exists 0%nat, (Js.replaceFirst "$$NAME$$" (name watcher) (msgText msg)).
        rewrite Hsplit, Nat.add_0_r. simpl. now repeat split.
      * rewrite get_set_ne in Hacc by assumption. now left.
    + right. exists (S k), text. simpl.
      replace (n + S k)%nat with (S n + k)%nat by lia. now repeat split.
Qed.

(** Every edit is addressed from an entry of the map it was given. *)
Lemma massUpdateLoop_edits ids watchers msg sentMap out :
  forall n e,
    e ∈ snd (fst (massUpdateLoop c ids watchers msg sentMap out n)) ->
    exists id text,
      id ∈ ids
      /\ e = EditMessage id (snd (splitId id)) (chatIdOf (fst (splitId id)))
               (default 0 (Ordered.get id sentMap)) text (msgButtons msg).
Proof.
  induction ids as [|id0 ids IH]; intros n e Hin; simpl in Hin.
  - inversion Hin.
  - destruct (splitId id0) as [chatIdRaw botId] eqn:Hsplit.
    destruct (Ordered.get id0 watchers) as [watcher|]; [|inversion Hin].
    destruct (negb (passesGate c out watcher botId)).
    { destruct (IH _ _ Hin) as (id & text & Hid & ->).
      exists id, text. split; [now right | reflexivity]. }
    destruct (TelegramQueue.tooLong _); [inversion Hin|].
    assert (Hhere : forall rest,
               e ∈ EditMessage id0 botId (chatIdOf chatIdRaw)
                      (default 0 (Ordered.get id0 sentMap))
                      (Js.replaceFirst "$$NAME$$" (name watcher) (msgText msg))
                      (msgButtons msg) :: rest ->
               (forall e', e' ∈ rest -> exists id text, id ∈ ids /\
                   e' = EditMessage id (snd (splitId id)) (chatIdOf (fst (splitId id)))
                          (default 0 (Ordered.get id sentMap)) text (msgButtons msg)) ->
               exists id text, id ∈ id0 :: ids /\
                   e = EditMessage id (snd (splitId id)) (chatIdOf (fst (splitId id)))
                         (default 0 (Ordered.get id sentMap)) text (msgButtons msg)).
    { intros rest Hin' Hrest. inversion Hin' as [|? ? ? Hin'']; subst.
      - exists id0, (Js.replaceFirst "$$NAME$$" (name watcher) (msgText msg)).
        rewrite Hsplit. split; [left | reflexivity].
      - destruct (Hrest _ Hin'') as (id & text & Hid & ->).
        exists id, text. split; [now right | reflexivity]. }
    destruct (editAnswer c n) as [b|reason].
    + specialize (IH (S n)).
      destruct (massUpdateLoop c ids watchers msg sentMap out (S n)) as [[n' effects] r].
      simpl in *. apply (Hhere effects Hin). intros e' He'. now apply IH.
    + simpl in Hin. apply (Hhere [] Hin). intros e' He'. inversion He'.
Qed.

Lemma massUpdateLoop_edits_only ids watchers msg sentMap out n :
  Forall (fun e => isSend e = false)
    (snd (fst (massUpdateLoop c ids watchers msg sentMap out n))).
Proof.
  apply Forall_forall. intros e He.
  destruct (massUpdateLoop_edits _ _ _ _ _ _ _ He) as (id & text & _ & ->).
  reflexivity.
Qed.

Lemma massSendLoop_subscribers ids watchers msg out :
  forall acc n,
    List.map subscriber (snd (fst (massSendLoop c ids watchers msg out acc n)))
      `sublist_of` ids.
Proof.
  induction ids as [|id ids IH]; intros acc n; simpl; [constructor|].
  destruct (splitId id) as [chatIdRaw botId].
  destruct (Ordered.get id watchers) as [watcher|]; [|apply sublist_nil_l].
  destruct (negb (passesGate c out watcher botId)); [apply sublist_cons, IH|].
  destruct (TelegramQueue.tooLong _); [apply sublist_nil_l|].
  destruct (sendAnswer c n) as [M|reason].
  - specialize (IH (if M =? 0 then acc else Ordered.set id M acc) (S n)).
    destruct (massSendLoop c ids watchers msg out _ (S n)) as [[n' effects] r].
    simpl in *. now apply sublist_skip.
  - simpl. apply sublist_skip, sublist_nil_l.
Qed.

Lemma massUpdateLoop_subscribers ids watchers msg sentMap out :
  forall n,
    List.map subscriber (snd (fst (massUpdateLoop c ids watchers msg sentMap out n)))
      `sublist_of` ids.
Proof.
  induction ids as [|id ids IH]; intros n; simpl; [constructor|].
  destruct (splitId id) as [chatIdRaw botId].
  destruct (Ordered.get id watchers) as [watcher|]; [|apply sublist_nil_l].
  destruct (negb (passesGate c out watcher botId)); [apply sublist_cons, IH|].
  destruct (TelegramQueue.tooLong _); [apply sublist_nil_l|].
  destruct (editAnswer c n) as [b|reason].
  - specialize (IH (S n)).
    destruct (massUpdateLoop c ids watchers msg sentMap out (S n)) as [[n' effects] r].
    simpl in *. now apply sublist_skip.
  - simpl. apply sublist_skip, sublist_nil_l.
Qed.

Lemma massSendLoop_NoDup ids watchers msg out :
  forall acc n n' sends final,
    massSendLoop c ids watchers msg out acc n = (n', sends, Ok final) ->
    NoDup (Ordered.keys acc) -> NoDup (Ordered.keys final).
Proof.
  induction ids as [|id ids IH]; intros acc n n' sends final Hrun Hnd; simpl in Hrun.
  - now injection Hrun as <- <- <-.
  - destruct (splitId id) as [chatIdRaw botId].
    destruct (Ordered.get id watchers) as [watcher|]; [|discriminate].
    destruct (negb (passesGate c out watcher botId)); [eapply IH; eauto|].
    destruct (TelegramQueue.tooLong _); [discriminate|].
    destruct (sendAnswer c n) as [M|reason]; [|discriminate].
    destruct (massSendLoop c ids watchers msg out _ (S n)) as [[n1 effects] r] eqn:Hrec.
    injection Hrun as <- <- ->.
    eapply IH; [exact Hrec|].
    destruct (M =? 0); [assumption | now apply NoDup_keys_set].
Qed.

Lemma getWatchers_NoDup (address : string) :
  NoDup (Ordered.keys (getWatchers c address)).
Proof.
  unfold getWatchers.
  generalize (default [] (watchlist c !! address)). intros watchers.
  assert (H : forall acc : Ordered.record WatchlistEntry,
             NoDup (Ordered.keys acc) ->
             NoDup (Ordered.keys
               (fold_left (fun result kv =>
                  if decide (snd (splitId (fst kv)) ∈ bots c)
                  then Ordered.set (fst kv) (snd kv) result else result)
                  watchers acc))).
  { induction watchers as [|kv watchers IH]; intros acc Hacc; simpl; [assumption|].
    apply IH. destruct (decide _); [now apply NoDup_keys_set | assumption]. }
  apply H. constructor.
Qed.

(** The map returned by the send loop is the map it was given followed
    by the acknowledged sends, and each of these subscribers is a
    watcher that passes the gate. *)
Lemma massSendLoop_acknowledged ids watchers msg out :
  forall acc n n' sends final,
    massSendLoop c ids watchers msg out acc n = (n', sends, Ok final) ->
    NoDup ids ->
    (forall id, id ∈ ids -> Ordered.get id acc = None) ->
    final = acc ++ acknowledged c n sends
    /\ Forall (fun kv => exists watcher,
                  Ordered.get (fst kv) watchers = Some watcher
                  /\ passesGate c out watcher (snd (splitId (fst kv))) = true)
         (acknowledged c n sends).
Proof.
  induction ids as [|id ids IH]; intros acc n n' sends final Hrun Hnd Hfresh;
    simpl in Hrun.
  - injection Hrun as <- <- <-. cbn [acknowledged]. rewrite app_nil_r.
    split; [reflexivity | constructor].
  - apply NoDup_cons in Hnd as [Hid Hnd].
    destruct (splitId id) as [chatIdRaw botId] eqn:Hsplit.
    destruct (Ordered.get id watchers) as [watcher|] eqn:Hwatcher; [|discriminate].
    destruct (passesGate c out watcher botId) eqn:Hgate; cbn [negb] in Hrun;
      [|apply (IH _ _ _ _ _ Hrun Hnd); intros id' Hid'; apply Hfresh; now right].
    destruct (TelegramQueue.tooLong _); [discriminate|].
    destruct (sendAnswer c n) as [M|reason] eqn:Hans; [|discriminate].
    destruct (massSendLoop c ids watchers msg out _ (S n)) as [[n1 effects] r] eqn:Hrec.
    injection Hrun as <- <- ->.
    cbn [acknowledged subscriber]. rewrite Hans.
    destruct (Z.eqb_spec M 0) as [->|Hnz].
    + apply (IH _ _ _ _ _ Hrec Hnd). intros id' Hid'. apply Hfresh. now right.
    + destruct (IH _ _ _ _ _ Hrec Hnd) as [Hfinal Hgates].
      { intros id' Hid'. rewrite get_set_ne by (intros ->; contradiction).
        apply Hfresh. now right. }
      split.
      * rewrite Hfinal, set_fresh by (apply get_None_keys, Hfresh; left).
        now rewrite <- app_assoc.
      * constructor; [|exact Hgates]. exists watcher. cbn [fst].
        rewrite Hsplit. now split.
Qed.

(** The send loop runs to its end when every watcher's text is within
    the limit and no send is rejected. *)
Lemma massSendLoop_completes ids watchers msg out :
  (forall id, id ∈ ids -> exists watcher, Ordered.get id watchers = Some watcher) ->
  (forall id watcher,
     Ordered.get id watchers = Some watcher ->
     TelegramQueue.tooLong (Js.replaceFirst "$$NAME$$" (name watcher) (msgText msg))
     = false) ->
  forall acc n,
    allFulfilled (sendAnswer c) n
      (List.length (snd (fst (massSendLoop c ids watchers msg out acc n)))) ->
    exists final, snd (massSendLoop c ids watchers msg out acc n) = Ok final.
Proof.
  intros Hwatchers Hfits. induction ids as [|id ids IH]; intros acc n Hall; simpl in *.
  - now exists acc.
  - destruct (splitId id) as [chatIdRaw botId].
    destruct (Hwatchers id ltac:(left)) as [watcher Hwatcher]. rewrite Hwatcher in *.
    assert (Hrest : forall id', id' ∈ ids ->
                      exists watcher', Ordered.get id' watchers = Some watcher')
      by (intros id' Hid'; apply Hwatchers; now right).
    destruct (negb (passesGate c out watcher botId)); [now apply IH|].
    rewrite (Hfits id watcher Hwatcher) in *.
    destruct (sendAnswer c n) as [M|reason] eqn:Hans.
    + specialize (IH Hrest (if M =? 0 then acc else Ordered.set id M acc) (S n)).
      destruct (massSendLoop c ids watchers msg out _ (S n)) as [[n1 effects] r].
      cbn [fst snd List.length] in *. apply IH.
      intros k Hk. destruct (Hall (S k) ltac:(lia)) as [v Hv].
      exists v. now replace (S n + k)%nat with (n + S k)%nat by lia.
    + cbn [fst snd List.length] in Hall.
      destruct (Hall 0%nat ltac:(lia)) as [v Hv].
      rewrite Nat.add_0_r in Hv. congruence.
Qed.

(** The edits follow the keys of the map, in order, each with the
    message id the map holds, up to the first edit that is refused; no
    key is left out when the texts are within the limit and no edit is
    rejected. *)
Lemma massUpdateLoop_targets ids watchers msg sentMap out :
  (forall id, id ∈ ids ->
     exists watcher,
       Ordered.get id watchers = Some watcher
       /\ passesGate c out watcher (snd (splitId id)) = true) ->
  forall n,
    let edits := snd (fst (massUpdateLoop c ids watchers msg sentMap out n)) in
    let all := List.map (fun id => (id, default 0 (Ordered.get id sentMap))) ids in
    List.map target edits `prefix_of` all
    /\ ((forall id watcher,
           Ordered.get id watchers = Some watcher ->
           TelegramQueue.tooLong
             (Js.replaceFirst "$$NAME$$" (name watcher) (msgText msg)) = false) ->
        allFulfilled (editAnswer c) n (List.length edits) ->
        List.map target edits = all).
Proof.
  intros Hgates. induction ids as [|id ids IH]; intros n; cbv zeta; simpl.
  - split; [reflexivity | auto].
  - destruct (Hgates id ltac:(left)) as (watcher & Hwatcher & Hgate).
    destruct (splitId id) as [chatIdRaw botId] eqn:Hsplit.
    rewrite Hwatcher. cbn [snd] in Hgate. rewrite Hgate. cbn [negb].
    assert (Hrest : forall id', id' ∈ ids ->
                      exists watcher',
                        Ordered.get id' watchers = Some watcher'
                        /\ passesGate c out watcher' (snd (splitId id')) = true)
      by (intros id' Hid'; apply Hgates; now right).
    specialize (IH Hrest (S n)). cbv zeta in IH.
    destruct (TelegramQueue.tooLong _) eqn:Hlong.
    { cbn [fst snd List.map]. split; [apply prefix_nil|].
      intros Hfits _. rewrite (Hfits id watcher Hwatcher) in Hlong. discriminate. }
    destruct (editAnswer c n) as [b|reason] eqn:Hans.
    + destruct (massUpdateLoop c ids watchers msg sentMap out (S n)) as [[n1 effects] r].
      cbn [fst snd List.map target List.length] in *.
      destruct IH as [Hprefix Hfull]. split; [now apply prefix_cons|].
      intros Hfits Hall. f_equal. apply Hfull; [exact Hfits|].
      intros k Hk. destruct (Hall (S k) ltac:(lia)) as [v Hv].
      exists v. now replace (S n + k)%nat with (n + S k)%nat by lia.
    + cbn [fst snd List.map target List.length].
      split; [apply prefix_cons, prefix_nil|].
      intros _ Hall. destruct (Hall 0%nat ltac:(lia)) as [v Hv].
      rewrite Nat.add_0_r in Hv. congruence.
Qed.

(** C2: the requests of one [process] call are the sends of the fast
    phase followed by the edits of the full phase, and every edit names
    the subscriber of one of those sends (same watcher id, same bot,
    same chat) together with the message id that the queue returned
    for that send: the edit uses the map returned by the send batch.
    Conversely the edits follow that map: their subscribers and message
    ids are, in order, those of the sends that were fulfilled with a
    message id, up to the first edit that is refused; and when no send
    and no edit is rejected, the texts are within the limit of the
    queue and the full message builds, every such send is followed by
    its edit. *)
Theorem edit_addresses_the_sent_message :
  forall (st : State) (address : string) (tx : TransactionData),
  exists sends edits : list Effect,
    snd (process c st address tx) = sends ++ edits
    /\ Forall (fun e => isSend e = true) sends
    /\ Forall (fun e => isSend e = false) edits
    /\ NoDup (List.map subscriber sends)
    /\ NoDup (List.map subscriber edits)
    /\ (forall id bot chat M text buttons,
          EditMessage id bot chat M text buttons ∈ edits ->
          exists k text' buttons',
            sends !! k = Some (SendMessage id bot chat text' buttons')
            /\ sendAnswer c (sendCount st + k) = Fulfilled M)
    /\ List.map target edits `prefix_of` acknowledged c (sendCount st) sends
    /\ (allFulfilled (sendAnswer c) (sendCount st) (List.length sends) ->
        allFulfilled (editAnswer c) (editCount st) (List.length edits) ->
        fits c address tx ->
        fullBuilds c address tx ->
        List.map target edits = acknowledged c (sendCount st) sends).
Proof.
  intros st address tx.
  assert (Hnone : exists sends edits : list Effect,
             @nil Effect = sends ++ edits
             /\ Forall (fun e => isSend e = true) sends
             /\ Forall (fun e => isSend e = false) edits
             /\ NoDup (List.map subscriber sends)
             /\ NoDup (List.map subscriber edits)
             /\ (forall id bot chat M text buttons,
                   EditMessage id bot chat M text buttons ∈ edits ->
                   exists k text' buttons',
                     sends !! k = Some (SendMessage id bot chat text' buttons')
                     /\ sendAnswer c (sendCount st + k) = Fulfilled M)
             /\ List.map target edits `prefix_of` acknowledged c (sendCount st) sends
             /\ (allFulfilled (sendAnswer c) (sendCount st) (List.length sends) ->
                 allFulfilled (editAnswer c) (editCount st) (List.length edits) ->
                 fits c address tx ->
                 fullBuilds c address tx ->
                 List.map target edits = acknowledged c (sendCount st) sends)).
  { exists [], []. repeat split; try constructor.
    - intros ? ? ? ? ? ? H. inversion H.
    - apply prefix_nil. }
  unfold process.
  destruct (alreadySent (sent st) address (hash tx)) as [dup sentSet].
  destruct dup; [exact Hnone|].
  destruct (getWatchers c address) as [|w ws] eqn:Hw; [exact Hnone|].
  rewrite <- Hw. clear Hw.
  destruct (resolveSelector c _) as [signature|] eqn:Hsig; [|exact Hnone].
  destruct (_ && _); [exact Hnone|].
  destruct (build c address tx (decodeFast c tx address) signature) as [fastMsg|] eqn:Hfast;
    [|exact Hnone].
  cbn [sendCount editCount].
  set (watchers := getWatchers c address).
  set (out := String.eqb address (from tx)).
  assert (Hkeys : forall id, id ∈ Ordered.keys watchers ->
                    exists watcher, Ordered.get id watchers = Some watcher)
    by (intros id Hid; now apply keys_get_Some).
  pose proof (massSendLoop_sends (Ordered.keys watchers) watchers fastMsg out []
                (sendCount st)) as Hsends.
  pose proof (massSendLoop_subscribers (Ordered.keys watchers) watchers fastMsg out []
                (sendCount st)) as Hsub.
  pose proof (massSendLoop_NoDup (Ordered.keys watchers) watchers fastMsg out []
                (sendCount st)) as Hndmap.
  pose proof (massSendLoop_map (Ordered.keys watchers) watchers fastMsg out []
                (sendCount st)) as Hmap.
  pose proof (massSendLoop_acknowledged (Ordered.keys watchers) watchers fastMsg out []
                (sendCount st)) as Hack.
  pose proof (fun Hfits =>
                massSendLoop_completes (Ordered.keys watchers) watchers fastMsg out
                  Hkeys Hfits [] (sendCount st)) as Hcomplete.
  unfold massSend.
  destruct (massSendLoop c _ _ fastMsg _ [] (sendCount st)) as [[n sends] outcome].
  cbn [fst snd] in Hsends, Hsub, Hcomplete.
  assert (Hnds : NoDup (List.map subscriber sends)).
  { eapply sublist_NoDup; [apply getWatchers_NoDup | exact Hsub]. }
  assert (Honly : (allFulfilled (sendAnswer c) (sendCount st) (List.length sends) ->
                   fits c address tx -> fullBuilds c address tx ->
                   acknowledged c (sendCount st) sends = []) ->
           exists sends0 edits : list Effect,
             sends = sends0 ++ edits
             /\ Forall (fun e => isSend e = true) sends0
             /\ Forall (fun e => isSend e = false) edits
             /\ NoDup (List.map subscriber sends0)
             /\ NoDup (List.map subscriber edits)
             /\ (forall id bot chat M text buttons,
                   EditMessage id bot chat M text buttons ∈ edits ->
                   exists k text' buttons',
                     sends0 !! k = Some (SendMessage id bot chat text' buttons')
                     /\ sendAnswer c (sendCount st + k) = Fulfilled M)
             /\ List.map target edits `prefix_of` acknowledged c (sendCount st) sends0
             /\ (allFulfilled (sendAnswer c) (sendCount st) (List.length sends0) ->
                 allFulfilled (editAnswer c) (editCount st) (List.length edits) ->
                 fits c address tx ->
                 fullBuilds c address tx ->
                 List.map target edits = acknowledged c (sendCount st) sends0)).
  { intros Hempty. exists sends, []. rewrite app_nil_r.
    repeat split; try assumption; try constructor.
    - intros ? ? ? ? ? ? H. inversion H.
    - apply prefix_nil.
    - intros Hall _ Hfits Hfull. symmetry. now apply Hempty. }
  destruct outcome as [sentMap|].
  2:{ apply Honly. intros Hall Hfits _.
      destruct (Hcomplete (fun id watcher =>
                             Hfits signature fastMsg id watcher Hsig (or_introl Hfast))
                          Hall) as [final Hfinal].
      discriminate. }
  destruct (build c address tx (decodeFull c tx address) signature) as [fullMsg|] eqn:Hfull.
  2:{ apply Honly. intros _ _ Hbuilds. destruct (Hbuilds signature Hsig) as [msg Hmsg].
      congruence. }
  clear Honly Hcomplete.
  destruct (Hack _ _ _ eq_refl (getWatchers_NoDup address) ltac:(reflexivity))
    as [Hfinal Hgates].
  rewrite app_nil_l in Hfinal.
  assert (Hndkeys : NoDup (Ordered.keys sentMap))
    by (eapply Hndmap; [reflexivity | constructor]).
  assert (Hids : forall id, id ∈ Ordered.keys sentMap ->
                   exists watcher,
                     Ordered.get id watchers = Some watcher
                     /\ passesGate c out watcher (snd (splitId id)) = true).
  { intros id Hid. apply keys_get_Some in Hid as [M Hget]. apply get_In in Hget.
    rewrite Hfinal in Hget. rewrite Forall_forall in Hgates.
    exact (Hgates _ Hget). }
  unfold massUpdate.
  pose proof (massUpdateLoop_edits (Ordered.keys sentMap) watchers
                fullMsg sentMap out (editCount st)) as Hedits.
  pose proof (massUpdateLoop_subscribers (Ordered.keys sentMap) watchers
                fullMsg sentMap out (editCount st)) as Hesub.
  pose proof (massUpdateLoop_edits_only (Ordered.keys sentMap) watchers
                fullMsg sentMap out (editCount st)) as Heonly.
  pose proof (massUpdateLoop_targets (Ordered.keys sentMap) watchers
                fullMsg sentMap out Hids (editCount st)) as Htargets.
  cbv zeta in Htargets. rewrite (record_of_keys 0 sentMap Hndkeys) in Htargets.
  destruct (massUpdateLoop c _ _ fullMsg sentMap _ (editCount st)) as [[m edits] r].
  cbn [fst snd] in *.
  destruct Htargets as [Hprefix Hall].
  exists sends, edits. split; [reflexivity|]. split; [assumption|]. split; [assumption|].
  split; [assumption|]. split.
  { eapply sublist_NoDup; [exact Hndkeys | exact Hesub]. }
  split; [|split].
  - intros id bot chat M text buttons Hin.
    destruct (Hedits _ Hin) as (id' & text' & Hid & Heq).
    injection Heq as -> -> -> -> -> ->.
    destruct (keys_get_Some _ _ Hid) as [M Hget]. rewrite Hget. cbn [default].
    destruct (Hmap _ _ _ eq_refl _ _ Hget) as [Hnil | (k & text0 & Hk & Hans & _)];
      [discriminate|].
    exists k, text0, (msgButtons fastMsg). now split.
  - now rewrite <- Hfinal.
  - intros _ Hedit Hfits _. rewrite <- Hfinal. apply Hall; [|exact Hedit].
    intros id watcher Hwatcher.
    exact (Hfits signature fullMsg id watcher Hsig (or_intror Hfull) Hwatcher).
Qed.

End TwoPhaseFacts.

(** ** Trimming *)

Section TrimFacts.

(** Induction along the recursion of [trimStart]. *)
Lemma trimStart_induction (P : string -> Prop) :
  (forall b0 r0, Js.isSpace b0 = true -> P r0 -> P (String b0 r0)) ->
  (forall b0 b1 r1,
     Js.isSpace b0 = false -> Js.isSpace2 b0 b1 = true ->
     P r1 -> P (String b0 (String b1 r1))) ->
  (forall b0 b1 b2 r2,
     Js.isSpace b0 = false -> Js.isSpace2 b0 b1 = false ->
     Js.isSpace3 b0 b1 b2 = true ->
     P r2 -> P (String b0 (String b1 (String b2 r2)))) ->
  (forall s, Spec.startsBlank s = false -> P s) ->
  forall s, P s.
Proof.
  intros H1 H2 H3 H0.
  assert (Hn : forall n s, (String.length s <= n)%nat -> P s).
  { induction n as [|n IH]; intros s Hlen.
    - destruct s; [apply H0; reflexivity | simpl in Hlen; lia].
    - destruct s as [|b0 r0]; [apply H0; reflexivity|].
      simpl in Hlen.
      destruct (Js.isSpace b0) eqn:E0; [apply H1; [exact E0 | apply IH; lia]|].
      destruct r0 as [|b1 r1]; [apply H0; simpl; now rewrite E0|].
      simpl in Hlen.
      destruct (Js.isSpace2 b0 b1) eqn:E1;
        [apply H2; [exact E0 | exact E1 | apply IH; lia]|].
      destruct r1 as [|b2 r2]; [apply H0; simpl; now rewrite E0, E1|].
      simpl in Hlen.
      destruct (Js.isSpace3 b0 b1 b2) eqn:E2;
        [apply H3; [exact E0 | exact E1 | exact E2 | apply IH; lia]|].
      apply H0. simpl. now rewrite E0, E1, E2. }
  intros s. now apply (Hn (String.length s)).
Qed.

Lemma trimStart_fixed (s : string) :
  Spec.startsBlank s = false -> Js.trimStart s = s.
Proof.
  destruct s as [|b0 [|b1 [|b2 r2]]]; simpl; intros H; [reflexivity| | |].
  - rewrite orb_false_r in H. now rewrite H.
  - apply orb_false_elim in H as [E0 E1]. rewrite orb_false_r in E1.
    now rewrite E0, E1.
  - apply orb_false_elim in H as [E0 H]. apply orb_false_elim in H as [E1 E2].
    now rewrite E0, E1, E2.
Qed.

Lemma trimStart_space (b0 : ascii) (r0 : string) :
  Js.isSpace b0 = true -> Js.trimStart (String b0 r0) = Js.trimStart r0.
Proof. intros E. simpl. now rewrite E. Qed.

Lemma trimStart_space2 (b0 b1 : ascii) (r1 : string) :
  Js.isSpace b0 = false -> Js.isSpace2 b0 b1 = true ->
  Js.trimStart (String b0 (String b1 r1)) = Js.trimStart r1.
Proof. intros E0 E1. simpl. now rewrite E0, E1. Qed.

Lemma trimStart_space3 (b0 b1 b2 : ascii) (r2 : string) :
  Js.isSpace b0 = false -> Js.isSpace2 b0 b1 = false ->
  Js.isSpace3 b0 b1 b2 = true ->
  Js.trimStart (String b0 (String b1 (String b2 r2))) = Js.trimStart r2.
Proof. intros E0 E1 E2. simpl. now rewrite E0, E1, E2. Qed.

(** What [trimStart] leaves does not begin with white space. *)
Lemma trimStart_startsBlank (s : string) :
  Spec.startsBlank (Js.trimStart s) = false.
Proof.
  induction s using trimStart_induction.
  - now rewrite trimStart_space.
  - now rewrite trimStart_space2.
  - now rewrite trimStart_space3.
  - now rewrite trimStart_fixed.
Qed.

Lemma trimStart_idem (s : string) :
  Js.trimStart (Js.trimStart s) = Js.trimStart s.
Proof. apply trimStart_fixed, trimStart_startsBlank. Qed.

(** Leading white space is dropped whatever follows it. *)
Lemma trimStart_blank_app (x y : string) :
  Js.blank x = true -> Js.trimStart (x +:+ y) = Js.trimStart y.
Proof.
  unfold Js.blank. induction x using trimStart_induction; intros Hx.
  - change (String b0 x +:+ y) with (String b0 (x +:+ y)).
    rewrite trimStart_space in * by assumption. auto.
  - change (String b0 (String b1 x) +:+ y) with (String b0 (String b1 (x +:+ y))).
    rewrite trimStart_space2 in * by assumption. auto.
  - change (String b0 (String b1 (String b2 x)) +:+ y)
      with (String b0 (String b1 (String b2 (x +:+ y)))).
    rewrite trimStart_space3 in * by assumption. auto.
  - rewrite trimStart_fixed in Hx by assumption.
    destruct x; [reflexivity | discriminate].
Qed.

(** [trimEnd] cuts off white space only. *)
Lemma trimEnd_split (s : string) :
  exists w, s = Js.trimEnd s +:+ w /\ Js.blank w = true.
Proof.
  induction s as [|c r (w & Hr & Hw)]; [now exists ""|].
  cbn [Js.trimEnd]. destruct (Js.blank (String c r)) eqn:Hb.
  - now exists (String c r).
  - exists w. split; [|exact Hw].
    change (String c (Js.trimEnd r) +:+ w) with (String c (Js.trimEnd r +:+ w)).
    now rewrite <- Hr.
Qed.

Lemma blank_app (x y : string) :
  Js.blank x = true -> Js.blank y = true -> Js.blank (x +:+ y) = true.
Proof.
  intros Hx Hy. unfold Js.blank. rewrite (trimStart_blank_app x y Hx).
  exact Hy.
Qed.

Lemma trimEnd_idem (s : string) : Js.trimEnd (Js.trimEnd s) = Js.trimEnd s.
Proof.
  induction s as [|c r IH]; [reflexivity|].
  cbn [Js.trimEnd]. destruct (Js.blank (String c r)) eqn:Hb; [reflexivity|].
  cbn [Js.trimEnd]. rewrite IH.
  destruct (Js.blank (String c (Js.trimEnd r))) eqn:Hb'; [|reflexivity].
  destruct (trimEnd_split r) as (w & Hr & Hw).
  pose proof (blank_app _ _ Hb' Hw) as Hall.
  change (String c (Js.trimEnd r) +:+ w) with (String c (Js.trimEnd r +:+ w)) in Hall.
  rewrite <- Hr in Hall. congruence.
Qed.

(** A text that begins with white space does so whatever follows. *)
Lemma startsBlank_app (u w : string) :
  Spec.startsBlank u = true -> Spec.startsBlank (u +:+ w) = true.
Proof.
  destruct u as [|b0 [|b1 [|b2 r2]]]; simpl; intros H; [discriminate| | |].
  - rewrite orb_false_r in H. now rewrite H.
  - apply orb_true_iff in H as [E0|E1]; [now rewrite E0|].
    rewrite orb_false_r in E1. rewrite E1. now rewrite orb_true_r.
  - exact H.
Qed.

Lemma trimEnd_startsBlank (t : string) :
  Spec.startsBlank t = false -> Spec.startsBlank (Js.trimEnd t) = false.
Proof.
  intros Ht. destruct (trimEnd_split t) as (w & Hsplit & _).
  destruct (Spec.startsBlank (Js.trimEnd t)) eqn:E; [|reflexivity].
  apply (startsBlank_app _ w) in E. rewrite <- Hsplit in E. congruence.
Qed.

Lemma trim_idem (s : string) : Js.trim (Js.trim s) = Js.trim s.
Proof.
  unfold Js.trim.
  rewrite (trimStart_fixed (Js.trimEnd (Js.trimStart s))).
  - apply trimEnd_idem.
  - apply trimEnd_startsBlank, trimStart_startsBlank.
Qed.

(** [trim] on white space beyond ASCII: a no-break space alone (U+00A0,
    bytes [C2 A0]) is trimmed to nothing; a byte order mark (U+FEFF,
    bytes [EF BB BF]) before the text and an ideographic space (U+3000,
    bytes [E3 80 80]) after it are removed, and the space inside is
    kept. *)
Example trim_beyond_ascii :
  Js.trim (String "194" (String "160" "")) = ""
  /\ Js.trim (String "239" (String "187" (String "191"
               ("US DT" +:+ String "227" (String "128" (String "128" ""))))))
     = "US DT".
Proof. split; reflexivity. Qed.

(** A symbol made of a no-break space is no symbol: the token is
    dropped, whatever its decimals. *)
Example blank_symbol_is_dropped :
  TokenResolver.decodeToken
    (Multicall.mkChain (fun _ => None)
       (fun _ => Some (String "194" (String "160" "")))
       (fun _ => Some 18) (fun _ => None))
    (Some (Multicall.mkSub true "0x")) (Some (Multicall.mkSub true "0x"))
  = None.
Proof. reflexivity. Qed.

End TrimFacts.

(** ** Token resolver *)

Section ResolverFacts.
Import Multicall TokenResolver Spec.

Lemma Forall_set {V} (P : string * V -> Prop) (r : Ordered.record V) k v :
  Forall P r -> P (k, v) -> Forall P (Ordered.set k v r).
Proof.
  intros Hr Hkv. induction Hr as [|[k' v'] r Hx Hr IH]; simpl.
  - now repeat constructor.
  - destruct (String.eqb k k'); constructor; auto.
Qed.

Local Abbreviation valid := validEntry.

Lemma getTokens_valid cache addresses :
  cacheValid cache -> Forall valid (getTokens cache addresses).
Proof.
  intros Hcache. unfold getTokens.
  assert (H : forall acc, Forall valid acc ->
             Forall valid
               (fold_left (fun result address =>
                  match getToken cache address with
                  | Some token => Ordered.set (Js.toLowerCase address) token result
                  | None => result
                  end) addresses acc)).
  { induction addresses as [|a addresses IH]; intros acc Hacc; simpl; [assumption|].
    apply IH. destruct (getToken cache a) as [t|] eqn:E; [|assumption].
    apply Forall_set; [assumption|]. unfold validEntry, getToken in *.
    exact (Hcache _ _ E). }
  apply H. constructor.
Qed.

Lemma decodeToken_valid chain sr dr t :
  decodeToken chain sr dr = Some t -> validToken t = true.
Proof.
  unfold decodeToken.
  destruct sr as [sr|]; [|discriminate].
  destruct (negb (success sr)); [discriminate|].
  destruct dr as [dr|]; [|discriminate].
  destruct (negb (success dr)); [discriminate|].
  destruct (decodeString chain _) as [sym|]; [|discriminate].
  destruct (decodeUint8 chain _) as [d|]; [|discriminate].
  destruct (Js.truthy (Js.trim sym)) eqn:Ht; [|discriminate].
  destruct (0 <? String.length (Js.trim sym))%nat; [|discriminate].
  destruct (0 <? d) eqn:Hd; [|discriminate].
  intros [= <-]. unfold validToken. simpl.
  now rewrite Ht, trim_idem, String.eqb_refl, Hd.
Qed.

Lemma fetchLoop_valid chain addresses symbolResults decimalsResults :
  forall i acc,
    Forall valid acc ->
    Forall valid (fetchLoop chain i addresses symbolResults decimalsResults acc).
Proof.
  induction addresses as [|a addresses IH]; intros i acc Hacc; simpl; [assumption|].
  apply IH. destruct (decodeToken chain _ _) as [t|] eqn:E; [|assumption].
  apply Forall_set; [assumption|]. exact (decodeToken_valid _ _ _ _ E).
Qed.

Lemma fetchTokensFromNetwork_valid chain addresses :
  Forall valid (fetchTokensFromNetwork chain addresses).
Proof.
  unfold fetchTokensFromNetwork. destruct addresses as [|a addresses]; [constructor|].
  destruct (multicall chain _); [|constructor].
  destruct (multicall chain _); [|constructor].
  apply fetchLoop_valid. constructor.
Qed.

Lemma get_valid (r : Ordered.record TokenMetadata) k t :
  Forall valid r -> Ordered.get k r = Some t -> validToken t = true.
Proof.
  intros Hr Hget. apply get_In in Hget.
  rewrite Forall_forall in Hr. exact (Hr _ Hget).
Qed.

Lemma splitCached_valid cachedTokens addresses :
  Forall valid cachedTokens ->
  forall result toFetch,
    Forall valid result ->
    Forall valid (fst (splitCached (fun t => t) cachedTokens addresses result toFetch)).
Proof.
  intros Hc. induction addresses as [|a addresses IH]; intros result toFetch Hr;
    simpl; [assumption|].
  destruct (Ordered.get (Js.toLowerCase a) cachedTokens) as [t|] eqn:E.
  - apply IH. apply Forall_set; [assumption|]. exact (get_valid _ _ _ Hc E).
  - now apply IH.
Qed.

Lemma splitCached_NoDup {V} (view : TokenMetadata -> V) cachedTokens addresses :
  forall result toFetch,
    NoDup (Ordered.keys result) ->
    NoDup (Ordered.keys (fst (splitCached view cachedTokens addresses result toFetch))).
Proof.
  induction addresses as [|a addresses IH]; intros result toFetch Hr; simpl; [assumption|].
  destruct (Ordered.get (Js.toLowerCase a) cachedTokens) as [t|].
  - apply IH. now apply NoDup_keys_set.
  - now apply IH.
Qed.

Lemma addToken_valid cache address t :
  cacheValid cache -> validToken t = true ->
  cacheValid (addToken cache address (symbol t) (decimals t)).
Proof.
  intros Hc Ht. unfold addToken.
  destruct (cache !! Js.toLowerCase address); [assumption|].
  apply map_Forall_insert_2; [|assumption]. now destruct t.
Qed.

Lemma addFetched_valid fetched toFetch :
  Forall valid fetched ->
  forall cache result,
    cacheValid cache -> Forall valid result ->
    cacheValid (fst (addFetched (fun t => t) fetched toFetch cache result))
    /\ Forall valid (snd (addFetched (fun t => t) fetched toFetch cache result)).
Proof.
  intros Hf. induction toFetch as [|a toFetch IH]; intros cache result Hc Hr;
    simpl; [now split|].
  destruct (Ordered.get a fetched) as [t|] eqn:E; [|now apply IH].
  destruct (_ && _); [|now apply IH].
  pose proof (get_valid _ _ _ Hf E) as Ht.
  apply IH; [now apply addToken_valid | now apply Forall_set].
Qed.

Lemma addFetched_NoDup {V} (view : TokenMetadata -> V) fetched toFetch :
  forall cache result,
    NoDup (Ordered.keys result) ->
    NoDup (Ordered.keys (snd (addFetched view fetched toFetch cache result))).
Proof.
  induction toFetch as [|a toFetch IH]; intros cache result Hr; simpl; [assumption|].
  destruct (Ordered.get a fetched) as [t|]; [|now apply IH].
  destruct (_ && _); [|now apply IH].
  apply IH. now apply NoDup_keys_set.
Qed.

Lemma symbolsOf_set r k t :
  symbolsOf (Ordered.set k t r) = Ordered.set k (symbol t) (symbolsOf r).
Proof.
  induction r as [|[k' t'] r IH]; simpl; [reflexivity|].
  destruct (String.eqb k k'); simpl; [reflexivity | now rewrite IH].
Qed.

Lemma splitCached_view cachedTokens addresses :
  forall result toFetch,
    splitCached symbol cachedTokens addresses (symbolsOf result) toFetch
    = (symbolsOf (fst (splitCached (fun t => t) cachedTokens addresses result toFetch)),
       snd (splitCached (fun t => t) cachedTokens addresses result toFetch)).
Proof.
  induction addresses as [|a addresses IH]; intros result toFetch; simpl; [reflexivity|].
  destruct (Ordered.get (Js.toLowerCase a) cachedTokens) as [t|].
  - rewrite <- symbolsOf_set. apply IH.
  - apply IH.
Qed.

Lemma addFetched_view fetched toFetch :
  forall cache result,
    addFetched symbol fetched toFetch cache (symbolsOf result)
    = (fst (addFetched (fun t => t) fetched toFetch cache result),
       symbolsOf (snd (addFetched (fun t => t) fetched toFetch cache result))).
Proof.
  induction toFetch as [|a toFetch IH]; intros cache result; simpl; [reflexivity|].
  destruct (Ordered.get a fetched) as [t|]; [|apply IH].
  destruct (_ && _); [|apply IH].
  rewrite <- symbolsOf_set. apply IH.
Qed.

Section Sorting.
Variable baseTokens : list string.

Lemma sortPass_view keep tokens :
  forall sorted,
    sortPass (fun sym => sym) keep (symbolsOf tokens) (symbolsOf sorted)
    = symbolsOf (sortPass symbol keep tokens sorted).
Proof.
  unfold sortPass.
  induction tokens as [|[k t] tokens IH]; intros sorted; simpl; [reflexivity|].
  destruct (keep (symbol t)); [rewrite <- symbolsOf_set|]; apply IH.
Qed.

Lemma sortBy_view tokens :
  sortTokens baseTokens (symbolsOf tokens) = symbolsOf (sortBy baseTokens symbol tokens).
Proof.
  unfold sortTokens, sortBy.
  change (@nil (string * string)) with (symbolsOf []).
  now rewrite !sortPass_view.
Qed.

Lemma resolve_view chain cache addresses :
  resolveWithNetwork baseTokens chain cache addresses
  = (fst (resolveDetailed baseTokens chain cache addresses),
     symbolsOf (snd (resolveDetailed baseTokens chain cache addresses))).
Proof.
  unfold resolveWithNetwork, resolveDetailed, resolveWith.
  destruct addresses as [|a addresses]; [reflexivity|].
  change (@nil (string * string)) with (symbolsOf []).
  rewrite splitCached_view.
  destruct (splitCached (fun t => t) _ _ [] []) as [result toFetch]. cbn [fst snd].
  destruct toFetch as [|f toFetch].
  - cbn [fst snd]. f_equal. apply sortBy_view.
  - rewrite addFetched_view.
    destruct (addFetched (fun t => t) _ _ cache result) as [cache' result'].
    cbn [fst snd]. f_equal. apply sortBy_view.
Qed.

(** On an object (no repeated key) a pass appends the kept entries
    that are not yet present. *)
Lemma sortPass_filter {V} (symOf : V -> string) keep (tokens : Ordered.record V) :
  forall sorted,
    NoDup (Ordered.keys tokens) ->
    (forall kv, kv ∈ tokens -> keep (symOf (snd kv)) = true ->
                fst kv ∉ Ordered.keys sorted) ->
    sortPass symOf keep tokens sorted
    = sorted ++ List.filter (fun kv => keep (symOf (snd kv))) tokens.
Proof.
  unfold sortPass.
  induction tokens as [|[k v] tokens IH]; intros sorted Hnd Hfresh; simpl.
  - now rewrite app_nil_r.
  - inversion Hnd as [|? ? Hk Hnd']; subst.
    destruct (keep (symOf v)) eqn:Hkeep.
    + rewrite IH; [|assumption|].
      * rewrite set_fresh by (apply (Hfresh (k, v)); [left | assumption]).
        now rewrite <- app_assoc.
      * intros kv Hin Hkv.
        rewrite set_fresh by (apply (Hfresh (k, v)); [left | assumption]).
        unfold Ordered.keys. rewrite map_app. simpl.
        intros Hbad. apply elem_of_app in Hbad. destruct Hbad as [Hbad|Hbad].
        -- revert Hbad. apply Hfresh; [now right | assumption].
        -- apply list_elem_of_singleton in Hbad.
           apply Hk. rewrite <- Hbad.
           apply list_elem_of_fmap. exists kv. now split.
    + apply IH; [assumption|].
      intros kv Hin Hkv. apply Hfresh; [now right | assumption].
Qed.

Lemma sortPass_NoDup {V} (symOf : V -> string) keep (tokens : Ordered.record V) :
  forall sorted,
    NoDup (Ordered.keys sorted) ->
    NoDup (Ordered.keys (sortPass symOf keep tokens sorted)).
Proof.
  unfold sortPass.
  induction tokens as [|[k v] tokens IH]; intros sorted Hnd; simpl; [assumption|].
  apply IH. destruct (keep (symOf v)); [now apply NoDup_keys_set | assumption].
Qed.

Lemma sortBy_filter {V} (symOf : V -> string) (tokens : Ordered.record V) :
  NoDup (Ordered.keys tokens) ->
  sortBy baseTokens symOf tokens
  = List.filter (fun kv => negb (isBase baseTokens (symOf (snd kv)))) tokens
    ++ List.filter (fun kv => isBase baseTokens (symOf (snd kv))) tokens.
Proof.
  intros Hnd. unfold sortBy.
  rewrite (sortPass_filter symOf (fun s => negb (isBase baseTokens s)) tokens [])
    by (auto; intros ? ? ? H; inversion H).
  rewrite app_nil_l.
  apply sortPass_filter; [assumption|].
  intros kv Hin Hbase Hbad.
  unfold Ordered.keys in Hbad. apply list_elem_of_fmap in Hbad.
  destruct Hbad as (kv' & Hfst & Hin').
  apply list_elem_of_In, filter_In in Hin'. destruct Hin' as [Hin' Hnb].
  apply list_elem_of_In in Hin'.
  assert (kv = kv').
  { clear - Hnd Hin Hin' Hfst. induction tokens as [|x tokens IH]; [inversion Hin|].
    simpl in Hnd. inversion Hnd as [|? ? Hx Hnd']; subst.
    inversion Hin as [|? ? ? Hin1]; inversion Hin' as [|? ? ? Hin2]; subst; auto.
    - exfalso. apply Hx. rewrite Hfst. apply list_elem_of_fmap. eauto.
    - exfalso. apply Hx. rewrite <- Hfst. apply list_elem_of_fmap. eauto. }
  subst kv'. rewrite Hbase in Hnb. discriminate.
Qed.

(** On a token table that holds valid tokens only, a lookup returns
    valid entries, base tokens last, and leaves the table valid. *)
Lemma resolve_valid_base_last :
  forall chain (cache : gmap string TokenMetadata) (addresses : list string),
    cacheValid cache ->
    let detailed := snd (resolveDetailed baseTokens chain cache addresses) in
    let returned := snd (resolveWithNetwork baseTokens chain cache addresses) in
    returned = symbolsOf detailed
    /\ Forall (fun kv =>
                 symbol (snd kv) <> ""
                 /\ Js.trim (symbol (snd kv)) = symbol (snd kv)
                 /\ 0 < decimals (snd kv)) detailed
    /\ baseLast baseTokens returned
    /\ NoDup (Ordered.keys returned)
    /\ cacheValid (fst (resolveWithNetwork baseTokens chain cache addresses)).
Proof.
  intros chain cache addresses Hcache detailed returned.
  assert (Hview := resolve_view chain cache addresses).
  assert (Hret : returned = symbolsOf detailed)
    by (unfold returned; now rewrite Hview).
  assert (Hcache' : fst (resolveWithNetwork baseTokens chain cache addresses)
                    = fst (resolveDetailed baseTokens chain cache addresses))
    by now rewrite Hview.
  (* the unsorted result: valid entries, no repeated key *)
  assert (Hcore : exists result,
             detailed = sortBy baseTokens symbol result
             /\ Forall valid result
             /\ NoDup (Ordered.keys result)
             /\ cacheValid (fst (resolveDetailed baseTokens chain cache addresses))).
  { unfold detailed, resolveDetailed, resolveWith.
    destruct addresses as [|a addresses].
    - exists []. repeat split; try constructor; assumption.
    - pose proof (splitCached_valid (getTokens cache (a :: addresses)) (a :: addresses)
                    (getTokens_valid cache _ Hcache) [] [] ltac:(constructor)) as Hv.
      pose proof (splitCached_NoDup (fun t => t) (getTokens cache (a :: addresses))
                    (a :: addresses) [] [] ltac:(constructor)) as Hn.
      destruct (splitCached (fun t => t) _ _ [] []) as [result toFetch].
      cbn [fst snd] in *.
      destruct toFetch as [|f toFetch].
      + exists result. now repeat split.
      + pose proof (addFetched_valid _ (f :: toFetch)
                      (fetchTokensFromNetwork_valid chain (f :: toFetch))
                      cache result Hcache Hv) as [Hc' Hv'].
        pose proof (addFetched_NoDup (fun t => t)
                      (fetchTokensFromNetwork chain (f :: toFetch)) (f :: toFetch)
                      cache result Hn) as Hn'.
        destruct (addFetched (fun t => t) _ _ cache result) as [cache' result'].
        cbn [fst snd] in *. exists result'. now repeat split. }
  destruct Hcore as (result & Hsorted & Hvalid & Hnd & Hc).
  pose proof Hsorted as Hnds.
  rewrite (sortBy_filter symbol result Hnd) in Hsorted.
  split; [exact Hret|]. split; [|split; [|split]].
  - rewrite Hsorted. apply Forall_app. split.
    all: apply Forall_forall; intros kv Hin.
    all: apply list_elem_of_In, filter_In in Hin; destruct Hin as [Hin _].
    all: rewrite Forall_forall in Hvalid.
    all: apply list_elem_of_In in Hin; specialize (Hvalid _ Hin).
    all: unfold validEntry, validToken in Hvalid.
    all: apply andb_prop in Hvalid; destruct Hvalid as [Hvalid Hdec].
    all: apply andb_prop in Hvalid; destruct Hvalid as [Htruthy Htrim].
    all: apply String.eqb_eq in Htrim; apply Z.ltb_lt in Hdec.
    all: repeat split; try assumption.
    all: intros Hempty; rewrite Hempty in Htruthy; discriminate.
  - rewrite Hret, Hsorted. unfold symbolsOf. rewrite map_app.
    eexists _, _. split; [reflexivity|]. split.
    all: apply Forall_forall; intros kv Hin.
    all: apply list_elem_of_fmap in Hin; destruct Hin as (kv' & -> & Hin).
    all: apply list_elem_of_In, filter_In in Hin; destruct Hin as [_ Hb]; simpl.
    + now apply negb_true_iff in Hb.
    + exact Hb.
  - assert (Hkeys : Ordered.keys (symbolsOf detailed) = Ordered.keys detailed).
    { unfold symbolsOf, Ordered.keys. rewrite List.map_map. reflexivity. }
    rewrite Hret, Hkeys, Hnds. unfold sortBy.
    apply sortPass_NoDup, sortPass_NoDup. constructor.
  - now rewrite Hcache'.
Qed.

Lemma cacheAfter_valid lookups :
  forall cache, cacheValid cache -> cacheValid (cacheAfter baseTokens cache lookups).
Proof.
  induction lookups as [|[chain addresses] lookups IH]; intros cache Hc; [exact Hc|].
  cbn [cacheAfter]. apply IH.
  apply (resolve_valid_base_last chain cache addresses Hc).
Qed.

(** C9: whatever lookups were made before (starting from the empty
    token table), for every address list and every answer of the chain
    [resolveWithNetwork] returns only entries resolved from a token
    whose symbol is non-empty, also after trimming, and whose decimals
    are greater than 0; and in the returned map every address whose
    symbol is in the base-token set comes after all the addresses whose
    symbol is not. *)
Theorem lookup_returns_valid_tokens_base_last :
  forall (history : list (Chain * list string)) chain (addresses : list string),
    let cache := cacheAfter baseTokens ∅ history in
    let detailed := snd (resolveDetailed baseTokens chain cache addresses) in
    let returned := snd (resolveWithNetwork baseTokens chain cache addresses) in
    returned = symbolsOf detailed
    /\ Forall (fun kv =>
                 symbol (snd kv) <> ""
                 /\ Js.trim (symbol (snd kv)) = symbol (snd kv)
                 /\ 0 < decimals (snd kv)) detailed
    /\ baseLast baseTokens returned
    /\ NoDup (Ordered.keys returned).
Proof.
  intros history chain addresses cache detailed returned.
  assert (Hc : cacheValid cache) by (apply cacheAfter_valid, map_Forall_empty).
  destruct (resolve_valid_base_last chain cache addresses Hc) as (H1 & H2 & H3 & H4 & _).
  now repeat split.
Qed.

End Sorting.

End ResolverFacts.

(** ** Direction gate *)

Section GateFacts.
Import Tracer Sql TransactionProcessor Spec.

(** Every entry loaded by [updateWatchlist] has [tx_in = false] and
    [tx_out = true]. *)
Lemma updateWatchlist_entries (rows : list WatchlistRow) :
  forall address users,
    updateWatchlist rows !! address = Some users -> Forall silentEntry users.
Proof.
  unfold updateWatchlist.
  assert (H : forall acc : gmap string (Ordered.record WatchlistEntry),
             (forall a u, acc !! a = Some u -> Forall silentEntry u) ->
             forall a u,
               fold_left (fun newWatchlist row =>
                  let address := Js.toLowerCase (row_address row) in
                  let users := default [] (newWatchlist !! address) in
                  let userId := userKey (row_chat_id row) (row_bot_id row) in
                  <[ address :=
                       Ordered.set userId (mkEntry (row_name row) false true) users ]>
                    newWatchlist) rows acc !! a = Some u ->
               Forall silentEntry u).
  { induction rows as [|row rows IH]; intros acc Hacc a u; simpl; [apply Hacc|].
    apply IH. intros a' u' Hlook.
    destruct (decide (Js.toLowerCase (row_address row) = a')) as [<-|Hne].
    - rewrite lookup_insert_eq in Hlook. injection Hlook as <-.
      apply Forall_set; [|now split].
      destruct (acc !! Js.toLowerCase (row_address row)) as [u0|] eqn:E; simpl.
      + eapply Hacc; eauto.
      + constructor.
    - rewrite lookup_insert_ne in Hlook by assumption. eapply Hacc; eauto. }
  intros address users. apply H. intros a u Hempty.
  rewrite lookup_empty in Hempty. discriminate.
Qed.

Variable c : Collaborators.

Lemma getWatchers_entries (P : string * WatchlistEntry -> Prop) (address : string) :
  (forall users, watchlist c !! address = Some users -> Forall P users) ->
  Forall P (getWatchers c address).
Proof.
  intros Hwl. unfold getWatchers.
  assert (Hall : Forall P (default [] (watchlist c !! address))).
  { destruct (watchlist c !! address) as [u|]; simpl; [now apply Hwl | constructor]. }
  revert Hall. generalize (default [] (watchlist c !! address)). intros watchers Hall.
  assert (H : forall acc, Forall P acc ->
             Forall P (fold_left (fun result kv =>
                  if decide (snd (splitId (fst kv)) ∈ bots c)
                  then Ordered.set (fst kv) (snd kv) result else result)
                  watchers acc)).
  { induction Hall as [|[k v] watchers Hkv Hall IH]; intros acc Hacc; simpl;
      [assumption|].
    apply IH. destruct (decide _); [now apply Forall_set | assumption]. }
  apply H. constructor.
Qed.

(** With no watcher wanting incoming transactions, the send loop of a
    transaction that the watched address did not sign makes no
    request and records nothing. *)
Lemma massSendLoop_incoming_silent ids watchers msg :
  Forall silentEntry watchers ->
  forall acc n,
    snd (fst (massSendLoop c ids watchers msg false acc n)) = []
    /\ fst (fst (massSendLoop c ids watchers msg false acc n)) = n
    /\ forall final,
         snd (massSendLoop c ids watchers msg false acc n) = Ok final -> final = acc.
Proof.
  intros Hsilent. induction ids as [|id ids IH]; intros acc n; simpl.
  - repeat split. now intros final [= <-].
  - destruct (splitId id) as [chatIdRaw botId].
    destruct (Ordered.get id watchers) as [watcher|] eqn:E; simpl.
    + apply get_In in E. rewrite Forall_forall in Hsilent.
      destruct (Hsilent _ E) as [Hin _]. simpl in Hin.
      unfold passesGate. rewrite Hin. simpl. apply IH.
    + repeat split. intros final H. discriminate.
Qed.

(** The gate in general: whatever the rows of the
    watchlist table, the transaction and the answers of the services,
    [process] makes no request for a watched address that is not the
    sender of the transaction. *)
Lemma incoming_transaction_is_never_sent :
  forall (rows : list WatchlistRow) (st : State) (address : string)
         (tx : TransactionData),
    watchlist c = updateWatchlist rows ->
    String.eqb address (from tx) = false ->
    snd (process c st address tx) = [].
Proof.
  intros rows st address tx Hwl Hin.
  assert (Hsilent : Forall silentEntry (getWatchers c address)).
  { apply getWatchers_entries. intros users Hlook. rewrite Hwl in Hlook.
    eapply updateWatchlist_entries; eauto. }
  unfold process.
  destruct (alreadySent (sent st) address (hash tx)) as [dup sentSet].
  destruct dup; [reflexivity|].
  destruct (getWatchers c address) as [|w ws] eqn:Hw; [reflexivity|].
  rewrite <- Hw in *. clear Hw.
  destruct (resolveSelector c _) as [signature|]; [|reflexivity].
  destruct (_ && _); [reflexivity|].
  destruct (build c address tx (decodeFast c tx address) signature) as [fastMsg|];
    [|reflexivity].
  rewrite Hin. unfold massSend. cbn [sendCount editCount].
  destruct (massSendLoop_incoming_silent (Ordered.keys (getWatchers c address))
              (getWatchers c address) fastMsg Hsilent [] (sendCount st))
    as (Hsends & _ & Hfinal).
  destruct (massSendLoop c _ _ fastMsg false [] (sendCount st)) as [[n sends] outcome].
  cbn [fst snd] in *. subst sends.
  destruct outcome as [sentMap|]; [|reflexivity].
  rewrite (Hfinal sentMap eq_refl).
  destruct (build c address tx (decodeFull c tx address) signature); reflexivity.
Qed.

End GateFacts.

(** ** The ERC20-transfer-to-watched scenario *)

Section ScenarioFacts.
Import Tracer Sql TransactionProcessor Scenario.

Example keccak256_empty :
  Hex.ofBytes (Keccak.keccak256 [])
  = "c5d2460186f7233c927e7db2dcc703c0e500b653ca82273b7bfad8045d85a470".
Proof. vm_compute. reflexivity. Qed.

Example checksum_eip55 :
  Viem.checksumAddress "0xfb6916095ca1df60bb79ce92ce3ea74c37c5d359"
  = "0xfB6916095ca1df60bB79Ce92cE3Ea74c37c5d359".
Proof. vm_compute. reflexivity. Qed.

(** C1, run on the code: for the transfer of [100 * 10^18] units of an
    18-decimals token to the watched address W, the recipient is W and
    the fast decode resolves exactly one token with amount ["100.00"],
    as the scenario expects; W has two subscribers on an active bot;
    but [handle] makes no request to the delivery queue, because both
    entries were loaded with [tx_in = false]. *)
Theorem transfer_to_watched_is_decoded_but_not_sent :
  AddressExtractor.extractTransferRecipient transferData
    = Some "0x5aAeb6053F3E94C9b9A09f33669435E7Ef1BeAed"
  /\ Js.toLowerCase "0x5aAeb6053F3E94C9b9A09f33669435E7Ef1BeAed" = watched
  /\ interact (snd (Tracer.decodeFast baseTokens chain balance ∅ transferTx watched))
     = [(token, "TKN")]
  /\ amount (snd (Tracer.decodeFast baseTokens chain balance ∅ transferTx watched))
     = Some "100.00"
  /\ getWatchers deployment watched
     = [("1001@eth_spybot", mkEntry "whale" false true);
        ("1002@eth_spybot", mkEntry "w1" false true)]
  /\ snd (handle deployment initial transferTx) = [].
Proof. vm_compute. repeat split. Qed.

(** The two-phase protocol on the same call signed by W itself: one
    send per subscriber, then one edit per subscriber with the message
    id returned for that subscriber. *)
Example outgoing_transfer_is_sent_then_edited :
  snd (handle deployment initial outgoingTx)
  = [ SendMessage "1001@eth_spybot" "eth_spybot" (TelegramQueue.ChatNumber 1001)
        "whale transfer(address,uint256) 100.00" None;
      SendMessage "1002@eth_spybot" "eth_spybot" (TelegramQueue.ChatNumber 1002)
        "w1 transfer(address,uint256) 100.00" None;
      EditMessage "1001@eth_spybot" "eth_spybot" (TelegramQueue.ChatNumber 1001) 500
        "whale transfer(address,uint256) 100.00" None;
      EditMessage "1002@eth_spybot" "eth_spybot" (TelegramQueue.ChatNumber 1002) 501
        "w1 transfer(address,uint256) 100.00" None ].
Proof. vm_compute. reflexivity. Qed.

(** In the scenario every message is within the limit of the queue. *)
Lemma scenario_fits : Spec.fits deployment watched outgoingTx.
Proof.
  intros signature msg id watcher Hsig Hbuild Hget.
  injection Hsig as <-.
  assert (Hwatchers : getWatchers deployment watched
                      = [("1001@eth_spybot", mkEntry "whale" false true);
                         ("1002@eth_spybot", mkEntry "w1" false true)])
    by (vm_compute; reflexivity).
  rewrite Hwatchers in Hget. cbn [Ordered.get] in Hget.
  assert (Hmsg : msg = mkMessage "$$NAME$$ transfer(address,uint256) 100.00" None).
  { destruct Hbuild as [Hbuild|Hbuild]; vm_compute in Hbuild; now injection Hbuild as <-. }
  subst msg.
  destruct (String.eqb id "1001@eth_spybot");
    [injection Hget as <-; vm_compute; reflexivity|].
  destruct (String.eqb id "1002@eth_spybot");
    [injection Hget as <-; vm_compute; reflexivity | discriminate].
Qed.

(** C2 on the scenario: no request is rejected, so the edits are, in
    order, the sends that were given a message id. *)
Lemma edit_addresses_the_sent_message_witness :
  exists sends edits : list Effect,
    snd (process deployment initial watched outgoingTx) = sends ++ edits
    /\ List.map Spec.target edits = Spec.acknowledged deployment 0 sends.
Proof.
  destruct (edit_addresses_the_sent_message deployment initial watched outgoingTx)
    as (sends & edits & Heffects & _ & _ & _ & _ & _ & _ & Hall).
  exists sends, edits. split; [exact Heffects|].
  apply Hall.
  - intros k _. eexists. reflexivity.
  - intros k _. eexists. reflexivity.
  - exact scenario_fits.
  - intros signature _. eexists. reflexivity.
Defined.

Lemma pair_is_sent_at_most_once_in_window_witness :
  let st1 := fst (process deployment initial watched outgoingTx) in
  let st2 := fst (Spec.processAll deployment st1 [(sender, transferTx)]) in
  snd (process deployment initial watched outgoingTx) <> []
  /\ process deployment st2 watched outgoingTx = (st2, []).
Proof.
  split; [vm_compute; discriminate|].
  refine (proj1 (pair_is_sent_at_most_once_in_window deployment []
                   [(sender, transferTx)] watched outgoingTx _ _)).
  - apply Nat.ltb_lt. vm_compute. reflexivity.
  - vm_compute. reflexivity.
Defined.

(** A lookup on the scenario chain: the symbol comes back trimmed, the
    wallet address is dropped. *)
Example lookup_on_scenario_chain :
  snd (TokenResolver.resolveWithNetwork baseTokens chain ∅ [watched; token])
  = [(token, "TKN")].
Proof. vm_compute. reflexivity. Qed.

End ScenarioFacts.
(** ** Address utilities and the address scan *)

Section AddressFacts.
Import AddressExtractor AddressUtils Spec.

Lemma length_substring (s : string) :
  forall n m, String.length (String.substring n m s) = Nat.min m (String.length s - n).
Proof.
  induction s as [|c s IH]; intros n m.
  - destruct n, m; reflexivity.
  - destruct n as [|n].
    + destruct m as [|m]; [reflexivity|].
      simpl. rewrite IH. rewrite Nat.sub_0_r. reflexivity.
    + simpl. apply IH.
Qed.

Lemma prefix_sliceFrom (p : string) :
  forall s, String.prefix p s = true -> s = p +:+ Js.sliceFrom (String.length p) s.
Proof.
  induction p as [|c p IH]; intros s Hp.
  - unfold Js.sliceFrom. simpl. rewrite Nat.sub_0_r, substring_all. reflexivity.
  - destruct s as [|d s]; [discriminate|].
    cbn [String.prefix] in Hp. destruct (ascii_dec c d) as [<-|]; [|discriminate].
    change (String c s = String c (p +:+ Js.sliceFrom (S (String.length p)) (String c s))).
    f_equal. rewrite (IH s Hp) at 1. reflexivity.
Qed.

Lemma length_toLowerCase (s : string) :
  String.length (Js.toLowerCase s) = String.length s.
Proof. induction s as [|c s IH]; simpl; [reflexivity | now rewrite IH]. Qed.

Lemma length_checksumChars hash (s : string) :
  forall i, String.length (Viem.checksumChars hash i s) = String.length s.
Proof. induction s as [|c s IH]; intros i; simpl; [reflexivity | now rewrite IH]. Qed.

Lemma isHexDigit_lowerChar (c : ascii) :
  Hex.isHexDigit (Js.lowerChar c) = Hex.isHexDigit c.
Proof. destruct c as [[] [] [] [] [] [] [] []]; reflexivity. Qed.

Lemma isHexDigit_upperChar (c : ascii) :
  Hex.isHexDigit (Js.upperChar c) = Hex.isHexDigit c.
Proof. destruct c as [[] [] [] [] [] [] [] []]; reflexivity. Qed.

Lemma allHex_toLowerCase (s : string) :
  Hex.allHex (Js.toLowerCase s) = Hex.allHex s.
Proof.
  induction s as [|c s IH]; [reflexivity|].
  cbn [Js.toLowerCase Hex.allHex]. now rewrite isHexDigit_lowerChar, IH.
Qed.

Lemma allHex_checksumChars hash (s : string) :
  forall i, Hex.allHex (Viem.checksumChars hash i s) = Hex.allHex s.
Proof.
  induction s as [|c s IH]; intros i; [reflexivity|].
  cbn [Viem.checksumChars Hex.allHex]. rewrite IH.
  destruct ((i <? 40)%nat && (8 <=? Viem.hashNibble hash i));
    [now rewrite isHexDigit_upperChar | reflexivity].
Qed.

(** What the regular expression of [isAddress] says of a string. *)
Lemma addressRegex_inv (a : string) :
  Viem.addressRegex a = true ->
  a = "0x" +:+ Js.sliceFrom 2 a
  /\ String.length (Js.sliceFrom 2 a) = 40%nat
  /\ Hex.allHex (Js.sliceFrom 2 a) = true.
Proof.
  unfold Viem.addressRegex, Js.startsWith. intros H.
  apply andb_prop in H as [H Hhex]. apply andb_prop in H as [Hp Hlen].
  apply Nat.eqb_eq in Hlen. repeat split.
  - exact (prefix_sliceFrom "0x" a Hp).
  - unfold Js.sliceFrom. rewrite length_substring, Hlen. reflexivity.
  - exact Hhex.
Qed.

Lemma addressRegex_intro (h : string) :
  String.length h = 40%nat -> Hex.allHex h = true ->
  Viem.addressRegex ("0x" +:+ h) = true.
Proof.
  intros Hlen Hhex. unfold Viem.addressRegex, Js.startsWith.
  rewrite prefix_append, sliceFrom_0x, Hhex, length_append, Hlen. reflexivity.
Qed.

Lemma isAddressWith_regex strict (a : string) :
  Viem.isAddressWith strict a = true -> Viem.addressRegex a = true.
Proof.
  unfold Viem.isAddressWith. destruct (Viem.addressRegex a); [reflexivity|discriminate].
Qed.

(** The checksum form depends only on the lower-cased digits. *)
Lemma checksumAddress_lower (a b : string) :
  Js.toLowerCase (Js.sliceFrom 2 a) = Js.toLowerCase (Js.sliceFrom 2 b) ->
  Viem.checksumAddress a = Viem.checksumAddress b.
Proof. unfold Viem.checksumAddress. now intros ->. Qed.

Lemma checksumAddress_idem (a : string) :
  Viem.checksumAddress (Viem.checksumAddress a) = Viem.checksumAddress a.
Proof.
  apply checksumAddress_lower.
  unfold Viem.checksumAddress at 1. rewrite sliceFrom_0x.
  now rewrite toLowerCase_checksumChars, toLowerCase_idem.
Qed.

Lemma checksumAddress_regex (a : string) :
  Viem.addressRegex a = true ->
  Viem.addressRegex (Viem.checksumAddress a) = true.
Proof.
  intros Ha. destruct (addressRegex_inv a Ha) as (_ & Hlen & Hhex).
  unfold Viem.checksumAddress. apply addressRegex_intro.
  - now rewrite length_checksumChars, length_toLowerCase.
  - now rewrite allHex_checksumChars, allHex_toLowerCase.
Qed.

Lemma toLowerCase_of_checksum (a : string) :
  Viem.addressRegex a = true ->
  Js.toLowerCase (Viem.checksumAddress a) = Js.toLowerCase a.
Proof.
  intros Ha. destruct (addressRegex_inv a Ha) as (Heq & _ & _).
  rewrite toLowerCase_checksumAddress. rewrite Heq at 2.
  now rewrite toLowerCase_app.
Qed.

(** A lower-cased address that matches the regular expression passes
    the strict test. *)
Lemma lower_address_valid (a : string) :
  Viem.addressRegex a = true ->
  Viem.addressRegex (Js.toLowerCase a) = true
  /\ Viem.isAddress (Js.toLowerCase a) = true.
Proof.
  intros Ha. destruct (addressRegex_inv a Ha) as (Heq & Hlen & Hhex).
  assert (Hre : Viem.addressRegex (Js.toLowerCase a) = true).
  { rewrite Heq, toLowerCase_app. change (Js.toLowerCase "0x") with "0x".
    apply addressRegex_intro.
    - now rewrite length_toLowerCase.
    - now rewrite allHex_toLowerCase. }
  split; [exact Hre|].
  unfold Viem.isAddress, Viem.isAddressWith. rewrite Hre. cbn [negb].
  now rewrite toLowerCase_idem, String.eqb_refl.
Qed.

(** X1.  [getChecksumAddress] on an address that [isValidAddress]
    accepts: it answers, the answer passes the strict test of
    [isAddress], it differs from the input only in letter case, and it
    is a fixed point: asking for the checksum form of a checksum form
    changes nothing. *)
Theorem checksum_address_is_canonical (address : string) :
  isValidAddress address = true ->
  exists checksum,
    getChecksumAddress address = Some checksum
    /\ Viem.isAddress checksum = true
    /\ Js.toLowerCase checksum = Js.toLowerCase address
    /\ getChecksumAddress checksum = Some checksum.
Proof.
  intros Hvalid. exists (Viem.checksumAddress address).
  pose proof (isAddressWith_regex _ _ Hvalid) as Hre.
  pose proof (checksumAddress_regex _ Hre) as Hre'.
  unfold getChecksumAddress, Viem.getAddress. unfold isValidAddress in Hvalid.
  rewrite Hvalid. split; [reflexivity|].
  assert (Hstrict : Viem.isAddress (Viem.checksumAddress address) = true).
  { unfold Viem.isAddress, Viem.isAddressWith. rewrite Hre'. cbn [negb].
    rewrite checksumAddress_idem, String.eqb_refl.
    now destruct (String.eqb _ _). }
  split; [exact Hstrict|]. split; [now apply toLowerCase_of_checksum|].
  rewrite (isAddress_nonstrict _ Hstrict). now rewrite checksumAddress_idem.
Qed.

Lemma chunkAddress_inv (chunk address : string) :
  chunkAddress chunk = Some address ->
  Js.slice 0 24 chunk = zeros24
  /\ Viem.isAddress ("0x" +:+ Js.slice 24 64 chunk) = true
  /\ address = Js.toLowerCase ("0x" +:+ Js.slice 24 64 chunk).
Proof.
  unfold chunkAddress. intros H.
  destruct (String.eqb (Js.slice 0 24 chunk) zeros24) eqn:Hz; [|discriminate].
  apply String.eqb_eq in Hz.
  destruct (Viem.isAddress _) eqn:Hs; [|discriminate].
  unfold Viem.getAddress in H. rewrite (isAddress_nonstrict _ Hs) in H.
  injection H as <-. repeat split; [exact Hz|].
  apply toLowerCase_of_checksum. now apply isAddressWith_regex in Hs.
Qed.

Lemma elem_of_uniq (x : string) (l : list string) :
  x ∈ Ordered.uniq l <-> x ∈ l.
Proof.
  induction l as [|y l IH]; simpl; [reflexivity|].
  rewrite !elem_of_cons, list_elem_of_In, filter_In, <- list_elem_of_In, IH.
  split.
  - intros [->|[H _]]; auto.
  - intros [->|H]; [now left|].
    destruct (String.eqb y x) eqn:E.
    + apply String.eqb_eq in E. now left.
    + right. split; [exact H|reflexivity].
Qed.

Lemma NoDup_List_filter {A} (f : A -> bool) (l : list A) :
  NoDup l -> NoDup (List.filter f l).
Proof.
  induction 1 as [|x l Hx Hl IH]; simpl; [constructor|].
  destruct (f x); [|exact IH].
  constructor; [|exact IH].
  rewrite list_elem_of_In, filter_In, <- list_elem_of_In. tauto.
Qed.

Lemma NoDup_uniq (l : list string) : NoDup (Ordered.uniq l).
Proof.
  induction l as [|y l IH]; simpl; [constructor|].
  constructor.
  - rewrite list_elem_of_In, filter_In. intros [_ H].
    rewrite String.eqb_refl in H. discriminate.
  - now apply NoDup_List_filter.
Qed.

Lemma scanned_lower (a : string) :
  Viem.isAddress a = true -> scanned (Js.toLowerCase a).
Proof.
  intros Hs. apply isAddressWith_regex in Hs.
  destruct (lower_address_valid a Hs) as [Hre Hvalid].
  repeat split; [|apply toLowerCase_idem|exact Hvalid].
  unfold Viem.addressRegex in Hre.
  apply andb_prop in Hre as [Hre _]. apply andb_prop in Hre as [_ Hlen].
  now apply Nat.eqb_eq in Hlen.
Qed.

Lemma scanOffset_scanned (offset : nat) (data address : string) :
  address ∈ scanOffset offset data -> scanned address.
Proof.
  unfold scanOffset. rewrite list_elem_of_omap.
  intros (chunk & _ & Hchunk).
  apply chunkAddress_inv in Hchunk as (_ & Hs & ->).
  now apply scanned_lower.
Qed.

Lemma substring_substring (s : string) :
  forall n m a b,
    (a + b <= m)%nat ->
    String.substring a b (String.substring n m s) = String.substring (n + a) b s.
Proof.
  induction s as [|c s IH]; intros n m a b Hab.
  - destruct n, m, a, b; reflexivity.
  - destruct n as [|n].
    + destruct m as [|m].
      * assert (a = 0%nat) by lia. assert (b = 0%nat) by lia. subst. reflexivity.
      * destruct a as [|a].
        -- destruct b as [|b]; [reflexivity|].
           simpl. f_equal. apply (IH 0%nat m 0%nat b). lia.
        -- simpl. apply (IH 0%nat m a b). lia.
    + simpl. apply IH. exact Hab.
Qed.

(** X2.  [extractAddressesFromCalldata]: the addresses reported are
    pairwise distinct, and each one is 42 characters long, in lower
    case and accepted by the strict [isAddress]. *)
Theorem calldata_scan_reports_distinct_lowercase_addresses (data : string) :
  NoDup (extractAddressesFromCalldata data)
  /\ Forall scanned (extractAddressesFromCalldata data).
Proof.
  unfold extractAddressesFromCalldata.
  destruct (negb (Js.truthy data) || (String.length data <? 76)%nat).
  - split; constructor.
  - split; [apply NoDup_uniq|].
    apply Forall_forall. intros a Ha. rewrite elem_of_uniq in Ha.
    apply elem_of_app in Ha as [Ha|Ha]; eapply scanOffset_scanned; eassumption.
Qed.

(** X3.  [extractAddressesFromLogs]: an address is reported exactly
    when it is the lower-case form of the address of some log that
    passes the strict [isAddress]; the report has no repetition. *)
Theorem log_scan_reports_the_valid_log_addresses (logs : list string) :
  NoDup (extractAddressesFromLogs logs)
  /\ forall address,
       address ∈ extractAddressesFromLogs logs
       <-> exists log, log ∈ logs /\ Viem.isAddress log = true
                       /\ address = Js.toLowerCase log.
Proof.
  unfold extractAddressesFromLogs. split; [apply NoDup_uniq|].
  intros address. rewrite elem_of_uniq, list_elem_of_omap. split.
  - intros (log & Hin & Hlog). exists log. split; [exact Hin|].
    destruct (Viem.isAddress log) eqn:Hs; [|discriminate]. split; [reflexivity|].
    unfold Viem.getAddress in Hlog. rewrite (isAddress_nonstrict _ Hs) in Hlog.
    injection Hlog as <-. apply toLowerCase_of_checksum.
    now apply isAddressWith_regex in Hs.
  - intros (log & Hin & Hs & ->). exists log. split; [exact Hin|].
    rewrite Hs. unfold Viem.getAddress. rewrite (isAddress_nonstrict _ Hs).
    f_equal. apply toLowerCase_of_checksum. now apply isAddressWith_regex in Hs.
Qed.

Lemma chunks64_head (data : string) :
  data <> EmptyString ->
  chunks64 (String.length data) data
  = Js.slice 0 64 data
    :: chunks64 (String.length data - 1) (Js.sliceFrom 64 data).
Proof.
  destruct data as [|c r]; [congruence|]. intros _.
  cbn [String.length]. rewrite Nat.sub_succ, Nat.sub_0_r. reflexivity.
Qed.

(** X4.  The recipient of a [transfer] call is also met by the
    calldata scan, in lower case, when the first argument word is an
    address padded with zeros and the calldata has at least 76
    characters. *)
Theorem transfer_recipient_is_found_by_the_scan (data recipient : string) :
  extractTransferRecipient data = Some recipient ->
  Js.slice 10 34 data = zeros24 ->
  (76 <= String.length data)%nat ->
  Js.toLowerCase recipient ∈ extractAddressesFromCalldata data.
Proof.
  intros Hrec Hzero Hlen.
  unfold extractTransferRecipient in Hrec.
  destruct (Js.startsWith transferSelector data && (74 <=? String.length data)%nat);
    [|discriminate].
  destruct (Viem.isAddress ("0x" +:+ Js.slice 34 74 data)) eqn:Hs; [|discriminate].
  unfold extractAddressesFromCalldata.
  assert (Hnot : negb (Js.truthy data) || (String.length data <? 76)%nat = false).
  { apply orb_false_intro.
    - destruct data; [simpl in Hlen; lia | reflexivity].
    - now apply Nat.ltb_ge. }
  rewrite Hnot. rewrite elem_of_uniq, elem_of_app. right.
  unfold scanOffset. apply list_elem_of_omap.
  set (tail := Js.sliceFrom 10 data).
  assert (Htail : String.length tail = (String.length data - 10)%nat).
  { unfold tail, Js.sliceFrom. rewrite length_substring. lia. }
  exists (Js.slice 0 64 tail). split.
  - rewrite chunks64_head; [apply list_elem_of_here|].
    intros E. rewrite E in Htail. simpl in Htail. lia.
  - unfold chunkAddress.
    assert (H1 : Js.slice 0 24 (Js.slice 0 64 tail) = Js.slice 10 34 data).
    { unfold Js.slice, tail, Js.sliceFrom.
      rewrite substring_substring by lia. rewrite substring_substring by lia.
      reflexivity. }
    assert (H2 : Js.slice 24 64 (Js.slice 0 64 tail) = Js.slice 34 74 data).
    { unfold Js.slice, tail, Js.sliceFrom.
      rewrite substring_substring by lia. rewrite substring_substring by lia.
      reflexivity. }
    rewrite H1, H2, Hzero, String.eqb_refl, Hs.
    rewrite Hrec. reflexivity.
Qed.

End AddressFacts.

(** ** The watchlist and its subscriber keys *)

Section WatchlistFacts.
Import Sql TransactionProcessor.

Lemma updateWatchlist_keys (rows : list WatchlistRow) :
  forall (acc : gmap string (Ordered.record WatchlistEntry)) (address : string),
    is_Some (fold_left (fun newWatchlist row =>
                let address := Js.toLowerCase (row_address row) in
                let users := default [] (newWatchlist !! address) in
                let userId := userKey (row_chat_id row) (row_bot_id row) in
                <[ address :=
                     Ordered.set userId (mkEntry (row_name row) false true) users ]>
                  newWatchlist) rows acc !! address)
    <-> is_Some (acc !! address)
        \/ exists row, row ∈ rows /\ Js.toLowerCase (row_address row) = address.
Proof.
  induction rows as [|row rows IH]; intros acc address; simpl.
  - split; [now left|]. intros [H|(row & Hin & _)]; [exact H|]. inversion Hin.
  - rewrite IH. split.
    + intros [H|(r & Hin & Hr)].
      * destruct (decide (Js.toLowerCase (row_address row) = address)) as [E|E].
        -- right. exists row. split; [apply list_elem_of_here|exact E].
        -- left. now rewrite lookup_insert_ne in H.
      * right. exists r. split; [now apply list_elem_of_further|exact Hr].
    + intros [H|(r & Hin & Hr)].
      * left. destruct (decide (Js.toLowerCase (row_address row) = address)) as [E|E].
        -- rewrite E, lookup_insert_eq. eauto.
        -- now rewrite lookup_insert_ne.
      * apply elem_of_cons in Hin as [->|Hin].
        -- left. rewrite Hr, lookup_insert_eq. eauto.
        -- right. exists r. split; assumption.
Qed.

(** X5.  [updateWatchlist]: an address is a key of the watchlist
    exactly when some row carries it up to letter case; every key is
    in lower case. *)
Theorem watchlist_is_keyed_by_lowercase_address
    (rows : list WatchlistRow) (address : string) :
  (is_Some (updateWatchlist rows !! address)
   <-> exists row, row ∈ rows /\ Js.toLowerCase (row_address row) = address)
  /\ (is_Some (updateWatchlist rows !! address) -> Js.toLowerCase address = address).
Proof.
  assert (Hiff : is_Some (updateWatchlist rows !! address)
                 <-> exists row, row ∈ rows
                                 /\ Js.toLowerCase (row_address row) = address).
  { unfold updateWatchlist. rewrite updateWatchlist_keys. split.
    - intros [H|H]; [|exact H]. rewrite lookup_empty in H. now destruct H.
    - intros H. now right. }
  split; [exact Hiff|].
  intros H. apply Hiff in H as (row & _ & <-). apply toLowerCase_idem.
Qed.

End WatchlistFacts.
(** ** Subscriber keys *)

Section KeyFacts.
Import Sql TransactionProcessor.

Lemma digitsValue_shift (s : string) :
  forall a b r,
    Js.digitsValue a s = Some r ->
    Js.digitsValue b s = Some (r + (b - a) * 10 ^ Z.of_nat (String.length s)).
Proof.
  induction s as [|c s IH]; intros a b r H.
  - simpl in H. injection H as <-. simpl. f_equal. lia.
  - cbn [Js.digitsValue] in *.
    destruct ((48 <=? nat_of_ascii c)%nat && (nat_of_ascii c <=? 57)%nat);
      [|discriminate].
    rewrite (IH _ (10 * b + (Z.of_nat (nat_of_ascii c) - 48)) _ H). f_equal.
    cbn [String.length]. rewrite Nat2Z.inj_succ, Z.pow_succ_r by lia. ring.
Qed.

Lemma digitsValue_pretty_char (d : N) (a : Z) (s : string) :
  (d < 10)%N ->
  Js.digitsValue a (String (pretty_N_char d) s)
  = Js.digitsValue (10 * a + Z.of_N d) s.
Proof.
  intros Hd.
  assert (Hcases : (d = 0 \/ d = 1 \/ d = 2 \/ d = 3 \/ d = 4 \/ d = 5 \/ d = 6
                    \/ d = 7 \/ d = 8 \/ d = 9)%N) by lia.
  repeat (destruct Hcases as [->|Hcases]; [reflexivity|]).
  subst d. reflexivity.
Qed.

Lemma digitsValue_pretty_N_go (x : N) :
  forall s v,
    Js.digitsValue 0 s = Some v ->
    Js.digitsValue 0 (pretty_N_go x s)
    = Some (Z.of_N x * 10 ^ Z.of_nat (String.length s) + v).
Proof.
  induction (N.lt_wf_0 x) as [x _ IH]; intros s v Hs.
  assert (Hx : (x = 0 \/ 0 < x)%N) by lia.
  destruct Hx as [->|Hpos].
  - rewrite pretty_N_go_0, Hs. f_equal; lia.
  - rewrite pretty_N_go_step by exact Hpos.
    assert (Hd : (x `mod` 10 < 10)%N) by (apply N.mod_lt; lia).
    rewrite (IH (x `div` 10)%N (N.div_lt x 10 Hpos eq_refl)
               (String (pretty_N_char (x `mod` 10)) s)
               (Z.of_N (x `mod` 10) * 10 ^ Z.of_nat (String.length s) + v)).
    + f_equal. cbn [String.length]. rewrite Nat2Z.inj_succ, Z.pow_succ_r by lia.
      rewrite (N.div_mod x 10) at 3 by lia.
      rewrite N2Z.inj_add, N2Z.inj_mul. change (Z.of_N 10) with 10. ring.
    + rewrite digitsValue_pretty_char by exact Hd.
      rewrite (digitsValue_shift s 0 _ v Hs). f_equal. ring.
Qed.

(** The decimal rendering of a positive number is a non-empty string
    of digits with that value. *)
Lemma pretty_positive_digits (p : positive) :
  exists c r,
    pretty (Z.pos p) = String c r
    /\ Js.digitsValue 0 (String c r) = Some (Z.pos p).
Proof.
  assert (Hgo : pretty (Z.pos p) = pretty_N_go (N.pos p) "").
  { unfold pretty, pretty_Z, pretty, pretty_positive, pretty, pretty_N.
    destruct (decide (N.pos p = 0%N)); [discriminate | reflexivity]. }
  assert (Hval : Js.digitsValue 0 (pretty (Z.pos p)) = Some (Z.pos p)).
  { rewrite Hgo, (digitsValue_pretty_N_go (N.pos p) "" 0 eq_refl).
    f_equal. simpl. lia. }
  destruct (pretty (Z.pos p)) as [|c r] eqn:E.
  - simpl in Hval. discriminate.
  - exists c, r. split; [reflexivity | exact Hval].
Qed.

Lemma pretty_negative (p : positive) :
  pretty (Z.neg p) = String "-" (pretty (Z.pos p)).
Proof. reflexivity. Qed.

Lemma toNumber_digits (c : ascii) (r : string) :
  Js.isDigit c = true ->
  Js.toNumber (String c r) = Js.digitsValue 0 (String c r).
Proof.
  destruct c as [[] [] [] [] [] [] [] []]; intros H;
    try (vm_compute in H; discriminate H); reflexivity.
Qed.

Lemma digitsValue_head (a : Z) (c : ascii) (r : string) (v : Z) :
  Js.digitsValue a (String c r) = Some v -> Js.isDigit c = true.
Proof.
  cbn [Js.digitsValue]. unfold Js.isDigit.
  destruct ((48 <=? nat_of_ascii c)%nat && (nat_of_ascii c <=? 57)%nat);
    [reflexivity | discriminate].
Qed.

(** [Number(String(z))] is [z]. *)
Lemma toNumber_pretty (z : Z) : Js.toNumber (pretty z) = Some z.
Proof.
  destruct z as [|p|p].
  - reflexivity.
  - destruct (pretty_positive_digits p) as (c & r & -> & Hval).
    rewrite toNumber_digits by (eapply digitsValue_head; exact Hval). exact Hval.
  - rewrite pretty_negative.
    destruct (pretty_positive_digits p) as (c & r & -> & Hval).
    cbn [Js.toNumber]. rewrite Hval. reflexivity.
Qed.

Lemma digit_is_not_at (c : ascii) :
  Js.isDigit c = true -> Ascii.eqb c "@" = false.
Proof.
  destruct c as [[] [] [] [] [] [] [] []]; intros H;
    try (vm_compute in H; discriminate H); reflexivity.
Qed.

Lemma splitFirst_digits (s : string) :
  forall a v r,
    Js.digitsValue a s = Some v ->
    Js.splitFirst "@" (s +:+ String "@" r) = (s, Some r).
Proof.
  induction s as [|c s IH]; intros a v r H.
  - reflexivity.
  - pose proof (digitsValue_head _ _ _ _ H) as Hc.
    cbn [Js.digitsValue] in H. unfold Js.isDigit in Hc. rewrite Hc in H.
    change (String c s +:+ String "@" r) with (String c (s +:+ String "@" r)).
    cbn [Js.splitFirst]. rewrite (digit_is_not_at c Hc), (IH _ _ r H). reflexivity.
Qed.

Lemma splitFirst_pretty (z : Z) (r : string) :
  Js.splitFirst "@" (pretty z +:+ String "@" r) = (pretty z, Some r).
Proof.
  destruct z as [|p|p].
  - reflexivity.
  - destruct (pretty_positive_digits p) as (c & t & -> & Hval).
    eapply splitFirst_digits; exact Hval.
  - rewrite pretty_negative.
    destruct (pretty_positive_digits p) as (c & t & -> & Hval).
    change (String "-" (String c t) +:+ String "@" r)
      with (String "-" (String c t +:+ String "@" r)).
    cbn [Js.splitFirst]. change (Ascii.eqb "-" "@") with false. cbn iota.
    rewrite (splitFirst_digits _ _ _ r Hval). reflexivity.
Qed.

Lemma splitFirst_absent (c : ascii) (s : string) :
  Js.indexOf c s = None -> Js.splitFirst c s = (s, None).
Proof.
  induction s as [|d s IH]; simpl; [reflexivity|].
  destruct (Ascii.eqb d c); [discriminate|].
  destruct (Js.indexOf c s); [discriminate|].
  intros _. rewrite IH; reflexivity.
Qed.

(** X6.  The subscriber key [chat_id@bot_id] that [updateWatchlist]
    builds is taken apart again by the processor: for a bot id without
    [@], the two parts are the decimal chat id and the bot id, and the
    chat id is read back as the number it was built from. *)
Theorem subscriber_key_round_trip (chat_id : Z) (bot_id : string) :
  Js.indexOf "@" bot_id = None ->
  splitId (userKey chat_id bot_id) = (pretty chat_id, bot_id)
  /\ chatIdOf (pretty chat_id) = TelegramQueue.ChatNumber chat_id.
Proof.
  intros Hbot. split.
  - unfold splitId, Js.split2, userKey.
    change ("@" +:+ bot_id) with (String "@" bot_id).
    rewrite splitFirst_pretty, (splitFirst_absent _ _ Hbot). reflexivity.
  - unfold chatIdOf. now rewrite toNumber_pretty.
Qed.

End KeyFacts.

(** ** Watchers of an address *)

Section WatcherFacts.
Import Tracer Sql TransactionProcessor Spec.
Variable c : Collaborators.




End WatcherFacts.

(** ** What the processor asks of the delivery queues *)

Section RequestFacts.
Import Tracer Sql TransactionProcessor Spec.
Variable c : Collaborators.

Lemma passesGate_bot out watcher botId :
  passesGate c out watcher botId = true -> botId ∈ bots c.
Proof.
  unfold passesGate.
  destruct (negb out && negb (tx_in watcher)); [discriminate|].
  destruct (out && negb (tx_out watcher)); [discriminate|].
  apply bool_decide_eq_true_1.
Qed.

Lemma massSendLoop_requests ids watchers msg out :
  forall acc n,
    Forall (fun e => wellAddressed (bots c) e
                     /\ subscriber e ∈ Ordered.keys watchers)
           (snd (fst (massSendLoop c ids watchers msg out acc n))).
Proof.
  induction ids as [|id ids IH]; intros acc n; simpl; [constructor|].
  destruct (splitId id) as [chatIdRaw botId] eqn:Hid.
  destruct (Ordered.get id watchers) as [watcher|] eqn:Hget; [|constructor].
  destruct (negb (passesGate c out watcher botId)) eqn:Hgate; [apply IH|].
  apply negb_false_iff, passesGate_bot in Hgate.
  destruct (TelegramQueue.tooLong _) eqn:Hlong; [constructor|].
  apply Nat.ltb_ge in Hlong.
  assert (Hreq : wellAddressed (bots c)
                   (SendMessage id botId (chatIdOf chatIdRaw)
                      (Js.replaceFirst "$$NAME$$" (name watcher) (msgText msg))
                      (msgButtons msg))
                 /\ id ∈ Ordered.keys watchers).
  { split; [|eapply get_Some_keys; exact Hget].
    unfold wellAddressed. cbn [botOf chatOf textOf subscriber].
    rewrite Hid. repeat split; assumption. }
  destruct (sendAnswer c n) as [M|reason].
  - specialize (IH (if M =? 0 then acc else Ordered.set id M acc) (S n)).
    destruct (massSendLoop c ids watchers msg out _ (S n)) as [[n' effects] r].
    simpl in *. constructor; assumption.
  - simpl. constructor; [exact Hreq | constructor].
Qed.

Lemma massUpdateLoop_requests ids watchers msg sentMap out :
  forall n,
    Forall (fun e => wellAddressed (bots c) e
                     /\ subscriber e ∈ Ordered.keys watchers)
           (snd (fst (massUpdateLoop c ids watchers msg sentMap out n))).
Proof.
  induction ids as [|id ids IH]; intros n; simpl; [constructor|].
  destruct (splitId id) as [chatIdRaw botId] eqn:Hid.
  destruct (Ordered.get id watchers) as [watcher|] eqn:Hget; [|constructor].
  destruct (negb (passesGate c out watcher botId)) eqn:Hgate; [apply IH|].
  apply negb_false_iff, passesGate_bot in Hgate.
  destruct (TelegramQueue.tooLong _) eqn:Hlong; [constructor|].
  apply Nat.ltb_ge in Hlong.
  assert (Hreq : wellAddressed (bots c)
                   (EditMessage id botId (chatIdOf chatIdRaw)
                      (default 0 (Ordered.get id sentMap))
                      (Js.replaceFirst "$$NAME$$" (name watcher) (msgText msg))
                      (msgButtons msg))
                 /\ id ∈ Ordered.keys watchers).
  { split; [|eapply get_Some_keys; exact Hget].
    unfold wellAddressed. cbn [botOf chatOf textOf subscriber].
    rewrite Hid. repeat split; assumption. }
  destruct (editAnswer c n) as [ok|reason].
  - specialize (IH (S n)).
    destruct (massUpdateLoop c ids watchers msg sentMap out (S n)) as [[n' effects] r].
    simpl in *. constructor; assumption.
  - simpl. constructor; [exact Hreq | constructor].
Qed.

(** A property of all the requests of the two loops is a property of
    all the requests of [process]. *)
Lemma process_Forall (P : Effect -> Prop) (address : string) (tx : TransactionData) :
  (forall ids msg acc n,
     Forall P (snd (fst (massSendLoop c ids (getWatchers c address) msg
                           (String.eqb address (from tx)) acc n)))) ->
  (forall ids msg sentMap n,
     Forall P (snd (fst (massUpdateLoop c ids (getWatchers c address) msg sentMap
                           (String.eqb address (from tx)) n)))) ->
  forall st, Forall P (snd (process c st address tx)).
Proof.
  intros Hsend Hedit st. unfold process.
  destruct (alreadySent (sent st) address (hash tx)) as [dup sentSet].
  destruct dup; [constructor|].
  destruct (getWatchers c address) as [|w ws] eqn:Hw; [constructor|].
  rewrite <- Hw in *. clear Hw.
  destruct (resolveSelector c _) as [signature|]; [|constructor].
  destruct (_ && _); [constructor|].
  destruct (build c address tx (decodeFast c tx address) signature) as [fastMsg|];
    [|constructor].
  unfold massSend. cbn [sendCount editCount].
  specialize (Hsend (Ordered.keys (getWatchers c address)) fastMsg [] (sendCount st)).
  destruct (massSendLoop c _ _ fastMsg _ [] (sendCount st)) as [[n sends] outcome].
  cbn [fst snd] in Hsend.
  destruct outcome as [sentMap|]; [|exact Hsend].
  destruct (build c address tx (decodeFull c tx address) signature) as [fullMsg|];
    [|exact Hsend].
  unfold massUpdate.
  specialize (Hedit (Ordered.keys sentMap) fullMsg sentMap (editCount st)).
  destruct (massUpdateLoop c _ _ fullMsg sentMap _ (editCount st)) as [[m edits] r].
  cbn [fst snd] in *. apply Forall_app. split; assumption.
Qed.

Lemma processIfWatched_Forall (P : Effect -> Prop) (tx : TransactionData) :
  (forall address st, Forall P (snd (process c st address tx))) ->
  forall acc address,
    Forall P (snd acc) -> Forall P (snd (processIfWatched c acc address tx)).
Proof.
  intros Hp acc address Hacc. unfold processIfWatched.
  destruct (inWatchlist c address); [|exact Hacc].
  specialize (Hp address (fst acc)).
  destruct (process c (fst acc) address tx) as [st effects].
  cbn [fst snd] in *. apply Forall_app. split; assumption.
Qed.

(** ... and of all the requests of [handle]. *)
Lemma handle_Forall (P : Effect -> Prop) (tx : TransactionData) :
  (forall address st, Forall P (snd (process c st address tx))) ->
  forall st, Forall P (snd (handle c st tx)).
Proof.
  intros Hp st. unfold handle.
  assert (Hfold : forall l acc,
             Forall P (snd acc) ->
             Forall P (snd (fold_left (fun acc address =>
                                         processIfWatched c acc address tx) l acc))).
  { induction l as [|a l IH]; intros acc Hacc; simpl; [exact Hacc|].
    apply IH. now apply processIfWatched_Forall. }
  apply Hfold.
  assert (H1 : Forall P (snd (processIfWatched c (st, []) (from tx) tx)))
    by (apply processIfWatched_Forall; [exact Hp | constructor]).
  assert (H2 : Forall P (snd (match to tx with
                              | Some t =>
                                  if Js.truthy t
                                  then processIfWatched c
                                         (processIfWatched c (st, []) (from tx) tx) t tx
                                  else processIfWatched c (st, []) (from tx) tx
                              | None => processIfWatched c (st, []) (from tx) tx
                              end))).
  { destruct (to tx) as [t|]; [|exact H1].
    destruct (Js.truthy t); [|exact H1]. now apply processIfWatched_Forall. }
  destruct (AddressExtractor.extractTransferRecipient (data tx)) as [transferTo|];
    [|exact H2].
  destruct (Js.truthy transferTo); [|exact H2]. now apply processIfWatched_Forall.
Qed.

(** The subscriber's name is a replacement string: [$&] in it stands
    for the placeholder itself and [$$] for one dollar sign; only the
    first placeholder is replaced. *)
Example name_is_a_replacement_pattern :
  Js.replaceFirst "$$NAME$$" "a$&b" "$$NAME$$ hi" = "a$$NAME$$b hi"
  /\ Js.replaceFirst "$$NAME$$" "US$$" "$$NAME$$ / $$NAME$$" = "US$ / $$NAME$$"
  /\ Js.replaceFirst "$$NAME$$" "whale" "to: $$NAME$$" = "to: whale".
Proof. repeat split. Qed.

(** The limit of the queue counts UTF-16 code units: a character
    outside the basic plane (four bytes) counts for two, any other
    character for one, whatever its number of bytes. *)
Example length_counts_code_units :
  Js.length (String "240" (String "159" (String "152" (String "128" "")))) = 2%nat
  /\ Js.length (String "226" (String "130" (String "172" ""))) = 1%nat
  /\ Js.length "whale" = 5%nat.
Proof. repeat split. Qed.

(** X8.  Every request that [handle] places with a delivery queue goes
    through a configured bot; the bot and the chat are the two parts
    of the subscriber key it is made for; and its text, with the name
    of the subscriber put in as [String.prototype.replace] does, is at
    most 4096 UTF-16 code units long, the [length] that the queue
    tests. *)
Theorem requests_go_through_configured_bots (st : State) (tx : TransactionData) :
  Forall (wellAddressed (bots c)) (snd (handle c st tx)).
Proof.
  apply handle_Forall. intros address st'. apply process_Forall.
  - intros ids msg acc n. eapply Forall_impl; [apply massSendLoop_requests|].
    intros e [He _]. exact He.
  - intros ids msg sentMap n. eapply Forall_impl; [apply massUpdateLoop_requests|].
    intros e [He _]. exact He.
Qed.

Lemma getWatchers_keys (address key : string) :
  key ∈ Ordered.keys (getWatchers c address) ->
  exists users, watchlist c !! address = Some users /\ key ∈ Ordered.keys users.
Proof.
  intros Hin.
  pose proof (getWatchers_entries c
                (fun kv => exists users, watchlist c !! address = Some users
                                         /\ fst kv ∈ Ordered.keys users) address) as H.
  assert (Hall : Forall (fun kv => exists users,
                           watchlist c !! address = Some users
                           /\ fst kv ∈ Ordered.keys users)
                        (getWatchers c address)).
  { apply H. intros users Hlook. apply Forall_forall. intros kv Hkv.
    exists users. split; [exact Hlook|].
    unfold Ordered.keys. apply list_elem_of_fmap. exists kv. now split. }
  unfold Ordered.keys in Hin. apply list_elem_of_fmap in Hin as (kv & -> & Hkv).
  rewrite Forall_forall in Hall. exact (Hall kv Hkv).
Qed.

(** X9.  On a watchlist loaded by [updateWatchlist], every request
    that [handle] places is made for a subscriber of the sender of the
    transaction: the recipient, the recipient of a token transfer and
    the addresses met in the calldata are looked up, but nothing is
    ever sent on their account. *)
Theorem only_subscribers_of_the_sender_are_notified
    (rows : list WatchlistRow) (st : State) (tx : TransactionData) :
  watchlist c = updateWatchlist rows ->
  Forall (fun e => exists users,
            updateWatchlist rows !! from tx = Some users
            /\ subscriber e ∈ Ordered.keys users)
         (snd (handle c st tx)).
Proof.
  intros Hwl. apply handle_Forall. intros address st'.
  destruct (String.eqb address (from tx)) eqn:Hfrom.
  - apply String.eqb_eq in Hfrom. subst address. apply process_Forall.
    + intros ids msg acc n. eapply Forall_impl; [apply massSendLoop_requests|].
      intros e [_ He]. rewrite <- Hwl. now apply getWatchers_keys.
    + intros ids msg sentMap n. eapply Forall_impl; [apply massUpdateLoop_requests|].
      intros e [_ He]. rewrite <- Hwl. now apply getWatchers_keys.
  - rewrite (incoming_transaction_is_never_sent c rows st' address tx Hwl Hfrom).
    constructor.
Qed.

(** X10.  A plain native transfer (no calldata) of less than 0.01 of
    the native coin is never reported, whoever is involved. *)
Theorem small_plain_transfer_is_not_reported (st : State) (tx : TransactionData) :
  data tx = "0x" ->
  value tx < 10 ^ 16 ->
  snd (handle c st tx) = [].
Proof.
  intros Hdata Hvalue.
  assert (H : Forall (fun _ => False) (snd (handle c st tx))).
  { apply handle_Forall. intros address st'.
    assert (Hnone : snd (process c st' address tx) = []).
    { unfold process.
      destruct (alreadySent (sent st') address (hash tx)) as [dup sentSet].
      destruct dup; [reflexivity|].
      destruct (getWatchers c address) as [|w ws]; [reflexivity|].
      rewrite Hdata. change (Js.slice 0 10 "0x") with "0x".
      destruct (resolveSelector c "0x") as [signature|]; [|reflexivity].
      unfold Viem.etherBelowOneHundredth.
      rewrite (proj2 (Z.ltb_lt _ _) Hvalue). reflexivity. }
    rewrite Hnone. constructor. }
  destruct (snd (handle c st tx)) as [|e l]; [reflexivity|].
  inversion H as [|? ? Hfalse]. destruct Hfalse.
Qed.

Lemma massSendLoop_rejected ids watchers msg out :
  forall acc n,
    (n <= fst (fst (massSendLoop c ids watchers msg out acc n)))%nat
    /\ Forall (fun e => isSend e = true)
              (snd (fst (massSendLoop c ids watchers msg out acc n)))
    /\ forall k reason,
         (n <= k < fst (fst (massSendLoop c ids watchers msg out acc n)))%nat ->
         sendAnswer c k = Rejected reason ->
         fst (fst (massSendLoop c ids watchers msg out acc n)) = S k
         /\ exists message,
              snd (massSendLoop c ids watchers msg out acc n) = Throw message.
Proof.
  induction ids as [|id ids IH]; intros acc n; simpl.
  - repeat split; [lia | constructor | lia | lia].
  - destruct (splitId id) as [chatIdRaw botId].
    destruct (Ordered.get id watchers) as [watcher|]; simpl;
      [|repeat split; [lia | constructor | lia | lia]].
    destruct (negb (passesGate c out watcher botId)); [apply IH|].
    destruct (TelegramQueue.tooLong _); simpl;
      [repeat split; [lia | constructor | lia | lia]|].
    destruct (sendAnswer c n) as [M|reason] eqn:Hn.
    + specialize (IH (if M =? 0 then acc else Ordered.set id M acc) (S n)).
      destruct (massSendLoop c ids watchers msg out _ (S n)) as [[n' effects] r].
      cbn [fst snd] in *. destruct IH as (Hle & Hsends & Hrej).
      split; [lia|]. split; [constructor; [reflexivity | exact Hsends]|].
      intros k reason Hk Hans.
      destruct (decide (k = n)) as [->|Hne]; [congruence|].
      apply (Hrej k reason); [lia | exact Hans].
    + cbn [fst snd]. split; [lia|]. split; [repeat constructor|].
      intros k reason' Hk _. split; [lia|]. eauto.
Qed.

(** X11.  When a delivery queue rejects a message of the first phase,
    the processing of that address stops there: the rejected request
    is the last one sent, no later subscriber is served, and no message
    is edited. *)
Theorem rejected_send_ends_the_processing
    (st : State) (address : string) (tx : TransactionData) (k : nat) (reason : string) :
  (sendCount st <= k < sendCount (fst (process c st address tx)))%nat ->
  sendAnswer c k = Rejected reason ->
  sendCount (fst (process c st address tx)) = S k
  /\ editCount (fst (process c st address tx)) = editCount st
  /\ Forall (fun e => isSend e = true) (snd (process c st address tx)).
Proof.
  unfold process.
  destruct (alreadySent (sent st) address (hash tx)) as [dup sentSet].
  destruct dup; cbn [fst snd sendCount]; [lia|].
  destruct (getWatchers c address) as [|w ws] eqn:Hw; cbn [fst snd sendCount]; [lia|].
  rewrite <- Hw. clear Hw.
  destruct (resolveSelector c _) as [signature|]; cbn [fst snd sendCount]; [|lia].
  destruct (_ && _); cbn [fst snd sendCount]; [lia|].
  destruct (build c address tx (decodeFast c tx address) signature) as [fastMsg|];
    cbn [fst snd sendCount]; [|lia].
  unfold massSend. cbn [sendCount editCount].
  destruct (massSendLoop_rejected (Ordered.keys (getWatchers c address))
              (getWatchers c address) fastMsg (String.eqb address (from tx))
              [] (sendCount st)) as (_ & Hsends & Hrej).
  destruct (massSendLoop c _ _ fastMsg _ [] (sendCount st)) as [[n sends] outcome].
  cbn [fst snd] in Hsends, Hrej.
  destruct outcome as [sentMap|message].
  - intros Hk Hans. exfalso.
    assert (Hn : (sendCount st <= k < n)%nat).
    { destruct (build c address tx (decodeFull c tx address) signature) as [fullMsg|];
        [|exact Hk].
      unfold massUpdate in Hk.
      destruct (massUpdateLoop c _ _ fullMsg sentMap _ (editCount st)) as [[m edits] r].
      exact Hk. }
    destruct (Hrej k reason Hn Hans) as (_ & message & Hthrow). discriminate.
  - cbn [fst snd sendCount editCount]. intros Hk Hans.
    destruct (Hrej k reason Hk Hans) as (Hlast & _).
    repeat split; assumption.
Qed.

End RequestFacts.
(** ** Multi-node client: consensus *)

Section ConsensusFacts.
Import Multinode Spec.

Lemma fold_highest (rest : list Z) :
  forall first,
    let head := fold_left (fun prev current => if prev <? current then current else prev)
                          rest first in
    head ∈ first :: rest /\ forall n, n ∈ first :: rest -> n <= head.
Proof.
  induction rest as [|x rest IH]; intros first; simpl.
  - split; [left|]. intros n Hn. apply list_elem_of_singleton in Hn. lia.
  - destruct (IH (if first <? x then x else first)) as [Hin Hmax]. split.
    + apply elem_of_cons in Hin as [Hin|Hin].
      * rewrite Hin. destruct (first <? x); [right; left | left].
      * right. now right.
    + intros n Hn.
      assert (Hstep : first <= (if first <? x then x else first)
                      /\ x <= (if first <? x then x else first)).
      { destruct (Z.ltb_spec first x); lia. }
      assert (Hfirst : (if first <? x then x else first)
                       <= fold_left (fun prev current =>
                                       if prev <? current then current else prev)
                                    rest (if first <? x then x else first))
        by (apply Hmax; left).
      apply elem_of_cons in Hn as [->|Hn]; [lia|].
      apply elem_of_cons in Hn as [->|Hn]; [lia|].
      apply Hmax. now right.
Qed.

(** X12.  [getBlockNumber()]: the answer is the highest block number
    that an endpoint reported, and it is not negative; the call throws
    exactly when no endpoint reported a block number that is not
    negative. *)
Theorem head_is_the_highest_block_reported (nodes : list HeadOutcome) :
  match getBlockNumber nodes with
  | Ok head =>
      0 <= head /\ Head head ∈ nodes /\ forall n, Head n ∈ nodes -> n <= head
  | Throw _ => forall n, Head n ∈ nodes -> n < 0
  end.
Proof.
  unfold getBlockNumber.
  assert (Hin : forall n, n ∈ omap headTask nodes <-> Head n ∈ nodes /\ 0 <= n).
  { intros n. rewrite list_elem_of_omap. split.
    - intros (o & Ho & Htask). destruct o as [m|e]; simpl in Htask; [|discriminate].
      destruct (Z.leb_spec 0 m); [|discriminate]. injection Htask as ->. now split.
    - intros [Ho Hn]. exists (Head n). split; [exact Ho|]. simpl.
      now rewrite (proj2 (Z.leb_le 0 n) Hn). }
  destruct (omap headTask nodes) as [|first rest] eqn:E.
  - intros n Hn. destruct (Z.lt_ge_cases n 0) as [|Hge]; [assumption|].
    exfalso. assert (Hbad : n ∈ @nil Z) by (apply Hin; now split). inversion Hbad.
  - unfold reduce1. destruct (fold_highest rest first) as [Hmem Hmax].
    apply Hin in Hmem as [Hnode Hpos]. repeat split; [exact Hpos | exact Hnode |].
    intros n Hn. destruct (Z.lt_ge_cases n 0) as [|Hge]; [lia|].
    apply Hmax, Hin. now split.
Qed.

Lemma fold_moreLogs (rest : list JsValue) :
  forall items,
    exists best,
      fold_left moreLogs rest (JArray items) = JArray best
      /\ JArray best ∈ JArray items :: rest
      /\ (List.length items <= List.length best)%nat
      /\ forall other, JArray other ∈ rest ->
                       (List.length other <= List.length best)%nat.
Proof.
  induction rest as [|v rest IH]; intros items; simpl.
  - exists items. repeat split; [left | lia |]. intros other Hin. inversion Hin.
  - assert (Hstep : exists next,
               moreLogs (JArray items) v = JArray next
               /\ JArray next ∈ [JArray items; v]
               /\ (List.length items <= List.length next)%nat
               /\ forall other, v = JArray other ->
                                (List.length other <= List.length next)%nat).
    { unfold moreLogs. destruct v as [| |n|l|r]; simpl;
        try (exists items; repeat split; [left | lia | intros ? [=]]).
      destruct (Nat.ltb_spec (List.length items) (List.length l)).
      - exists l. repeat split; [right; left | lia |]. now intros other [= ->].
      - exists items. repeat split; [left | lia |]. intros other [= ->]. lia. }
    destruct Hstep as (next & -> & Hnext & Hle & Hv).
    destruct (IH next) as (best & Hfold & Hmem & Hbest & Hrest).
    exists best. split; [exact Hfold|]. split.
    + apply elem_of_cons in Hmem as [->|Hmem].
      * apply elem_of_cons in Hnext as [->|Hnext]; [left|].
        apply list_elem_of_singleton in Hnext. rewrite <- Hnext. right. left.
      * right. now right.
    + split; [lia|]. intros other Hin.
      apply elem_of_cons in Hin as [Heq|Hin].
      * specialize (Hv other (eq_sym Heq)). lia.
      * now apply Hrest.
Qed.

Lemma answers_elem (nodes : list Outcome) (v : JsValue) :
  v ∈ answers nodes <-> Returned v ∈ nodes /\ isNull v = false.
Proof.
  unfold answers. rewrite list_elem_of_omap. split.
  - intros (o & Ho & Hv). destruct o as [w|e]; [|discriminate].
    destruct (isNull w) eqn:E; [discriminate|]. injection Hv as ->. now split.
  - intros [Ho Hn]. exists (Returned v). split; [exact Ho|]. now rewrite Hn.
Qed.

(** X13.  [getLogs(args)]: when the call answers with an array, that
    array was returned by an endpoint, and no endpoint returned a
    longer one. *)
Theorem getLogs_returns_a_longest_answer (nodes : list Outcome) (logs : list string) :
  getLogs nodes = Ok (JArray logs) ->
  Returned (JArray logs) ∈ nodes
  /\ forall other, Returned (JArray other) ∈ nodes ->
                   (List.length other <= List.length logs)%nat.
Proof.
  unfold getLogs. rewrite executeParallel_answers.
  destruct (answers nodes) as [|firstResult rest] eqn:E; [discriminate|].
  intros [= Hres]. simpl in Hres.
  destruct firstResult as [| |n|items|r]; try discriminate Hres.
  unfold reduce1 in Hres.
  destruct (fold_moreLogs rest items) as (best & Hfold & Hmem & Hbest & Hrest).
  rewrite Hfold in Hres. injection Hres as ->.
  rewrite <- E in Hmem. apply answers_elem in Hmem as [Hnode _].
  split; [exact Hnode|]. intros other Hother.
  assert (Hin : JArray other ∈ JArray items :: rest).
  { rewrite <- E. apply answers_elem. now split. }
  apply elem_of_cons in Hin as [[= ->]|Hin]; [exact Hbest | now apply Hrest].
Qed.

End ConsensusFacts.

(** ** Block reader: block window, fetching and resuming *)

Section ReaderLoopFacts.
Import Multinode BlockReader Spec.

Lemma emittedBlocks_app (l1 l2 : list Event) :
  emittedBlocks (l1 ++ l2) = emittedBlocks l1 ++ emittedBlocks l2.
Proof. unfold emittedBlocks. apply omap_app. Qed.

Lemma emittedBlocks_transactions (txs : list BlockTx) :
  forall seen, emittedBlocks (snd (processTransactions seen txs)) = [].
Proof.
  induction txs as [|t txs IH]; intros seen; simpl; [reflexivity|].
  destruct t as [h|h]; [|apply IH].
  unfold processTransaction.
  destruct (Ordered.has h seen).
  - specialize (IH seen). destruct (processTransactions seen txs) as [s e].
    simpl in *. exact IH.
  - match goal with
    | |- context [processTransactions ?s txs] =>
        specialize (IH s); destruct (processTransactions s txs) as [s' e]
    end.
    simpl in *. exact IH.
Qed.

(** What [processBlock] announces and what it remembers. *)
Lemma processBlock_cases (st : State) (block : Block) :
  (emittedBlocks (snd (processBlock st block)) = []
   /\ fst (processBlock st block) = st)
  \/ exists n,
       number block = Some n
       /\ (n ∉ processedBlocks st)
       /\ emittedBlocks (snd (processBlock st block)) = [n]
       /\ forall m, m ∈ processedBlocks (fst (processBlock st block))
                    <-> (m = n \/ m ∈ processedBlocks st)
                        /\ ~ (BLOCK_WINDOW < n /\ m = n - BLOCK_WINDOW).
Proof.
  unfold processBlock.
  destruct (number block) as [n|]; [|now left].
  destruct (hash block) as [h|]; [|now left].
  destruct (decide (n ∈ processedBlocks st)) as [Hin|Hout]; [now left|].
  right. exists n. split; [reflexivity|]. split; [exact Hout|].
  pose proof (emittedBlocks_transactions (transactions block)
                (processedTransactions st)) as Htx.
  destruct (processTransactions (processedTransactions st) (transactions block))
    as [seen events].
  cbn [fst snd processedBlocks] in *. split.
  - rewrite emittedBlocks_app, Htx. reflexivity.
  - intros m. destruct (Z.ltb_spec BLOCK_WINDOW n) as [Hw|Hw].
    + rewrite elem_of_difference, elem_of_union, !elem_of_singleton. split.
      * intros [Hm Hne]. split; [exact Hm|]. intros [_ Heq]. contradiction.
      * intros [Hm Hne]. split; [exact Hm|]. intros Heq. apply Hne. now split.
    + rewrite elem_of_union, elem_of_singleton. split.
      * intros Hm. split; [exact Hm|]. intros [Hlt _]. lia.
      * intros [Hm _]. exact Hm.
Qed.

Lemma processBlocks_window (blocks : list Block) :
  forall (st : State) (seen : list Z),
    NoDup seen ->
    (forall n, n ∈ seen -> n ∈ processedBlocks st) ->
    (forall n m, n ∈ seen ++ blockNumbers blocks -> m ∈ blockNumbers blocks ->
                 m - n < BLOCK_WINDOW) ->
    NoDup (seen ++ emittedBlocks (snd (processBlocks st blocks))).
Proof.
  induction blocks as [|b blocks IH]; intros st seen Hnd Hseen Hspan; simpl.
  - now rewrite app_nil_r.
  - assert (Hnums : forall m, m ∈ blockNumbers blocks -> m ∈ blockNumbers (b :: blocks)).
    { intros m Hm. unfold blockNumbers in *. simpl.
      destruct (number b); [now right | exact Hm]. }
    destruct (processBlock_cases st b) as [[Hnone Hsame]|(n & Hn & Hfresh & Hone & Hset)].
    + destruct (processBlock st b) as [st1 ev1]. cbn [fst snd] in *. subst st1.
      specialize (IH st seen Hnd Hseen).
      destruct (processBlocks st blocks) as [st2 ev2]. cbn [fst snd] in *.
      rewrite emittedBlocks_app, Hnone. apply IH.
      intros x m Hx Hm. apply Hspan; [|now apply Hnums].
      apply elem_of_app in Hx as [Hx|Hx]; apply elem_of_app; [now left|].
      right. now apply Hnums.
    + assert (Hb : n ∈ blockNumbers (b :: blocks)).
      { unfold blockNumbers. simpl. rewrite Hn. left. }
      destruct (processBlock st b) as [st1 ev1]. cbn [fst snd] in *.
      specialize (IH st1 (seen ++ [n])).
      destruct (processBlocks st1 blocks) as [st2 ev2]. cbn [fst snd] in *.
      rewrite emittedBlocks_app, Hone.
      rewrite app_assoc. apply IH.
      * apply NoDup_app. split; [exact Hnd|]. split; [|apply NoDup_singleton].
        intros x Hx Hxn. apply list_elem_of_singleton in Hxn. subst x.
        apply Hfresh. now apply Hseen.
      * intros x Hx. apply Hset. apply elem_of_app in Hx as [Hx|Hx].
        -- split; [right; now apply Hseen|]. intros [_ Heq].
           assert (n - x < BLOCK_WINDOW)
             by (apply Hspan; [apply elem_of_app; now left | exact Hb]).
           lia.
        -- apply list_elem_of_singleton in Hx. subst x.
           split; [now left|]. intros [_ Heq]. unfold BLOCK_WINDOW in Heq. lia.
      * intros x m Hx Hm. apply Hspan; [|now apply Hnums].
        apply elem_of_app in Hx as [Hx|Hx].
        -- apply elem_of_app in Hx as [Hx|Hx]; apply elem_of_app; [now left|].
           apply list_elem_of_singleton in Hx. subst x. now right.
        -- apply elem_of_app. right. now apply Hnums.
Qed.

(** X14.  Block deduplication: when the blocks handed to the reader
    have numbers less than [BLOCK_WINDOW] (200) apart, no block number
    is announced twice, whatever the reader had processed before and
    however often a block is delivered again. *)
Theorem block_is_announced_once_within_window (st : State) (blocks : list Block) :
  (forall n m, n ∈ blockNumbers blocks -> m ∈ blockNumbers blocks ->
               m - n < BLOCK_WINDOW) ->
  NoDup (emittedBlocks (snd (processBlocks st blocks))).
Proof.
  intros Hspan.
  apply (processBlocks_window blocks st []); [constructor | |exact Hspan].
  intros n Hn. inversion Hn.
Qed.

Lemma seq_S_map (f : nat -> Z) (a n : nat) :
  f a :: List.map f (seq (S a) n) = List.map f (seq a (S n)).
Proof. reflexivity. Qed.

Lemma tryGetBlock_exhausted (maxAttempts attempts : nat) (answers : list GetBlock) :
  (maxAttempts <= attempts)%nat ->
  tryGetBlock answers attempts maxAttempts = (Fetched None, []).
Proof.
  intros Hge. destruct answers; cbn [tryGetBlock];
    now rewrite (proj2 (Nat.ltb_ge attempts maxAttempts) Hge).
Qed.

Lemma tryGetBlock_general (maxAttempts : nat) (answers : list GetBlock) :
  forall attempts,
    let '(outcome, sleeps) := tryGetBlock answers attempts maxAttempts in
    sleeps = List.map backoff (seq (S attempts) (List.length sleeps))
    /\ match outcome with
       | Fetched (Some block) => hasHash block = true /\ GotBlock block ∈ answers
       | Fetched None =>
           (maxAttempts <= attempts + raisedCount answers)%nat
           /\ List.length sleeps = (maxAttempts - 1 - attempts)%nat
       | Pending =>
           (attempts + raisedCount answers < maxAttempts)%nat
           /\ forall block, GotBlock block ∈ answers -> hasHash block = false
       end.
Proof.
  induction answers as [|a answers IH]; intros attempts.
  - cbn [tryGetBlock]. destruct (Nat.ltb_spec attempts maxAttempts).
    + split; [reflexivity|]. unfold raisedCount. simpl. split; [lia|].
      intros block Hin. inversion Hin.
    + split; [reflexivity|]. unfold raisedCount. simpl. split; lia.
  - cbn [tryGetBlock]. destruct (Nat.ltb_spec attempts maxAttempts) as [Hlt|Hge].
    + destruct a as [block| |].
      * destruct (hasHash block) eqn:Hh.
        -- split; [reflexivity|]. split; [exact Hh | left].
        -- specialize (IH attempts).
           destruct (tryGetBlock answers attempts maxAttempts) as [outcome sleeps].
           destruct IH as [Hs Ho]. split; [exact Hs|].
           destruct outcome as [[found|]|].
           ++ destruct Ho as [Hf Hin]. split; [exact Hf | now right].
           ++ exact Ho.
           ++ destruct Ho as [Hc Hall]. split; [exact Hc|].
              intros bl Hin. apply elem_of_cons in Hin as [Heq|Hin];
                [injection Heq as ->; exact Hh | now apply Hall].
      * specialize (IH attempts).
        destruct (tryGetBlock answers attempts maxAttempts) as [outcome sleeps].
        destruct IH as [Hs Ho]. split; [exact Hs|].
        destruct outcome as [[found|]|].
        -- destruct Ho as [Hf Hin]. split; [exact Hf | now right].
        -- exact Ho.
        -- destruct Ho as [Hc Hall]. split; [exact Hc|].
           intros bl Hin. apply elem_of_cons in Hin as [Heq|Hin];
             [discriminate Heq | now apply Hall].
      * assert (Hcount : raisedCount (GetBlockRaised :: answers)
                         = S (raisedCount answers)) by reflexivity.
        rewrite Hcount.
        destruct (Nat.ltb_spec (S attempts) maxAttempts) as [Hlt'|Hge'].
        -- specialize (IH (S attempts)).
           destruct (tryGetBlock answers (S attempts) maxAttempts) as [outcome sleeps].
           destruct IH as [Hs Ho]. split.
           ++ cbn [List.length]. rewrite <- seq_S_map. now rewrite <- Hs.
           ++ destruct outcome as [[found|]|].
              ** destruct Ho as [Hf Hin]. split; [exact Hf | now right].
              ** destruct Ho as [Hc Hl]. cbn [List.length]. split; lia.
              ** destruct Ho as [Hc Hall]. split; [lia|].
                 intros bl Hin. apply elem_of_cons in Hin as [Heq|Hin];
                   [discriminate Heq | now apply Hall].
        -- rewrite tryGetBlock_exhausted by exact Hge'.
           split; [reflexivity|]. split; [lia | simpl; lia].
    + split; [reflexivity|]. split; [lia | simpl; lia].
Qed.

(** X15.  [tryGetBlock]: a block that is returned carries a hash;
    [null] is returned only after [maxAttempts] exceptions, and then
    after [maxAttempts - 1] pauses; the pauses grow by one second per
    failed attempt, capped at five seconds; answers without a hash are
    asked again at once and are not counted, so the call is still
    asking as long as fewer than [maxAttempts] exceptions were met and
    no answer carried a hash. *)
Theorem tryGetBlock_outcome (maxAttempts : nat) (answers : list GetBlock) :
  let '(outcome, sleeps) := tryGetBlock answers 0 maxAttempts in
  sleeps = List.map backoff (seq 1 (List.length sleeps))
  /\ match outcome with
     | Fetched (Some block) => hasHash block = true /\ GotBlock block ∈ answers
     | Fetched None =>
         (maxAttempts <= raisedCount answers)%nat
         /\ List.length sleeps = (maxAttempts - 1)%nat
     | Pending =>
         (raisedCount answers < maxAttempts)%nat
         /\ forall block, GotBlock block ∈ answers -> hasHash block = false
     end.
Proof.
  pose proof (tryGetBlock_general maxAttempts answers 0) as H.
  destruct (tryGetBlock answers 0 maxAttempts) as [outcome sleeps].
  destruct H as [Hs Ho]. split; [exact Hs|].
  destruct outcome as [[block|]|]; [exact Ho | |exact Ho].
  destruct Ho as [Hc Hl]. split; [exact Hc|]. rewrite Hl. lia.
Qed.

Lemma fetchBatch_S (fetch : Z -> option Block) (expected : Z) (k : nat) :
  fetchBatch fetch expected (S k)
  = match fetch (expected + Z.of_nat k) with
    | Some block => <[ expected + Z.of_nat k := block ]> (fetchBatch fetch expected k)
    | None => fetchBatch fetch expected k
    end.
Proof. unfold fetchBatch. rewrite seq_S, fold_left_app. reflexivity. Qed.

Lemma fetchBatch_lookup (fetch : Z -> option Block) (expected : Z) (k : nat) (h : Z) :
  fetchBatch fetch expected k !! h
  = if decide (expected <= h < expected + Z.of_nat k) then fetch h else None.
Proof.
  induction k as [|k IH].
  - unfold fetchBatch. simpl. rewrite lookup_empty.
    rewrite decide_False by lia. reflexivity.
  - rewrite fetchBatch_S.
    destruct (decide (h = expected + Z.of_nat k)) as [->|Hne].
    + rewrite (decide_True (P := expected <= expected + Z.of_nat k
                                 < expected + Z.of_nat (S k))) by lia.
      rewrite (decide_False (P := expected <= expected + Z.of_nat k
                                  < expected + Z.of_nat k)) in IH by lia.
      destruct (fetch (expected + Z.of_nat k)) as [block|].
      * now rewrite lookup_insert_eq.
      * exact IH.
    + assert (Hlook : match fetch (expected + Z.of_nat k) with
                      | Some block =>
                          <[ expected + Z.of_nat k := block ]>
                            (fetchBatch fetch expected k)
                      | None => fetchBatch fetch expected k
                      end !! h = fetchBatch fetch expected k !! h).
      { destruct (fetch (expected + Z.of_nat k)); [|reflexivity].
        now rewrite lookup_insert_ne. }
      rewrite Hlook, IH.
      destruct (decide (expected <= h < expected + Z.of_nat k)) as [Hin|Hout].
      * rewrite decide_True by lia. reflexivity.
      * rewrite decide_False by lia. reflexivity.
Qed.

Lemma processFetched_safe (fetchedBlocks : gmap Z Block) (i : nat) :
  forall p,
    expectedBlockNumber p <= expectedBlockNumber (processFetched i fetchedBlocks p)
      <= expectedBlockNumber p + Z.of_nat i
    /\ exists new,
         saved (processFetched i fetchedBlocks p) = saved p ++ new
         /\ Forall (fun s => s mod saveInterval = 0
                             /\ expectedBlockNumber p < s
                                <= expectedBlockNumber (processFetched i fetchedBlocks p))
                   new.
Proof.
  induction i as [|i IH]; intros p; cbn [processFetched].
  - split; [lia|]. exists []. split; [now rewrite app_nil_r | constructor].
  - destruct (fetchedBlocks !! expectedBlockNumber p) as [block|].
    + destruct (processBlock (reader p) block) as [st events].
      destruct (Z.eqb_spec ((expectedBlockNumber p + 1) mod saveInterval) 0) as [Hm|Hm].
      * destruct (IH (mkProgress st (expectedBlockNumber p + 1) (emitted p ++ events)
                        (saved p ++ [expectedBlockNumber p + 1])))
          as (Hb & new & Hsaved & Hnew).
        cbn [expectedBlockNumber saved] in Hb, Hsaved, Hnew.
        split; [lia|].
        exists ((expectedBlockNumber p + 1) :: new). split.
        -- rewrite Hsaved. now rewrite <- app_assoc.
        -- constructor; [split; [exact Hm | lia]|].
           eapply Forall_impl; [exact Hnew|]. intros s [H1 H2]. split; [exact H1 | lia].
      * destruct (IH (mkProgress st (expectedBlockNumber p + 1) (emitted p ++ events)
                        (saved p)))
          as (Hb & new & Hsaved & Hnew).
        cbn [expectedBlockNumber saved] in Hb, Hsaved, Hnew.
        split; [lia|].
        exists new. split; [exact Hsaved|].
        eapply Forall_impl; [exact Hnew|]. intros s [H1 H2]. split; [exact H1 | lia].
    + split; [lia|]. exists []. split; [now rewrite app_nil_r | constructor].
Qed.

Lemma whileBehind_safe (fetch : nat -> Z -> option Block) (head : Z) (fuel : nat) :
  forall round p,
    expectedBlockNumber p <= head + 1 ->
    expectedBlockNumber p
      <= expectedBlockNumber (fst (whileBehind fuel round fetch head p)) <= head + 1
    /\ exists new,
         saved (fst (whileBehind fuel round fetch head p)) = saved p ++ new
         /\ Forall (fun s => s mod saveInterval = 0
                             /\ expectedBlockNumber p < s
                                <= expectedBlockNumber
                                     (fst (whileBehind fuel round fetch head p)))
                   new.
Proof.
  assert (Hstop : forall p : Progress,
             expectedBlockNumber p <= head + 1 ->
             expectedBlockNumber p <= expectedBlockNumber p <= head + 1
             /\ exists new,
                  saved p = saved p ++ new
                  /\ Forall (fun s => s mod saveInterval = 0
                                      /\ expectedBlockNumber p < s <= expectedBlockNumber p)
                            new).
  { intros p Hp. split; [lia|]. exists []. split; [now rewrite app_nil_r | constructor]. }
  induction fuel as [|fuel IH]; intros round p Hp.
  - cbn [whileBehind]. destruct (expectedBlockNumber p <=? head); now apply Hstop.
  - cbn [whileBehind]. destruct (Z.leb_spec (expectedBlockNumber p) head) as [Hle|Hgt];
      [|now apply Hstop].
    set (k := Z.to_nat (Z.min maxParallelBlocks (head - expectedBlockNumber p + 1))).
    set (fetched := fetchBatch (fetch round) (expectedBlockNumber p) k).
    assert (Hk : Z.of_nat k <= head - expectedBlockNumber p + 1).
    { unfold k, maxParallelBlocks. lia. }
    destruct (processFetched_safe fetched k p) as (Hb & new & Hsaved & Hnew).
    set (p1 := processFetched k fetched p) in *.
    destruct (decide (size fetched = 0%nat)).
    + cbn [fst]. split; [lia|]. exists new. split; [exact Hsaved | exact Hnew].
    + destruct (IH (S round) p1) as (Hb' & new' & Hsaved' & Hnew'); [lia|].
      split; [lia|]. exists (new ++ new'). split.
      * rewrite Hsaved', Hsaved. now rewrite <- app_assoc.
      * apply Forall_app. split.
        -- eapply Forall_impl; [exact Hnew|]. intros s [H1 H2]. split; [exact H1 | lia].
        -- eapply Forall_impl; [exact Hnew'|]. intros s [H1 H2]. split; [exact H1 | lia].
Qed.

(** X16.  One run of [readBlocksLoop] with a known head, after any
    number of rounds of its loop: the next expected block is never
    moved beyond [head + 1] nor below the smaller of its old value and
    the head; and every block number written to [block.txt] is a
    multiple of ten that was reached in this run. *)
Theorem reader_run_stays_within_head
    (fuel : nat) (head : Z) (fetch : nat -> Z -> option Block)
    (st : State) (expected : Z) :
  let '(p, finished, errors) := readBlocksLoop fuel (Ok head) fetch st expected in
  Z.min expected head <= expectedBlockNumber p <= head + 1
  /\ Forall (fun s => s mod saveInterval = 0
                      /\ Z.min expected head < s <= expectedBlockNumber p)
            (saved p)
  /\ errors = [].
Proof.
  unfold readBlocksLoop.
  set (start := if head <? expected then head else expected).
  assert (Hstart : start = Z.min expected head).
  { unfold start. destruct (Z.ltb_spec head expected); lia. }
  destruct (whileBehind_safe fetch head fuel 0 (mkProgress st start [] []))
    as (Hb & new & Hsaved & Hnew); [cbn [expectedBlockNumber]; lia|].
  destruct (whileBehind fuel 0 fetch head (mkProgress st start [] [])) as [p finished].
  cbn [fst expectedBlockNumber saved] in *. rewrite <- Hstart.
  split; [exact Hb|]. split; [|reflexivity].
  rewrite Hsaved. exact Hnew.
Qed.

Lemma processFetched_all (fetchedBlocks : gmap Z Block) (i : nat) :
  forall p,
    (forall h, expectedBlockNumber p <= h < expectedBlockNumber p + Z.of_nat i ->
               is_Some (fetchedBlocks !! h)) ->
    expectedBlockNumber (processFetched i fetchedBlocks p)
    = expectedBlockNumber p + Z.of_nat i.
Proof.
  induction i as [|i IH]; intros p Hall; cbn [processFetched]; [lia|].
  destruct (Hall (expectedBlockNumber p)) as [block Hblock]; [lia|].
  rewrite Hblock. destruct (processBlock (reader p) block) as [st events].
  rewrite IH; cbn [expectedBlockNumber]; [lia|].
  intros h Hh. apply Hall. lia.
Qed.

Lemma whileBehind_live (fetch : nat -> Z -> option Block) (head : Z) (fuel : nat) :
  forall round p,
    (forall r h, expectedBlockNumber p <= h <= head -> is_Some (fetch r h)) ->
    (Z.to_nat (head + 1 - expectedBlockNumber p) <= fuel)%nat ->
    expectedBlockNumber p <= head + 1 ->
    snd (whileBehind fuel round fetch head p) = true
    /\ expectedBlockNumber (fst (whileBehind fuel round fetch head p)) = head + 1.
Proof.
  induction fuel as [|fuel IH]; intros round p Hall Hfuel Hp.
  - cbn [whileBehind]. destruct (Z.leb_spec (expectedBlockNumber p) head); [lia|].
    cbn [fst snd]. split; [reflexivity | lia].
  - cbn [whileBehind]. destruct (Z.leb_spec (expectedBlockNumber p) head) as [Hle|Hgt];
      [|cbn [fst snd]; split; [reflexivity | lia]].
    set (k := Z.to_nat (Z.min maxParallelBlocks (head - expectedBlockNumber p + 1))).
    set (fetched := fetchBatch (fetch round) (expectedBlockNumber p) k).
    assert (Hk : 1 <= Z.of_nat k <= head - expectedBlockNumber p + 1).
    { unfold k, maxParallelBlocks. lia. }
    assert (Hfetched : forall h,
               expectedBlockNumber p <= h < expectedBlockNumber p + Z.of_nat k ->
               is_Some (fetched !! h)).
    { intros h Hh. unfold fetched. rewrite fetchBatch_lookup.
      destruct (decide _); [|lia]. apply Hall. lia. }
    pose proof (processFetched_all fetched k p Hfetched) as Hnext.
    set (p1 := processFetched k fetched p) in *.
    destruct (decide (size fetched = 0%nat)) as [Hempty|_].
    + exfalso. apply map_size_empty_iff in Hempty.
      destruct (Hfetched (expectedBlockNumber p)) as [block Hblock]; [lia|].
      rewrite Hempty, lookup_empty in Hblock. discriminate.
    + apply IH; [|lia|lia].
      intros r h Hh. apply Hall. lia.
Qed.

(** X17.  When every block asked for is delivered, one run of
    [readBlocksLoop] catches up with the head: given as many rounds as
    there are blocks to read, the loop is left with the next expected
    block at [head + 1]. *)
Theorem reader_catches_up_when_blocks_arrive
    (fuel : nat) (head : Z) (fetch : nat -> Z -> option Block)
    (st : State) (expected : Z) :
  (forall round h, Z.min expected head <= h <= head -> is_Some (fetch round h)) ->
  (Z.to_nat (head + 1 - Z.min expected head) <= fuel)%nat ->
  let '(p, finished, errors) := readBlocksLoop fuel (Ok head) fetch st expected in
  finished = true /\ expectedBlockNumber p = head + 1.
Proof.
  intros Hall Hfuel. unfold readBlocksLoop.
  set (start := if head <? expected then head else expected).
  assert (Hstart : start = Z.min expected head).
  { unfold start. destruct (Z.ltb_spec head expected); lia. }
  rewrite <- Hstart in Hall, Hfuel.
  destruct (whileBehind_live fetch head fuel 0 (mkProgress st start [] []))
    as [Hfin Hexp]; cbn [expectedBlockNumber]; [exact Hall | exact Hfuel | lia |].
  destruct (whileBehind fuel 0 fetch head (mkProgress st start [] [])) as [p finished].
  cbn [fst snd] in *. now split.
Qed.

Lemma digitsPrefix_value (s : string) :
  forall a v, Js.digitsValue a s = Some v -> Js.digitsPrefix a s = v.
Proof.
  induction s as [|c s IH]; intros a v H.
  - simpl in *. congruence.
  - pose proof (digitsValue_head _ _ _ _ H) as Hc.
    cbn [Js.digitsValue Js.digitsPrefix] in *. rewrite Hc.
    unfold Js.isDigit in Hc. rewrite Hc in H. now apply IH.
Qed.

(** A text that begins with a digit does not begin with white space. *)
Lemma digit_startsBlank (c : ascii) (r : string) :
  Js.isDigit c = true -> Spec.startsBlank (String c r) = false.
Proof.
  destruct c as [[] [] [] [] [] [] [] []]; intros H;
    try (vm_compute in H; discriminate H);
    destruct r as [|b1 [|b2 r2]]; reflexivity.
Qed.

Lemma trimStart_digit (c : ascii) (r : string) :
  Js.isDigit c = true -> Js.trimStart (String c r) = String c r.
Proof. intros H. apply trimStart_fixed. now apply digit_startsBlank. Qed.

Lemma trimEnd_digits (s : string) :
  forall a v, Js.digitsValue a s = Some v -> Js.trimEnd s = s.
Proof.
  induction s as [|c s IH]; intros a v H; [reflexivity|].
  pose proof (digitsValue_head _ _ _ _ H) as Hc.
  cbn [Js.digitsValue] in H. unfold Js.isDigit in Hc. rewrite Hc in H.
  change (Js.isDigit c = true) in Hc.
  cbn [Js.trimEnd]. unfold Js.blank. rewrite (trimStart_digit c s Hc).
  now rewrite (IH _ _ H).
Qed.

(** An integer below [2^53] is a double. *)
Lemma ofInteger_exact (n : Z) :
  0 <= n < 2 ^ 53 -> Double.ofInteger n = Some n.
Proof.
  intros [H0 H53]. unfold Double.ofInteger, Double.ofZ, Double.round.
  rewrite Z.mod_1_r, Z.div_1_r. cbn [Z.eqb andb].
  rewrite (proj2 (Z.ltb_lt n (2 ^ 53)) H53).
  cbn [Double.num Double.den]. now rewrite Z.div_1_r.
Qed.

Lemma parseInt_digit (c : ascii) (r : string) :
  Js.isDigit c = true ->
  Js.parseInt (String c r) = Js.ofDigits false (String c r).
Proof.
  intros H. unfold Js.parseInt. rewrite (trimStart_digit c r H).
  destruct c as [[] [] [] [] [] [] [] []];
    try (vm_compute in H; discriminate H); reflexivity.
Qed.

(** [parseInt] reads back what [toString] wrote. *)
Lemma parseInt_trim_pretty (n : Z) :
  0 < n < 2 ^ 53 -> Js.parseInt (Js.trim (pretty n)) = Js.Finite n.
Proof.
  intros [Hn H53]. destruct n as [|p|p]; [lia| |lia].
  destruct (pretty_positive_digits p) as (c & r & Hp & Hval).
  pose proof (digitsValue_head _ _ _ _ Hval) as Hc.
  rewrite Hp. unfold Js.trim. rewrite (trimStart_digit c r Hc).
  rewrite (trimEnd_digits _ _ _ Hval), (parseInt_digit c r Hc).
  unfold Js.ofDigits. cbn [Js.startsWithDigit]. rewrite Hc.
  rewrite (digitsPrefix_value _ _ _ Hval).
  now rewrite ofInteger_exact by lia.
Qed.

(** X18.  Resuming: after [saveLastProcessedBlock(n)] with [n]
    positive (and below [2^53], where [parseInt] is exact),
    [loadLastProcessedBlock] resumes after block [n] when the head is
    at most ten blocks ahead or cannot be read, and otherwise jumps to
    ten blocks behind the head and writes that block number to the
    file. *)
Theorem saved_block_is_resumed (n : Z) (head : Call Z) :
  0 < n < 2 ^ 53 ->
  loadLastProcessedBlock (Some (saveLastProcessedBlock n)) head
  = match head with
    | Ok currentBlock =>
        if rereadBlocks <? currentBlock - n
        then (currentBlock - rereadBlocks,
              Some (saveLastProcessedBlock (currentBlock - rereadBlocks)), [])
        else (n, None, [])
    | Throw message => (n, None, [message])
    end.
Proof.
  intros Hn. unfold loadLastProcessedBlock, saveLastProcessedBlock.
  rewrite (parseInt_trim_pretty n Hn).
  destruct head as [currentBlock|message]; [|reflexivity].
  rewrite (proj2 (Z.eqb_neq n 0)) by lia. rewrite orb_false_r.
  unfold rereadBlocks.
  destruct (Z.ltb_spec 10 (currentBlock - n)) as [Hfar|Hnear]; [|reflexivity].
  now rewrite (proj2 (Z.ltb_lt 0 (currentBlock - 10))) by lia.
Qed.

(** What [block.txt] holds is read as a double: above [2^53] the block
    number is rounded; a byte order mark and a line end around the
    digits are trimmed; digits beyond the range of a double make
    [BigInt] raise, and the reader restarts ten blocks behind the
    head. *)
Example file_is_read_as_a_double :
  loadLastProcessedBlock (Some "9007199254740993") (Ok 100)
  = (9007199254740992, None, [])
  /\ loadLastProcessedBlock
       (Some (String "239" (String "187" (String "191" ("95" +:+ String "010" "")))))
       (Ok 100)
     = (95, None, [])
  /\ loadLastProcessedBlock (Some (pretty (10 ^ 400))) (Ok 100)
     = (90, Some "90", []).
Proof. repeat split; vm_compute; reflexivity. Qed.

(** X19.  Whatever [block.txt] holds, and also when it cannot be read:
    with the head beyond block ten, reading starts at most ten blocks
    behind the head (it may start ahead of it), no error is emitted,
    and when the file is rewritten it holds the block that reading
    resumes after. *)
Theorem restart_is_at_most_ten_blocks_behind (file : option string) (currentBlock : Z) :
  rereadBlocks < currentBlock ->
  let '(lastBlock, written, errors) :=
    loadLastProcessedBlock file (Ok currentBlock) in
  currentBlock - rereadBlocks <= lastBlock
  /\ errors = []
  /\ (written = None \/ written = Some (saveLastProcessedBlock lastBlock)).
Proof.
  intros Hhead. unfold loadLastProcessedBlock.
  assert (Hnew : (0 <? currentBlock - rereadBlocks) = true) by (apply Z.ltb_lt; lia).
  assert (Hresume : forall last,
    let '(lastBlock, written, errors) :=
      if (rereadBlocks <? currentBlock - last) || (last =? 0)
      then if 0 <? currentBlock - rereadBlocks
           then (currentBlock - rereadBlocks,
                 Some (saveLastProcessedBlock (currentBlock - rereadBlocks)),
                 @nil string)
           else (last, None, [])
      else (last, None, []) in
    currentBlock - rereadBlocks <= lastBlock
    /\ errors = []
    /\ (written = None \/ written = Some (saveLastProcessedBlock lastBlock))).
  { intros last.
    destruct ((rereadBlocks <? currentBlock - last) || (last =? 0)) eqn:Hcond.
    - rewrite Hnew. repeat split; [lia | now right].
    - apply orb_false_elim in Hcond as [Hnear _]. apply Z.ltb_ge in Hnear.
      repeat split; [lia | now left]. }
  destruct file as [data|].
  - destruct (Js.parseInt (Js.trim data)) as [|last|].
    + exact (Hresume 0).
    + exact (Hresume last).
    + rewrite Hnew. repeat split; [lia | now right].
  - rewrite Hnew. repeat split; [lia | now right].
Qed.

End ReaderLoopFacts.
(** ** Token resolver: the cache, sorting and amounts *)

Section TokenCacheFacts.
Import Multicall TokenResolver Spec.
Variable baseTokens : list string.

Lemma addToken_subseteq (cache : gmap string TokenMetadata) address sym dec :
  cache ⊆ addToken cache address sym dec.
Proof.
  unfold addToken. destruct (cache !! Js.toLowerCase address) eqn:E; [reflexivity|].
  now apply insert_subseteq.
Qed.

Lemma addToken_new_key (cache : gmap string TokenMetadata) address sym dec k :
  cache !! k = None ->
  is_Some (addToken cache address sym dec !! k) ->
  k = Js.toLowerCase address.
Proof.
  unfold addToken. intros Hk Hsome.
  destruct (cache !! Js.toLowerCase address).
  - rewrite Hk in Hsome. now destruct Hsome.
  - destruct (decide (Js.toLowerCase address = k)) as [<-|Hne]; [reflexivity|].
    rewrite lookup_insert_ne, Hk in Hsome by exact Hne. now destruct Hsome.
Qed.

Lemma addFetched_cache {V} (view : TokenMetadata -> V) fetched toFetch :
  forall cache result,
    cache ⊆ fst (addFetched view fetched toFetch cache result)
    /\ forall k,
         cache !! k = None ->
         is_Some (fst (addFetched view fetched toFetch cache result) !! k) ->
         exists address, address ∈ toFetch /\ k = Js.toLowerCase address.
Proof.
  induction toFetch as [|a toFetch IH]; intros cache result; simpl.
  - split; [reflexivity|]. intros k Hk Hsome. rewrite Hk in Hsome. now destruct Hsome.
  - assert (Hskip : cache ⊆ fst (addFetched view fetched toFetch cache result)
                    /\ forall k,
                         cache !! k = None ->
                         is_Some (fst (addFetched view fetched toFetch cache result) !! k) ->
                         exists address, address ∈ a :: toFetch
                                         /\ k = Js.toLowerCase address).
    { destruct (IH cache result) as [Hsub Hnew]. split; [exact Hsub|].
      intros k Hk Hsome. destruct (Hnew k Hk Hsome) as (x & Hx & ->).
      exists x. split; [now right | reflexivity]. }
    destruct (Ordered.get a fetched) as [t|]; [|exact Hskip].
    destruct (Js.truthy (symbol t) && (0 <? decimals t)); [|exact Hskip].
    clear Hskip.
    match goal with
    | |- context [addFetched view fetched toFetch ?c ?r] =>
        destruct (IH c r) as [Hsub Hnew]
    end.
    split.
    + etransitivity; [apply addToken_subseteq | exact Hsub].
    + intros k Hk Hsome.
      destruct (addToken cache a (symbol t) (decimals t) !! k) eqn:E.
      * exists a. split; [left|]. eapply addToken_new_key; [exact Hk|].
        rewrite E. eauto.
      * destruct (Hnew k E Hsome) as (x & Hx & ->).
        exists x. split; [now right | reflexivity].
Qed.

Lemma splitCached_toFetch {V} (view : TokenMetadata -> V) cachedTokens addresses :
  forall result toFetch address,
    address ∈ snd (splitCached view cachedTokens addresses result toFetch) ->
    address ∈ toFetch \/ address ∈ addresses.
Proof.
  induction addresses as [|a addresses IH]; intros result toFetch address; simpl.
  - now left.
  - destruct (Ordered.get (Js.toLowerCase a) cachedTokens) as [t|]; intros Hin.
    + destruct (IH _ _ _ Hin) as [H|H]; [now left | right; now right].
    + destruct (IH _ _ _ Hin) as [H|H]; [|right; now right].
      apply elem_of_app in H as [H|H]; [now left|].
      apply list_elem_of_singleton in H. subst. right. left.
Qed.

(** X20.  The token cache is write-once: a lookup never changes or
    removes an entry of the table, and an entry that it adds is keyed
    by the lower-case form of one of the addresses asked for. *)
Theorem token_cache_is_write_once
    (chain : Chain) (cache : gmap string TokenMetadata) (addresses : list string) :
  cache ⊆ fst (resolveWithNetwork baseTokens chain cache addresses)
  /\ forall key,
       cache !! key = None ->
       is_Some (fst (resolveWithNetwork baseTokens chain cache addresses) !! key) ->
       exists address, address ∈ addresses /\ key = Js.toLowerCase address.
Proof.
  unfold resolveWithNetwork, resolveWith.
  destruct addresses as [|a0 rest] eqn:Haddr.
  { cbn [fst]. split; [reflexivity|]. intros k Hk Hsome.
    rewrite Hk in Hsome. now destruct Hsome. }
  rewrite <- Haddr. clear Haddr.
  pose proof (splitCached_toFetch symbol (getTokens cache addresses) addresses [] [])
    as Hfetch.
  destruct (splitCached symbol (getTokens cache addresses) addresses [] [])
    as [result toFetch].
  cbn [snd] in Hfetch.
  destruct toFetch as [|f more] eqn:Hto.
  { cbn [fst]. split; [reflexivity|]. intros k Hk Hsome.
    rewrite Hk in Hsome. now destruct Hsome. }
  rewrite <- Hto in *. clear Hto.
  destruct (addFetched_cache symbol (fetchTokensFromNetwork chain toFetch)
              toFetch cache result) as [Hsub Hnew].
  destruct (addFetched symbol (fetchTokensFromNetwork chain toFetch) toFetch cache result)
    as [cache' result'].
  cbn [fst] in *. split; [exact Hsub|].
  intros k Hk Hsome. destruct (Hnew k Hk Hsome) as (x & Hx & ->).
  exists x. split; [|reflexivity].
  destruct (Hfetch x Hx) as [H|H]; [inversion H | exact H].
Qed.

Lemma getTokens_keeps (cache : gmap string TokenMetadata) (k : string) addresses :
  forall acc : Ordered.record TokenMetadata,
    is_Some (Ordered.get k acc) ->
    is_Some (Ordered.get k
               (fold_left (fun result address =>
                             match getToken cache address with
                             | Some token => Ordered.set (Js.toLowerCase address) token result
                             | None => result
                             end) addresses acc)).
Proof.
  induction addresses as [|a addresses IH]; intros acc Hacc; simpl; [exact Hacc|].
  apply IH. destruct (getToken cache a) as [t|]; [|exact Hacc].
  destruct (decide (Js.toLowerCase a = k)) as [<-|Hne].
  - rewrite get_set_eq. eauto.
  - now rewrite get_set_ne.
Qed.

Lemma getTokens_cached (cache : gmap string TokenMetadata) addresses address :
  address ∈ addresses ->
  is_Some (cache !! Js.toLowerCase address) ->
  is_Some (Ordered.get (Js.toLowerCase address) (getTokens cache addresses)).
Proof.
  unfold getTokens. generalize (@nil (string * TokenMetadata)).
  induction addresses as [|a addresses IH]; intros acc Hin Hc; [inversion Hin|].
  simpl. apply elem_of_cons in Hin as [->|Hin].
  - apply getTokens_keeps. unfold getToken. destruct Hc as [t ->].
    rewrite get_set_eq. eauto.
  - now apply IH.
Qed.

Lemma splitCached_all_cached {V} (view : TokenMetadata -> V) cachedTokens addresses :
  (forall a, a ∈ addresses -> is_Some (Ordered.get (Js.toLowerCase a) cachedTokens)) ->
  forall result toFetch,
    snd (splitCached view cachedTokens addresses result toFetch) = toFetch.
Proof.
  induction addresses as [|a addresses IH]; intros Hall result toFetch; simpl;
    [reflexivity|].
  destruct (Hall a) as [t Ht]; [left|]. rewrite Ht.
  apply IH. intros x Hx. apply Hall. now right.
Qed.

(** X21.  A lookup whose addresses are all in the token cache does
    not depend on the network and leaves the cache as it is. *)
Theorem cached_lookup_needs_no_network
    (chain chain' : Chain) (cache : gmap string TokenMetadata)
    (addresses : list string) :
  (forall address, address ∈ addresses ->
                   is_Some (cache !! Js.toLowerCase address)) ->
  resolveWithNetwork baseTokens chain cache addresses
  = resolveWithNetwork baseTokens chain' cache addresses
  /\ fst (resolveWithNetwork baseTokens chain cache addresses) = cache.
Proof.
  intros Hall. unfold resolveWithNetwork, resolveWith.
  destruct addresses as [|a0 rest] eqn:Haddr; [now split|].
  rewrite <- Haddr in *. clear Haddr.
  pose proof (splitCached_all_cached symbol (getTokens cache addresses) addresses
                (fun a Ha => getTokens_cached cache addresses a Ha (Hall a Ha)) [] [])
    as Hnone.
  destruct (splitCached symbol (getTokens cache addresses) addresses [] [])
    as [result toFetch].
  cbn [snd] in Hnone. subst toFetch. now split.
Qed.

Lemma filter_partition {A} (f : A -> bool) (l : list A) :
  List.filter (fun x => negb (f x)) l ++ List.filter f l ≡ₚ l.
Proof.
  induction l as [|x l IH]; simpl; [reflexivity|].
  destruct (f x); simpl.
  - rewrite <- Permutation_middle. now constructor.
  - now constructor.
Qed.

Lemma filter_filter_same {A} (f : A -> bool) (l : list A) :
  List.filter f (List.filter f l) = List.filter f l.
Proof.
  induction l as [|x l IH]; simpl; [reflexivity|].
  destruct (f x) eqn:E; simpl; [rewrite E; now f_equal | exact IH].
Qed.

Lemma filter_filter_neg {A} (f g : A -> bool) (l : list A) :
  (forall x, f x = true -> g x = false) ->
  List.filter g (List.filter f l) = [].
Proof.
  intros Hfg. induction l as [|x l IH]; simpl; [reflexivity|].
  destruct (f x) eqn:E; simpl; [rewrite (Hfg x E); exact IH | exact IH].
Qed.

(** X22.  [sortTokens] on an object: the result holds the same entries
    (a permutation), the tokens outside the base set first and the
    base tokens last, each group in its original order; sorting a
    sorted object changes nothing. *)
Theorem sortTokens_is_a_stable_partition (tokens : Ordered.record string) :
  NoDup (Ordered.keys tokens) ->
  sortTokens baseTokens tokens
  = List.filter (fun kv => negb (isBase baseTokens (snd kv))) tokens
    ++ List.filter (fun kv => isBase baseTokens (snd kv)) tokens
  /\ sortTokens baseTokens tokens ≡ₚ tokens
  /\ sortTokens baseTokens (sortTokens baseTokens tokens) = sortTokens baseTokens tokens.
Proof.
  intros Hnd. unfold sortTokens.
  pose proof (sortBy_filter baseTokens (fun sym : string => sym) tokens Hnd) as Hsort.
  cbn beta in Hsort.
  split; [exact Hsort|]. split.
  - rewrite Hsort.
    apply (filter_partition (fun kv : string * string => isBase baseTokens (snd kv))).
  - assert (Hnd' : NoDup (Ordered.keys (sortBy baseTokens (fun sym : string => sym) tokens))).
    { unfold sortBy. apply sortPass_NoDup, sortPass_NoDup. constructor. }
    rewrite (sortBy_filter baseTokens (fun sym : string => sym) _ Hnd').
    cbn beta. rewrite Hsort.
    rewrite !List.filter_app.
    rewrite (filter_filter_same (fun kv : string * string =>
                                   negb (isBase baseTokens (snd kv)))).
    rewrite (filter_filter_same (fun kv : string * string => isBase baseTokens (snd kv))).
    rewrite (filter_filter_neg
               (fun kv : string * string => isBase baseTokens (snd kv))
               (fun kv => negb (isBase baseTokens (snd kv))))
      by (intros x ->; reflexivity).
    rewrite (filter_filter_neg
               (fun kv : string * string => negb (isBase baseTokens (snd kv)))
               (fun kv => isBase baseTokens (snd kv)))
      by (intros x Hx; now apply negb_true_iff in Hx).
    now rewrite app_nil_r.
Qed.

End TokenCacheFacts.
(** ** Transfer amounts *)

Section AmountFacts.
Import TokenResolver AddressExtractor.

Lemma digitVal_digitChar (d : Z) :
  0 <= d < 16 -> Hex.digitVal (Hex.digitChar d) = Some d.
Proof.
  intros Hd.
  assert (Hcases : d = 0 \/ d = 1 \/ d = 2 \/ d = 3 \/ d = 4 \/ d = 5 \/ d = 6 \/ d = 7
                   \/ d = 8 \/ d = 9 \/ d = 10 \/ d = 11 \/ d = 12 \/ d = 13 \/ d = 14
                   \/ d = 15) by lia.
  repeat (destruct Hcases as [->|Hcases]; [reflexivity|]).
  subst d. reflexivity.
Qed.

Lemma toZ_acc_ofZ_digits (n : nat) :
  forall v acc a,
    Hex.toZ_acc a (Hex.ofZ_digits n v acc)
    = Hex.toZ_acc (a * 16 ^ Z.of_nat n + v mod 16 ^ Z.of_nat n) acc.
Proof.
  induction n as [|n IH]; intros v acc a.
  - cbn [Hex.ofZ_digits]. change (16 ^ Z.of_nat 0) with 1.
    rewrite Z.mod_1_r. f_equal. lia.
  - cbn [Hex.ofZ_digits]. rewrite IH. cbn [Hex.toZ_acc].
    rewrite digitVal_digitChar by (apply Z.mod_pos_bound; lia).
    f_equal. rewrite Nat2Z.inj_succ, Z.pow_succ_r by lia.
    assert (Hpow : 0 < 16 ^ Z.of_nat n) by (apply Z.pow_pos_nonneg; lia).
    rewrite (Z.rem_mul_r v 16 (16 ^ Z.of_nat n)) by lia. ring.
Qed.

Lemma length_ofZ_digits (n : nat) :
  forall v acc,
    String.length (Hex.ofZ_digits n v acc) = (n + String.length acc)%nat.
Proof.
  induction n as [|n IH]; intros v acc; cbn [Hex.ofZ_digits]; [reflexivity|].
  rewrite IH. simpl. lia.
Qed.

(** A 256-bit word reads back as the number it encodes. *)
Lemma toZ_word256 (v : Z) : 0 <= v < 2 ^ 256 -> Hex.toZ (Hex.word256 v) = Some v.
Proof.
  intros Hv. unfold Hex.toZ, Hex.word256. rewrite toZ_acc_ofZ_digits.
  cbn [Hex.toZ_acc]. f_equal.
  assert (Hpow : 16 ^ Z.of_nat 64 = 2 ^ 256) by reflexivity.
  rewrite Hpow, Z.mod_small by exact Hv. lia.
Qed.

Lemma toFixed2_whole (k divisor : Z) :
  0 <= k -> 0 < divisor -> toFixed2 (k * divisor) divisor = pretty k +:+ ".00".
Proof.
  intros Hk Hd. unfold toFixed2.
  assert (Hn : (200 * (k * divisor) + divisor) / (2 * divisor) = 100 * k).
  { replace (200 * (k * divisor) + divisor)
      with (100 * k * (2 * divisor) + divisor) by ring.
    rewrite Z.div_add_l by lia. rewrite Z.div_small by lia. lia. }
  rewrite Hn.
  replace (100 * k / 100) with k by (rewrite Z.mul_comm, Z.div_mul; lia).
  replace ((100 * k) mod 100) with 0 by (rewrite Z.mul_comm, Z.mod_mul; lia).
  reflexivity.
Qed.

Lemma round_exact (n : Z) :
  0 <= n < 2 ^ 53 -> Double.round n 1 = Some (Double.mk n 1).
Proof.
  intros [H0 H53]. unfold Double.round.
  rewrite Z.mod_1_r, Z.div_1_r. cbn [Z.eqb andb].
  now rewrite (proj2 (Z.ltb_lt n (2 ^ 53)) H53).
Qed.

(** The powers of ten up to [10 ** 22] are doubles. *)
Lemma pow10_exact (dec : Z) :
  0 <= dec <= 22 -> Double.pow10 dec = Some (Double.mk (10 ^ dec) 1).
Proof.
  intros Hdec.
  assert (Hn : exists n : nat, (n <= 22)%nat /\ dec = Z.of_nat n)
    by (exists (Z.to_nat dec); lia).
  destruct Hn as (n & Hn & ->).
  do 23 (destruct n as [|n]; [vm_compute; reflexivity|]). lia.
Qed.

(** A whole number of tokens passes through the floating-point sum
    unchanged. *)
Lemma scaled_whole (k d : Z) :
  0 <= k < 2 ^ 53 -> 0 < d ->
  scaled k 0 (Double.mk d 1) = Some (Double.mk k 1).
Proof.
  intros Hk Hd. unfold scaled, Double.ofZ.
  rewrite (round_exact k Hk), (round_exact 0) by (split; [lia | reflexivity]).
  cbn [mbind option_bind]. unfold Double.div. cbn [Double.num Double.den].
  rewrite Z.mul_1_r, Z.mul_1_l.
  assert (Hzero : Double.round 0 d = Some (Double.mk 0 1)).
  { unfold Double.round. rewrite Z.mod_0_l, Z.div_0_l by lia. reflexivity. }
  rewrite Hzero. cbn [mbind option_bind]. unfold Double.add.
  cbn [Double.num Double.den].
  replace (k * 1 + 0 * 1) with k by lia. rewrite Z.mul_1_r.
  now apply round_exact.
Qed.

Lemma toFixed_whole (k : Z) :
  0 <= k < 2 ^ 53 -> toFixed (Double.mk k 1) = pretty k +:+ ".00".
Proof.
  intros Hk. unfold toFixed. cbn [Double.num Double.den].
  assert (H21 : 2 ^ 53 < 10 ^ 21) by reflexivity.
  rewrite (proj2 (Z.leb_gt (10 ^ 21 * 1) k)) by lia.
  rewrite <- (Z.mul_1_r k) at 1. apply toFixed2_whole; lia.
Qed.

(** The amount goes through doubles: 1.005 tokens are the double just
    below 1.005 and are shown as 1.00; the same holds of decimals
    beyond 22, where the power of ten is itself rounded; and an amount
    of [1e21] tokens or more is shown in exponent notation. *)
Example amount_is_rounded_as_a_double :
  _decodeTransferAmount ("0xa9059cbb" +:+ Hex.word256 1 +:+ Hex.word256 1005) 3
  = Some "1.00"
  /\ _decodeTransferAmount ("0xa9059cbb" +:+ Hex.word256 1 +:+ Hex.word256 1015) 3
     = Some "1.01"
  /\ _decodeTransferAmount ("0xa9059cbb" +:+ Hex.word256 1 +:+ Hex.word256 (10 ^ 22)) 1
     = Some "1e+21"
  /\ _decodeTransferAmount ("0xa9059cbb" +:+ Hex.word256 1 +:+ Hex.word256 (2 ^ 256 - 1)) 0
     = Some "1.157920892373162e+77"
  /\ _decodeTransferAmount ("0xa9059cbb" +:+ Hex.word256 1 +:+ Hex.word256 5) (-1)
     = None.
Proof. repeat split; vm_compute; reflexivity. Qed.

(** X23.  The amount of an ABI-encoded [transfer(address,uint256)]
    call: for a whole number [k] of tokens (below [2^53]) encoded with
    the token's decimals (at most 22, the range in which [10 ** decimals]
    is exact), [_decodeTransferAmount] gives [k] with two decimals. *)
Theorem whole_transfer_amount_is_decoded (recipientWord : list Z) (k dec : Z) :
  List.length recipientWord = 32%nat ->
  0 <= dec <= 22 ->
  0 <= k < 2 ^ 53 ->
  k * 10 ^ dec < 2 ^ 256 ->
  _decodeTransferAmount
    ("0x" +:+ Hex.ofBytes ([0xa9; 0x05; 0x9c; 0xbb] ++ recipientWord)
          +:+ Hex.word256 (k * 10 ^ dec)) dec
  = Some (pretty k +:+ ".00").
Proof.
  intros Hlen Hdec Hk Hfit.
  assert (Hd : 0 < 10 ^ dec) by (apply Z.pow_pos_nonneg; lia).
  set (word := Hex.word256 (k * 10 ^ dec)).
  set (data := "0x" +:+ Hex.ofBytes ([0xa9; 0x05; 0x9c; 0xbb] ++ recipientWord) +:+ word).
  assert (Hword : String.length word = 64%nat)
    by (unfold word, Hex.word256; now rewrite length_ofZ_digits).
  assert (Hdata1 : data = "0xa9059cbb" +:+ (Hex.ofBytes recipientWord +:+ word)).
  { unfold data. rewrite ofBytes_app.
    rewrite (append_assoc (Hex.ofBytes [0xa9; 0x05; 0x9c; 0xbb])). reflexivity. }
  assert (Hdata2 : data = ("0xa9059cbb" +:+ Hex.ofBytes recipientWord) +:+ word).
  { rewrite Hdata1. now rewrite append_assoc. }
  assert (Hprefix : String.length ("0xa9059cbb" +:+ Hex.ofBytes recipientWord) = 74%nat).
  { rewrite length_append, length_ofBytes, Hlen. reflexivity. }
  assert (Hslice : Js.slice 74 138 data = word).
  { unfold Js.slice. change (138 - 74)%nat with 64%nat. rewrite Hdata2.
    rewrite (substring_skip_all _ word 74 64 Hprefix).
    now apply substring_whole. }
  assert (Hlong : (138 <=? String.length data)%nat = true).
  { apply Nat.leb_le. rewrite Hdata2, length_append, Hprefix, Hword. lia. }
  assert (Hstart : Js.startsWith transferSelector data = true)
    by (rewrite Hdata1; apply prefix_append).
  unfold _decodeTransferAmount. fold data. rewrite Hstart, Hlong, Hslice. cbn [andb].
  unfold word. rewrite toZ_word256 by (split; [apply Z.mul_nonneg_nonneg|]; lia).
  rewrite (pow10_exact dec Hdec). cbn [mbind option_bind].
  unfold Double.toBigInt. cbn [Double.num Double.den].
  rewrite Z.mod_1_r, Z.div_1_r. change (0 =? 0) with true. cbn iota.
  cbn [mbind option_bind].
  rewrite (proj2 (Z.eqb_neq (10 ^ dec) 0)) by lia.
  rewrite Z.div_mul by lia. rewrite Z.mod_mul by lia.
  rewrite (scaled_whole k (10 ^ dec) Hk Hd). cbn [fmap option_fmap option_map].
  f_equal. now apply toFixed_whole.
Qed.

End AmountFacts.

(** ** Selector resolver *)

Section SelectorFacts.
Import SignatureResolver.

(** X24.  [resolveSelector]: the table only grows; a selector that was
    resolved (the answer differs from the selector) is answered the
    same way ever after, whatever the lookup services say later; and a
    selector that nobody knows is not written to the table. *)
Theorem resolved_selector_is_remembered
    (table : gmap string string) (openchainResult fourByteResult selector : string) :
  let '(table', signature) :=
    resolveSelector table openchainResult fourByteResult selector in
  table ⊆ table'
  /\ (signature <> selector ->
      forall openchainResult' fourByteResult',
        resolveSelector table' openchainResult' fourByteResult' selector
        = (table', signature))
  /\ (signature = selector -> table' = table).
Proof.
  unfold resolveSelector.
  destruct (table !! selector) as [cached|] eqn:Hcached.
  - split; [reflexivity|]. split; [|reflexivity].
    intros _ o f. now rewrite Hcached.
  - assert (Hnone : table ⊆ table
                    /\ (selector <> selector ->
                        forall o f : string,
                          match table !! selector with
                          | Some cached => (table, cached)
                          | None =>
                              match
                                (if negb (String.eqb o selector) then Some o
                                 else if negb (String.eqb f selector) then Some f
                                 else None)
                              with
                              | Some sig =>
                                  if Js.truthy sig
                                  then (match table !! selector with
                                        | Some _ => table
                                        | None => <[ selector := sig ]> table
                                        end, sig)
                                  else (table, selector)
                              | None => (table, selector)
                              end
                          end = (table, selector))
                    /\ (selector = selector -> table = table)).
    { split; [reflexivity|]. split; [congruence | reflexivity]. }
    assert (Hfound : forall sig,
               sig <> selector ->
               <[ selector := sig ]> table ⊆ <[ selector := sig ]> table
               /\ table ⊆ <[ selector := sig ]> table
               /\ forall o f : string,
                    match <[ selector := sig ]> table !! selector with
                    | Some cached => (<[ selector := sig ]> table, cached)
                    | None =>
                        match
                          (if negb (String.eqb o selector) then Some o
                           else if negb (String.eqb f selector) then Some f
                           else None)
                        with
                        | Some sig' =>
                            if Js.truthy sig'
                            then (match <[ selector := sig ]> table !! selector with
                                  | Some _ => <[ selector := sig ]> table
                                  | None => <[ selector := sig' ]> (<[ selector := sig ]> table)
                                  end, sig')
                            else (<[ selector := sig ]> table, selector)
                        | None => (<[ selector := sig ]> table, selector)
                        end
                    end = (<[ selector := sig ]> table, sig)).
    { intros sig Hsig. split; [reflexivity|]. split; [now apply insert_subseteq|].
      intros o f. now rewrite lookup_insert_eq. }
    destruct (String.eqb_spec openchainResult selector) as [Ho|Ho]; cbn [negb].
    + destruct (String.eqb_spec fourByteResult selector) as [Hf|Hf]; cbn [negb];
        [exact Hnone|].
      destruct (Js.truthy fourByteResult); [|exact Hnone].
      destruct (Hfound fourByteResult Hf) as (_ & Hsub & Hlater).
      split; [exact Hsub|]. split; [intros _; exact Hlater | congruence].
    + destruct (Js.truthy openchainResult); [|exact Hnone].
      destruct (Hfound openchainResult Ho) as (_ & Hsub & Hlater).
      split; [exact Hsub|]. split; [intros _; exact Hlater | congruence].
Qed.

Lemma indexOf_append (c : ascii) (name rest : string) :
  Js.indexOf c name = None ->
  Js.indexOf c (name +:+ String c rest) = Some (String.length name).
Proof.
  induction name as [|d name IH]; intros Hno.
  - simpl. now rewrite Ascii.eqb_refl.
  - change (String d name +:+ String c rest) with (String d (name +:+ String c rest)).
    cbn [Js.indexOf] in *. destruct (Ascii.eqb d c); [discriminate|].
    destruct (Js.indexOf c name); [discriminate|].
    rewrite IH by reflexivity. reflexivity.
Qed.

Lemma shortSignature_open (name rest : string) :
  Js.indexOf "(" name = None ->
  shortSignature (name +:+ String "(" rest) = name +:+ "()".
Proof.
  intros Hno. unfold shortSignature. rewrite (indexOf_append _ _ _ Hno).
  unfold Js.slice. rewrite Nat.sub_0_r.
  rewrite substring_take by lia. now rewrite substring_all.
Qed.

(** X25.  [shortSignature]: a signature [name(parameters] with no
    parenthesis in [name] is shortened to [name()]; the short form is
    left as it is; and so is a string without an opening
    parenthesis. *)
Theorem shortSignature_keeps_the_name_only (name parameters : string) :
  Js.indexOf "(" name = None ->
  shortSignature (name +:+ String "(" parameters) = name +:+ "()"
  /\ shortSignature (name +:+ "()") = name +:+ "()"
  /\ shortSignature name = name.
Proof.
  intros Hno. split; [now apply shortSignature_open|]. split.
  - exact (shortSignature_open name ")" Hno).
  - unfold shortSignature. now rewrite Hno.
Qed.

End SelectorFacts.

(** ** Delivery queue: order and errors *)

Section QueueOrderFacts.
Import TelegramQueue Spec.

Lemma settled_app (l1 l2 : list Effect) : settled (l1 ++ l2) = settled l1 ++ settled l2.
Proof. unfold settled. apply omap_app. Qed.

Lemma loopTest_queue (queue : list SendQueueItem) (pending : list string) :
  queued (fst (loopTest queue pending)) = queue
  /\ settled (snd (loopTest queue pending)) = []
  /\ workerInv (fst (loopTest queue pending)).
Proof.
  unfold workerInv.
  destruct queue as [|next rest]; simpl; repeat split; congruence.
Qed.

(** One continuation keeps the order of the items and the link between
    the worker, its flag and the queue. *)
Lemma advance_order (st : Detailed) (event : Event) :
  workerInv st ->
  settled (snd (advance st event)) ++ queued (fst (advance st event))
  = queued st ++ enqueued [event]
  /\ workerInv (fst (advance st event)).
Proof.
  intros Hinv. pose proof Hinv as (Hflag & Hstopped & Hawait).
  destruct event as [item|reply|]; cbn [advance enqueued omap].
  - destruct (processing st) eqn:Hbusy.
    + cbn [fst snd settled omap app]. split; [reflexivity|].
      unfold workerInv. cbn [queued processing worker].
      split; [split; [intros _; now apply Hflag | reflexivity]|].
      split; [intros Hw; apply Hflag in Hw; [contradiction | reflexivity]|].
      intros _. destruct (queued st); discriminate.
    + destruct (loopTest_queue (queued st ++ [item]) (pendingIds st ++ [messageId item]))
        as (Hq & Hs & Hinv').
      rewrite Hq, Hs. split; [reflexivity | exact Hinv'].
  - rewrite app_nil_r.
    destruct (worker st) eqn:Hworker;
      try (cbn [fst snd settled omap app]; split; [reflexivity | exact Hinv]).
    destruct (queued st) as [|item rest] eqn:Hqueue;
      [now destruct Hawait|].
    assert (Hbusy : processing st = true) by (apply Hflag; discriminate).
    destruct reply as [message_id|err].
    + cbn [fst snd settled omap app queued]. split; [reflexivity|].
      unfold workerInv. cbn [queued processing worker]. rewrite Hbusy.
      repeat split; try discriminate.
    + destruct (retrySending (handleError err)).
      * cbn [fst snd settled omap app queued]. split; [reflexivity|].
        unfold workerInv. cbn [queued processing worker]. rewrite Hbusy.
        repeat split; try discriminate.
      * destruct (removeMessage (handleError err)).
        -- destruct (loopTest_queue rest (removePending (messageId item) (pendingIds st)))
             as (Hq & Hs & Hinv').
           destruct (loopTest rest _) as [st' effects]. cbn [fst snd] in *.
           rewrite settled_app, Hs, Hq. split; [reflexivity | exact Hinv'].
        -- destruct (loopTest_queue (item :: rest) (pendingIds st)) as (Hq & Hs & Hinv').
           rewrite Hs, Hq. split; [reflexivity | exact Hinv'].
  - rewrite app_nil_r.
    destruct (worker st) eqn:Hworker;
      try (cbn [fst snd settled omap app]; split; [reflexivity | exact Hinv]).
    destruct (loopTest_queue (queued st) (pendingIds st)) as (Hq & Hs & Hinv').
    rewrite Hs, Hq. split; [reflexivity | exact Hinv'].
Qed.

Lemma advanceAll_order (events : list Event) :
  forall st,
    workerInv st ->
    settled (snd (advanceAll st events)) ++ queued (fst (advanceAll st events))
    = queued st ++ enqueued events
    /\ workerInv (fst (advanceAll st events)).
Proof.
  induction events as [|event events IH]; intros st Hinv; cbn [advanceAll].
  - cbn [fst snd settled enqueued omap]. rewrite app_nil_r. now split.
  - destruct (advance_order st event Hinv) as [Hstep Hinv1].
    destruct (advance st event) as [st1 e1]. cbn [fst snd] in Hstep, Hinv1.
    destruct (IH st1 Hinv1) as [Hrun Hinv2].
    destruct (advanceAll st1 events) as [st2 e2]. cbn [fst snd] in *.
    split; [|exact Hinv2].
    rewrite settled_app, <- app_assoc, Hrun, app_assoc, Hstep, <- app_assoc.
    f_equal. unfold enqueued. cbn [omap].
    destruct event; reflexivity.
Qed.

(** X26.  The send queue is first-in first-out and loses nothing, the
    worker being followed one [await] at a time: whatever the service
    answers and whenever the pauses end, the items settled so far
    (resolved or rejected), followed by the items still queued, are the
    items submitted, in the order of submission; the flag
    [isProcessingSendQueue] is set exactly while the worker runs,
    pauses included; the worker has stopped on an empty queue only; and
    while it awaits an answer the queue is not empty. *)
Theorem queue_settles_in_submission_order (events : list Event) :
  settled (snd (advanceAll start events)) ++ queued (fst (advanceAll start events))
  = enqueued events
  /\ (processing (fst (advanceAll start events)) = true
      <-> worker (fst (advanceAll start events)) <> Stopped)
  /\ (worker (fst (advanceAll start events)) = Stopped
      -> queued (fst (advanceAll start events)) = [])
  /\ (worker (fst (advanceAll start events)) = AwaitingApi
      -> queued (fst (advanceAll start events)) <> []).
Proof.
  apply (advanceAll_order events start).
  unfold workerInv. simpl. repeat split; congruence.
Qed.

(** After the only item is delivered the worker pauses with the flag
    still set; the flag is cleared when the pause ends. *)
Example flag_stays_set_during_the_pause :
  let item := Scenario.firstItem in
  let delivered := fst (advanceAll start [Enqueue item; Settle (Delivered 77)]) in
  delivered = mkDetailed [] true [] Sleeping
  /\ fst (advance delivered Wake) = mkDetailed [] false [] Stopped
  /\ advance delivered (Enqueue Scenario.secondItem)
     = (mkDetailed [Scenario.secondItem] true ["1002_2_0.2"] Sleeping, []).
Proof. repeat split. Qed.

Lemma loopTest_continueLoop (queue : list SendQueueItem) (pending : list string) :
  loopTest queue pending
  = (detail (fst (continueLoop queue pending)), snd (continueLoop queue pending)).
Proof. destruct queue; reflexivity. Qed.

(** The machine of [step] is the worker followed one [await] at a time,
    each answer being followed by the end of the pause it starts: an
    input of [step] leads to the same fields and the same effects, and
    leaves the worker at a request or stopped. *)
Lemma step_is_advance_past_the_pause (st : State) (input : Input) :
  advanceAll (detail st) (expand input)
  = (detail (fst (step st input)), snd (step st input)).
Proof.
  destruct st as [queue busy pending].
  destruct input as [item|reply]; cbn [expand advanceAll].
  - unfold detail at 1. cbn [advance step queued processing pendingIds worker
      sendQueue isProcessingSendQueue pendingSendMessages].
    destruct busy; [reflexivity|].
    rewrite loopTest_continueLoop. now rewrite app_nil_r.
  - unfold detail at 1. cbn [advance step queued processing pendingIds worker
      sendQueue isProcessingSendQueue pendingSendMessages].
    destruct busy; [|reflexivity].
    destruct queue as [|item rest]; [reflexivity|].
    destruct reply as [message_id|err].
    + cbn [advance worker queued pendingIds]. rewrite loopTest_continueLoop.
      destruct (continueLoop rest _) as [st' effects]. cbn [fst snd].
      now rewrite app_nil_r.
    + destruct (retrySending (handleError err)).
      * cbn [advance worker queued pendingIds]. rewrite loopTest_continueLoop.
        cbn [continueLoop fst snd]. reflexivity.
      * destruct (removeMessage (handleError err)).
        -- rewrite loopTest_continueLoop.
           destruct (continueLoop rest _) as [st' effects] eqn:Hloop.
           cbn [fst snd]. 
           assert (Hw : worker (detail st') <> Sleeping)
             by (unfold detail; cbn [worker]; destruct (isProcessingSendQueue st'); discriminate).
           cbn [advance]. destruct (worker (detail st')); [| |contradiction];
             now rewrite !app_nil_r.
        -- cbn [loopTest continueLoop advance worker fst snd]. reflexivity.
Qed.

Lemma handleError_retry (error : ApiError) :
  retrySending (handleError error) = rateLimited error
  /\ removeMessage (handleError error) = negb (rateLimited error).
Proof.
  destruct error as [code description retry_after|message]; simpl; [|now split].
  destruct (code =? 429); [now split|].
  destruct (_ || _); [now split|]. destruct (_ || _); now split.
Qed.

(** X27.  An error that is not a rate limit ends the item: the
    promise of the head item is rejected with that error, the item
    leaves the queue, and the worker goes on with the next one. *)
Theorem failed_item_is_rejected_unless_rate_limited
    (st : State) (item : SendQueueItem) (rest : list SendQueueItem) (error : ApiError) :
  isProcessingSendQueue st = true ->
  sendQueue st = item :: rest ->
  rateLimited error = false ->
  snd (step st (Answer (Failed error)))
  = Reject item error
      :: match rest with
         | [] => []
         | next :: _ => [CallSendMessage next]
         end
  /\ sendQueue (fst (step st (Answer (Failed error)))) = rest.
Proof.
  intros Hbusy Hqueue Hrate. cbn [step]. rewrite Hbusy, Hqueue.
  destruct (handleError_retry error) as [Hretry Hremove].
  rewrite Hretry, Hremove, Hrate. cbn [negb].
  destruct rest as [|next rest']; cbn [continueLoop fst snd app sendQueue]; now split.
Qed.

End QueueOrderFacts.

(** ** Message builder: the token of the buttons *)

Section ButtonFacts.
Import MessageBuilder.
Variable baseTokens : list string.

Lemma fold_button (l : list (string * string)) :
  match fold_left (fun acc kv =>
                     if negb (TokenResolver.isBase baseTokens (snd kv))
                     then Some (fst kv) else acc) l None with
  | None => forall kv, kv ∈ l -> TokenResolver.isBase baseTokens (snd kv) = true
  | Some token =>
      exists sym before after,
        l = before ++ (token, sym) :: after
        /\ TokenResolver.isBase baseTokens sym = false
        /\ forall kv, kv ∈ after -> TokenResolver.isBase baseTokens (snd kv) = true
  end.
Proof.
  induction l as [|[k sym] l IH] using rev_ind.
  - simpl. intros kv Hin. inversion Hin.
  - rewrite fold_left_app. cbn [fold_left fst snd].
    destruct (TokenResolver.isBase baseTokens sym) eqn:Hbase; cbn [negb].
    + destruct (fold_left _ l None) as [token|].
      * destruct IH as (s & before & after & -> & Hs & Hafter).
        exists s, before, (after ++ [(k, sym)]). split; [now rewrite <- app_assoc|].
        split; [exact Hs|]. intros kv Hin.
        apply elem_of_app in Hin as [Hin|Hin]; [now apply Hafter|].
        apply list_elem_of_singleton in Hin. now subst kv.
      * intros kv Hin. apply elem_of_app in Hin as [Hin|Hin]; [now apply IH|].
        apply list_elem_of_singleton in Hin. now subst kv.
    + exists sym, l, []. split; [reflexivity|]. split; [exact Hbase|].
      intros kv Hin. inversion Hin.
Qed.

(** X28.  The token of the inline buttons: among the first ten
    interacted tokens it is the last one whose symbol is not a base
    token; there are no buttons exactly when all of them are base
    tokens. *)
Theorem button_token_is_the_last_non_base_token (interact : Ordered.record string) :
  match buttonToken baseTokens interact with
  | None =>
      forall kv, kv ∈ firstn 10 interact ->
                 TokenResolver.isBase baseTokens (snd kv) = true
  | Some token =>
      exists sym before after,
        firstn 10 interact = before ++ (token, sym) :: after
        /\ TokenResolver.isBase baseTokens sym = false
        /\ forall kv, kv ∈ after -> TokenResolver.isBase baseTokens (snd kv) = true
  end.
Proof. unfold buttonToken. apply fold_button. Qed.

End ButtonFacts.
(** ** The properties on the scenario *)

Section ScenarioRuns.
Import Multinode Multicall TokenResolver Tracer Sql TransactionProcessor Scenario.

Lemma checksum_address_is_canonical_witness :
  AddressUtils.isValidAddress watched = true
  /\ exists checksum,
       AddressUtils.getChecksumAddress watched = Some checksum
       /\ Viem.isAddress checksum = true
       /\ Js.toLowerCase checksum = Js.toLowerCase watched
       /\ AddressUtils.getChecksumAddress checksum = Some checksum.
Proof.
  split; [vm_compute; reflexivity|].
  apply (checksum_address_is_canonical watched). vm_compute. reflexivity.
Defined.

Lemma transfer_recipient_is_found_by_the_scan_witness :
  AddressExtractor.extractTransferRecipient transferData
    = Some "0x5aAeb6053F3E94C9b9A09f33669435E7Ef1BeAed"
  /\ Js.slice 10 34 transferData = AddressExtractor.zeros24
  /\ (76 <= String.length transferData)%nat
  /\ Js.toLowerCase "0x5aAeb6053F3E94C9b9A09f33669435E7Ef1BeAed"
       ∈ AddressExtractor.extractAddressesFromCalldata transferData.
Proof.
  split; [vm_compute; reflexivity|].
  split; [vm_compute; reflexivity|].
  split; [apply Nat.leb_le; vm_compute; reflexivity|].
  apply (transfer_recipient_is_found_by_the_scan transferData
           "0x5aAeb6053F3E94C9b9A09f33669435E7Ef1BeAed").
  - vm_compute. reflexivity.
  - vm_compute. reflexivity.
  - apply Nat.leb_le. vm_compute. reflexivity.
Defined.

Lemma subscriber_key_round_trip_witness :
  Js.indexOf "@" "eth_spybot" = None
  /\ splitId (userKey 1001 "eth_spybot") = (pretty 1001, "eth_spybot")
  /\ chatIdOf (pretty 1001) = TelegramQueue.ChatNumber 1001.
Proof.
  split; [reflexivity|].
  apply (subscriber_key_round_trip 1001 "eth_spybot"). reflexivity.
Defined.


Lemma only_subscribers_of_the_sender_are_notified_witness :
  watchlist deployment = updateWatchlist rows
  /\ Forall (fun e => exists users,
               updateWatchlist rows !! from outgoingTx = Some users
               /\ Spec.subscriber e ∈ Ordered.keys users)
            (snd (handle deployment initial outgoingTx)).
Proof.
  split; [reflexivity|].
  apply (only_subscribers_of_the_sender_are_notified deployment rows initial outgoingTx).
  reflexivity.
Defined.

Lemma small_plain_transfer_is_not_reported_witness :
  data dustTx = "0x"
  /\ value dustTx < 10 ^ 16
  /\ snd (handle deployment initial dustTx) = [].
Proof.
  split; [reflexivity|]. split; [reflexivity|].
  apply (small_plain_transfer_is_not_reported deployment initial dustTx); reflexivity.
Defined.

Lemma rejected_send_ends_the_processing_witness :
  (sendCount initial <= 1
   < sendCount (fst (process blockedDeployment initial watched outgoingTx)))%nat
  /\ sendAnswer blockedDeployment 1 = Rejected "Forbidden: bot was blocked by the user"
  /\ sendCount (fst (process blockedDeployment initial watched outgoingTx)) = 2%nat
  /\ editCount (fst (process blockedDeployment initial watched outgoingTx))
     = editCount initial
  /\ Forall (fun e => Spec.isSend e = true)
            (snd (process blockedDeployment initial watched outgoingTx)).
Proof.
  assert (Hk : (sendCount initial <= 1
                < sendCount (fst (process blockedDeployment initial watched outgoingTx)))%nat).
  { split; [apply Nat.leb_le | apply Nat.ltb_lt]; vm_compute; reflexivity. }
  split; [exact Hk|]. split; [reflexivity|].
  apply (rejected_send_ends_the_processing blockedDeployment initial watched outgoingTx
           1%nat "Forbidden: bot was blocked by the user" Hk).
  reflexivity.
Defined.

Lemma getLogs_returns_a_longest_answer_witness :
  getLogs [Returned (JArray ["log1"]); Raised "timeout";
           Returned (JArray ["log1"; "log2"])]
    = Ok (JArray ["log1"; "log2"])
  /\ Returned (JArray ["log1"; "log2"])
       ∈ [Returned (JArray ["log1"]); Raised "timeout";
          Returned (JArray ["log1"; "log2"])]
  /\ forall other,
       Returned (JArray other)
         ∈ [Returned (JArray ["log1"]); Raised "timeout";
            Returned (JArray ["log1"; "log2"])] ->
       (List.length other <= List.length ["log1"; "log2"])%nat.
Proof.
  split; [reflexivity|].
  apply (getLogs_returns_a_longest_answer
           [Returned (JArray ["log1"]); Raised "timeout";
            Returned (JArray ["log1"; "log2"])] ["log1"; "log2"]).
  reflexivity.
Defined.

Lemma block_is_announced_once_within_window_witness :
  (forall n m,
     n ∈ Spec.blockNumbers [emptyBlock 100; emptyBlock 101; emptyBlock 100] ->
     m ∈ Spec.blockNumbers [emptyBlock 100; emptyBlock 101; emptyBlock 100] ->
     m - n < BlockReader.BLOCK_WINDOW)
  /\ NoDup (Spec.emittedBlocks
              (snd (BlockReader.processBlocks BlockReader.initial
                      [emptyBlock 100; emptyBlock 101; emptyBlock 100]))).
Proof.
  assert (Hspan : forall n m,
             n ∈ Spec.blockNumbers [emptyBlock 100; emptyBlock 101; emptyBlock 100] ->
             m ∈ Spec.blockNumbers [emptyBlock 100; emptyBlock 101; emptyBlock 100] ->
             m - n < BlockReader.BLOCK_WINDOW).
  { intros n m Hn Hm. apply list_elem_of_In in Hn, Hm.
    unfold BlockReader.BLOCK_WINDOW. simpl in Hn, Hm. lia. }
  split; [exact Hspan|].
  apply (block_is_announced_once_within_window BlockReader.initial
           [emptyBlock 100; emptyBlock 101; emptyBlock 100] Hspan).
Defined.

Lemma reader_catches_up_when_blocks_arrive_witness :
  (forall (round : nat) h, Z.min 8 12 <= h <= 12 -> is_Some (Some (emptyBlock h)))
  /\ (Z.to_nat (12 + 1 - Z.min 8 12) <= 5)%nat
  /\ let '(p, finished, errors) :=
       BlockReader.readBlocksLoop 5 (Ok 12) (fun _ h => Some (emptyBlock h))
         BlockReader.initial 8 in
     finished = true /\ BlockReader.expectedBlockNumber p = 12 + 1.
Proof.
  assert (H1 : forall (round : nat) h,
             Z.min 8 12 <= h <= 12 -> is_Some (Some (emptyBlock h))) by eauto.
  assert (H2 : (Z.to_nat (12 + 1 - Z.min 8 12) <= 5)%nat)
    by (apply Nat.leb_le; vm_compute; reflexivity).
  split; [exact H1|]. split; [exact H2|].
  exact (reader_catches_up_when_blocks_arrive 5 12 (fun _ h => Some (emptyBlock h))
           BlockReader.initial 8 H1 H2).
Defined.

Lemma saved_block_is_resumed_witness :
  0 < 19000000 < 2 ^ 53
  /\ BlockReader.loadLastProcessedBlock
       (Some (BlockReader.saveLastProcessedBlock 19000000)) (Ok 19000004)
     = (19000000, None, []).
Proof.
  assert (H : 0 < 19000000 < 2 ^ 53) by (split; reflexivity).
  split; [exact H|].
  exact (saved_block_is_resumed 19000000 (Ok 19000004) H).
Defined.

Lemma restart_is_at_most_ten_blocks_behind_witness :
  BlockReader.rereadBlocks < 19000000
  /\ let '(lastBlock, written, errors) :=
       BlockReader.loadLastProcessedBlock (Some "not a number") (Ok 19000000) in
     19000000 - BlockReader.rereadBlocks <= lastBlock
     /\ errors = []
     /\ (written = None
         \/ written = Some (BlockReader.saveLastProcessedBlock lastBlock)).
Proof.
  split; [reflexivity|].
  apply (restart_is_at_most_ten_blocks_behind (Some "not a number") 19000000).
  reflexivity.
Defined.

Lemma cached_lookup_needs_no_network_witness :
  (forall address,
     address ∈ [token] ->
     is_Some (({[ token := mkToken "TKN" 18 ]} : gmap string TokenMetadata)
                !! Js.toLowerCase address))
  /\ resolveWithNetwork baseTokens chain {[ token := mkToken "TKN" 18 ]} [token]
     = resolveWithNetwork baseTokens silentChain {[ token := mkToken "TKN" 18 ]} [token]
  /\ fst (resolveWithNetwork baseTokens chain {[ token := mkToken "TKN" 18 ]} [token])
     = {[ token := mkToken "TKN" 18 ]}.
Proof.
  assert (H : forall address,
             address ∈ [token] ->
             is_Some (({[ token := mkToken "TKN" 18 ]} : gmap string TokenMetadata)
                        !! Js.toLowerCase address)).
  { intros address Hin. apply list_elem_of_singleton in Hin. subst address.
    exists (mkToken "TKN" 18). vm_compute. reflexivity. }
  split; [exact H|].
  exact (cached_lookup_needs_no_network baseTokens chain silentChain
           {[ token := mkToken "TKN" 18 ]} [token] H).
Defined.

Lemma sortTokens_is_a_stable_partition_witness :
  NoDup (Ordered.keys [("0xaaa", "WETH"); ("0xbbb", "TKN"); ("0xccc", "USDT")])
  /\ sortTokens baseTokens [("0xaaa", "WETH"); ("0xbbb", "TKN"); ("0xccc", "USDT")]
     = [("0xbbb", "TKN"); ("0xaaa", "WETH"); ("0xccc", "USDT")]
  /\ sortTokens baseTokens [("0xaaa", "WETH"); ("0xbbb", "TKN"); ("0xccc", "USDT")]
       ≡ₚ [("0xaaa", "WETH"); ("0xbbb", "TKN"); ("0xccc", "USDT")]
  /\ sortTokens baseTokens
       (sortTokens baseTokens [("0xaaa", "WETH"); ("0xbbb", "TKN"); ("0xccc", "USDT")])
     = sortTokens baseTokens [("0xaaa", "WETH"); ("0xbbb", "TKN"); ("0xccc", "USDT")].
Proof.
  assert (H : NoDup (Ordered.keys [("0xaaa", "WETH"); ("0xbbb", "TKN"); ("0xccc", "USDT")])).
  { refine (bool_decide_unpack _ _). vm_compute. exact I. }
  split; [exact H|].
  exact (sortTokens_is_a_stable_partition baseTokens
           [("0xaaa", "WETH"); ("0xbbb", "TKN"); ("0xccc", "USDT")] H).
Defined.

Lemma whole_transfer_amount_is_decoded_witness :
  List.length (List.repeat 0 12 ++ List.repeat 17 20) = 32%nat
  /\ 0 <= 18 <= 22
  /\ 0 <= 100 < 2 ^ 53
  /\ 100 * 10 ^ 18 < 2 ^ 256
  /\ _decodeTransferAmount
       ("0x" +:+ Hex.ofBytes ([0xa9; 0x05; 0x9c; 0xbb]
                               ++ (List.repeat 0 12 ++ List.repeat 17 20))
             +:+ Hex.word256 (100 * 10 ^ 18)) 18
     = Some (pretty 100 +:+ ".00").
Proof.
  assert (H1 : List.length (List.repeat 0 12 ++ List.repeat 17 20) = 32%nat)
    by reflexivity.
  assert (H2 : 0 <= 18 <= 22) by (split; discriminate).
  assert (H3 : 0 <= 100 < 2 ^ 53) by (split; [discriminate | reflexivity]).
  assert (H4 : 100 * 10 ^ 18 < 2 ^ 256) by reflexivity.
  split; [exact H1|]. split; [exact H2|]. split; [exact H3|]. split; [exact H4|].
  exact (whole_transfer_amount_is_decoded
           (List.repeat 0 12 ++ List.repeat 17 20) 100 18 H1 H2 H3 H4).
Defined.

Lemma shortSignature_keeps_the_name_only_witness :
  Js.indexOf "(" "transfer" = None
  /\ SignatureResolver.shortSignature ("transfer" +:+ String "(" "address,uint256)")
     = "transfer" +:+ "()"
  /\ SignatureResolver.shortSignature ("transfer" +:+ "()") = "transfer" +:+ "()"
  /\ SignatureResolver.shortSignature "transfer" = "transfer".
Proof.
  split; [reflexivity|].
  apply (shortSignature_keeps_the_name_only "transfer" "address,uint256)").
  reflexivity.
Defined.

Lemma failed_item_is_rejected_unless_rate_limited_witness :
  TelegramQueue.isProcessingSendQueue busyQueue = true
  /\ TelegramQueue.sendQueue busyQueue = firstItem :: [secondItem]
  /\ Spec.rateLimited
       (TelegramQueue.GrammyError 403 "Forbidden: bot was blocked by the user" None)
     = false
  /\ snd (TelegramQueue.step busyQueue
            (TelegramQueue.Answer
               (TelegramQueue.Failed
                  (TelegramQueue.GrammyError 403
                     "Forbidden: bot was blocked by the user" None))))
     = [TelegramQueue.Reject firstItem
          (TelegramQueue.GrammyError 403 "Forbidden: bot was blocked by the user" None);
        TelegramQueue.CallSendMessage secondItem]
  /\ TelegramQueue.sendQueue
       (fst (TelegramQueue.step busyQueue
               (TelegramQueue.Answer
                  (TelegramQueue.Failed
                     (TelegramQueue.GrammyError 403
                        "Forbidden: bot was blocked by the user" None)))))
     = [secondItem].
Proof.
  split; [reflexivity|]. split; [reflexivity|]. split; [reflexivity|].
  apply (failed_item_is_rejected_unless_rate_limited busyQueue firstItem [secondItem]
           (TelegramQueue.GrammyError 403 "Forbidden: bot was blocked by the user" None));
    reflexivity.
Defined.

End ScenarioRuns.
